(** * PropagateScopeDependencies

    A shallow embedding of
    [compiler/forget/src/ReactiveScopes/PropagateScopeDependencies.ts]
    and the properties of its dependency collection.

    JavaScript objects whose identity the pass observes are modelled with
    that identity made explicit:
    - a [ReactiveScope] is mutated in place and compared by reference
      ([indexOf], [!==]): scopes live in a heap and are named by a
      [ScopeRef];
    - an [Identifier] is a key of [Map<Identifier, _>] and a member of
      [Set<Identifier>]: the record carries the address of the object
      ([ident_obj]), so that equality of records is equality of objects;
    - a [ReactiveScopeDependency] is a member of [Set<ReactiveScopeDependency>]:
      the record carries its address ([dep_obj]) and the context holds
      the next unused address.
    A JS [Set] is the list of its members in insertion order, a JS [Map]
    that is iterated or counted is the list of its entries in insertion
    order, and a [Map] that is only looked up is a [gmap]. *)

From Stdlib Require Import List.
From stdpp Require Import gmap strings list fin_maps.

Set Default Proof Using "Type".

Scheme All for list.
Scheme All for option.

(** ** JS containers *)

Section containers.
Context {A : Type} `{EqDecision A}.

(** [Set.prototype.add]: the member keeps its place when already there. *)
Definition Set_add (x : A) (s : list A) : list A :=
  if decide (x ∈ s) then s else s ++ [x].

(** [Set.prototype.delete]. *)
Fixpoint Set_delete (x : A) (s : list A) : list A :=
  match s with
  | [] => []
  | y :: s' => if decide (y = x) then s' else y :: Set_delete x s'
  end.

Context {V : Type}.

(** [Map.prototype.set]: an existing key keeps its place and takes the
    new value, a new key goes last. *)
Fixpoint Map_set (k : A) (v : V) (m : list (A * V)) : list (A * V) :=
  match m with
  | [] => [(k, v)]
  | (k', v') :: m' =>
      if decide (k' = k) then (k, v) :: m' else (k', v') :: Map_set k v m'
  end.

Definition Map_keys (m : list (A * V)) : list A := map fst m.
End containers.

(** ** The data model (HIR) *)

Definition IdentifierId := nat.
Definition InstructionId := nat.
Definition ScopeRef := nat.

Definition makeInstructionId (n : nat) : InstructionId := n.

Record MutableRange := mkRange {
  range_start : InstructionId;
  range_end : InstructionId
}.

Record Identifier := mkIdentifier {
  ident_obj : nat;
  ident_id : IdentifierId;
  ident_name : option string;
  ident_mutableRange : MutableRange;
  ident_scope : option ScopeRef
}.

Record Place := mkPlace {
  identifier : Identifier;
  place_loc : nat
}.

Record ReactiveScopeDependency := mkDep {
  dep_obj : nat;
  place : Place;
  path : option (list string)
}.

Inductive InstructionKind :=
| InstructionKind_Const
| InstructionKind_Let
| InstructionKind_Reassign.

Record LValue := mkLValue {
  lvalue_place : Place;
  lvalue_kind : InstructionKind
}.

Record ReactiveScope := mkScope {
  range : MutableRange;
  dependencies : list ReactiveScopeDependency;
  declarations : list (IdentifierId * Identifier);
  reassignments : list Identifier
}.

(** A value is one of the three forms with inner control flow, a property
    load, or any other instruction value; the latter is kept as the list
    of the places it mentions. *)
Inductive ReactiveValue :=
| LogicalExpression (lhs rhs : ReactiveValue)
| ConditionalExpression (test consequent alternate : ReactiveValue)
| SequenceExpression (instructions : list ReactiveInstruction)
                     (value : ReactiveValue)
| PropertyLoad (object : Place) (property : string)
| OtherValue (operands : list Place)
with ReactiveInstruction :=
| mkInstruction (instr_id : InstructionId) (lvalue : option LValue)
                (value : ReactiveValue).

Definition instr_lvalue (i : ReactiveInstruction) : option LValue :=
  match i with mkInstruction _ lv _ => lv end.
Definition instr_value (i : ReactiveInstruction) : ReactiveValue :=
  match i with mkInstruction _ _ v => v end.

Inductive ReactiveStatement :=
| ScopeItem (scope : ScopeRef) (instructions : list ReactiveStatement)
| InstructionItem (instruction : ReactiveInstruction)
| TerminalItem (terminal : ReactiveTerminal)
with ReactiveTerminal :=
| BreakTerminal
| ContinueTerminal
| ReturnTerminal (value : option Place)
| ThrowTerminal (value : Place)
| ForTerminal (init test update : ReactiveValue)
              (loop : list ReactiveStatement)
| WhileTerminal (test : ReactiveValue) (loop : list ReactiveStatement)
| IfTerminal (test : Place) (consequent : list ReactiveStatement)
             (alternate : option (list ReactiveStatement))
| SwitchTerminal (test : Place) (cases : list SwitchCase)
with SwitchCase :=
| mkCase (case_test : option Place)
         (case_block : option (list ReactiveStatement)).

Definition ReactiveBlock := list ReactiveStatement.

Record ReactiveFunction := mkFunction {
  fn_id : option Identifier;
  params : list Place;
  body : ReactiveBlock
}.

#[global] Instance MutableRange_eq_dec : EqDecision MutableRange.
Proof. solve_decision. Defined.
#[global] Instance Identifier_eq_dec : EqDecision Identifier.
Proof. solve_decision. Defined.
#[global] Instance Place_eq_dec : EqDecision Place.
Proof. solve_decision. Defined.
#[global] Instance ReactiveScopeDependency_eq_dec :
  EqDecision ReactiveScopeDependency.
Proof. solve_decision. Defined.

Definition Identifier_to_tuple (i : Identifier) :=
  (ident_obj i, ident_id i, ident_name i,
   range_start (ident_mutableRange i), range_end (ident_mutableRange i),
   ident_scope i).

Definition Identifier_of_tuple
    (t : nat * IdentifierId * option string * nat * nat * option ScopeRef) :=
  let '(o, i, n, s, e, sc) := t in mkIdentifier o i n (mkRange s e) sc.

#[global] Instance Identifier_countable : Countable Identifier.
Proof.
  refine (inj_countable' Identifier_to_tuple Identifier_of_tuple _).
  intros [o i n [s e] sc]. reflexivity.
Defined.

(** ** The declaration table *)

Inductive DeclKind := Const | Dynamic.

Record Decl := mkDecl {
  decl_kind : DeclKind;
  decl_id : InstructionId;
  decl_scope : option ScopeRef
}.

#[global] Instance DeclKind_eq_dec : EqDecision DeclKind.
Proof. solve_decision. Defined.

(** ** The context and the scope objects it mutates

    [Context] holds the five private fields of the class; [heap] gives
    the current contents of every scope object and [next_obj] is the
    address the next [{place, path}] object literal gets. *)
Record Context := mkContext {
  ctx_declarations : gmap IdentifierId Decl;
  ctx_dependencies : list ReactiveScopeDependency;
  ctx_reactiveIdentifiers : gset Identifier;
  ctx_properties : gmap Identifier ReactiveScopeDependency;
  ctx_scopes : list ScopeRef;
  heap : ScopeRef -> ReactiveScope;
  next_obj : nat
}.

Definition set_declarations (f : gmap IdentifierId Decl -> gmap IdentifierId Decl)
    (c : Context) : Context :=
  mkContext (f (ctx_declarations c)) (ctx_dependencies c)
    (ctx_reactiveIdentifiers c) (ctx_properties c) (ctx_scopes c)
    (heap c) (next_obj c).

Definition set_dependencies (d : list ReactiveScopeDependency)
    (c : Context) : Context :=
  mkContext (ctx_declarations c) d (ctx_reactiveIdentifiers c)
    (ctx_properties c) (ctx_scopes c) (heap c) (next_obj c).

Definition set_properties
    (f : gmap Identifier ReactiveScopeDependency ->
         gmap Identifier ReactiveScopeDependency)
    (c : Context) : Context :=
  mkContext (ctx_declarations c) (ctx_dependencies c)
    (ctx_reactiveIdentifiers c) (f (ctx_properties c)) (ctx_scopes c)
    (heap c) (next_obj c).

Definition set_scopes (s : list ScopeRef) (c : Context) : Context :=
  mkContext (ctx_declarations c) (ctx_dependencies c)
    (ctx_reactiveIdentifiers c) (ctx_properties c) s (heap c) (next_obj c).

Definition set_heap (h : ScopeRef -> ReactiveScope) (c : Context) : Context :=
  mkContext (ctx_declarations c) (ctx_dependencies c)
    (ctx_reactiveIdentifiers c) (ctx_properties c) (ctx_scopes c) h
    (next_obj c).

Definition set_next_obj (n : nat) (c : Context) : Context :=
  mkContext (ctx_declarations c) (ctx_dependencies c)
    (ctx_reactiveIdentifiers c) (ctx_properties c) (ctx_scopes c) (heap c) n.

(** In-place update of the scope object at [r]. *)
Definition heap_update (r : ScopeRef) (f : ReactiveScope -> ReactiveScope)
    (h : ScopeRef -> ReactiveScope) : ScopeRef -> ReactiveScope :=
  fun r' => if decide (r' = r) then f (h r') else h r'.

Definition scope_set_dependencies (d : list ReactiveScopeDependency)
    (s : ReactiveScope) : ReactiveScope :=
  mkScope (range s) d (declarations s) (reassignments s).

Definition scope_declarations_set (k : IdentifierId) (v : Identifier)
    (s : ReactiveScope) : ReactiveScope :=
  mkScope (range s) (dependencies s) (Map_set k v (declarations s))
    (reassignments s).

Definition scope_reassignments_add (x : Identifier)
    (s : ReactiveScope) : ReactiveScope :=
  mkScope (range s) (dependencies s) (declarations s)
    (Set_add x (reassignments s)).

(** [new Context(reactiveIdentifiers)], running against the scope objects
    of [h]. *)
Definition newContext (reactiveIdentifiers : gset Identifier)
    (h : ScopeRef -> ReactiveScope) : Context :=
  mkContext ∅ [] reactiveIdentifiers ∅ [] h 0.

(** ** Methods of [Context] *)

(** [enter(scope, fn)]; the collected set is returned with the context. *)
Definition enter (c : Context) (scope : ScopeRef) (fn : Context -> Context)
    : list ReactiveScopeDependency * Context :=
  let previousDependencies := ctx_dependencies c in
  let c := set_dependencies [] c in
  let c := set_scopes (ctx_scopes c ++ [scope]) c in
  let c := fn c in
  let scopedDependencies := ctx_dependencies c in
  let c := set_scopes (removelast (ctx_scopes c)) c in
  let c := set_dependencies previousDependencies c in
  (scopedDependencies, c).

Definition declare (c : Context) (ident : Identifier) (decl : Decl) : Context :=
  set_declarations (fun m => <[ident_id ident := decl]> m) c.

(** The object literal built by [declareProperty] and [visitProperty]. *)
Definition nextDependency (c : Context) (object : Place) (property : string)
    : ReactiveScopeDependency :=
  match ctx_properties c !! identifier object with
  | None => mkDep (next_obj c) object (Some [property])
  | Some objectDependency =>
      mkDep (next_obj c) (place objectDependency)
        (Some (default [] (path objectDependency) ++ [property]))
  end.

Definition declareProperty (c : Context) (lvalue object : Place)
    (property : string) : Context :=
  let dep := nextDependency c object property in
  let c := set_next_obj (S (next_obj c)) c in
  set_properties (fun m => <[identifier lvalue := dep]> m) c.

Definition isScopeActive (c : Context) (scope : ScopeRef) : bool :=
  bool_decide (scope ∈ ctx_scopes c).

Definition currentScope (c : Context) : option ScopeRef :=
  last (ctx_scopes c).

Definition isReactive (c : Context) (ident : Identifier) : bool :=
  bool_decide (ident ∈ ctx_reactiveIdentifiers c).

(** The [while] loop of [visitDependency]: the length of the common
    leading part of the two paths. *)
Fixpoint commonPathIndex (operandPath depPath : list string) : nat :=
  match operandPath, depPath with
  | x :: operandPath', y :: depPath' =>
      if decide (x = y) then S (commonPathIndex operandPath' depPath') else 0
  | _, _ => 0
  end.

(** The [for] loop of [visitDependency] over the working set [all], with
    [rest] the members still to be scanned, followed by the final [add]. *)
Fixpoint scanDependencies (all rest : list ReactiveScopeDependency)
    (maybeDep : ReactiveScopeDependency) : list ReactiveScopeDependency :=
  match rest with
  | [] => Set_add maybeDep all
  | dep :: rest' =>
      if decide (ident_id (identifier (place dep))
                 ≠ ident_id (identifier (place maybeDep)))
      then scanDependencies all rest' maybeDep
      else
        match path dep with
        | None => all
        | Some depPath =>
            match path maybeDep with
            | None => Set_add maybeDep (Set_delete dep all)
            | Some operandPath =>
                if decide (commonPathIndex operandPath depPath = length depPath)
                then all
                else scanDependencies all rest' maybeDep
            end
        end
  end.

(** The first statement of [visitDependency]: resolve a path-less
    anonymous temporary through the alias table. *)
Definition maybeDependency (c : Context) (dependency : ReactiveScopeDependency)
    : ReactiveScopeDependency :=
  match path dependency with
  | Some _ => dependency
  | None =>
      match ident_name (identifier (place dependency)),
            ctx_properties c !! identifier (place dependency) with
      | None, Some propDep => propDep
      | _, _ => dependency
      end
  end.

(** The first [if] of [visitDependency]: a value used after its defining
    scope has concluded becomes an output of that scope. *)
Definition promoteEscape (c : Context) (maybeDep : ReactiveScopeDependency)
    : Context :=
  let ident := identifier (place maybeDep) in
  match ctx_declarations c !! ident_id ident with
  | Some decl =>
      match decl_scope decl with
      | Some s =>
          if isScopeActive c s then c
          else set_heap
                 (heap_update s (scope_declarations_set (ident_id ident) ident)
                    (heap c)) c
      | None => c
      end
  | None => c
  end.

(** The condition of the second [if] of [visitDependency]. *)
Definition isDependency (c : Context) (maybeDep : ReactiveScopeDependency)
    : bool :=
  match currentScope c,
        ctx_declarations c !! ident_id (identifier (place maybeDep)) with
  | Some cs, Some decl =>
      bool_decide (decl_kind decl ≠ Const)
      && bool_decide (decl_id decl < range_start (range (heap c cs)))
      && match decl_scope decl with
         | None => true
         | Some s => negb (isScopeActive c s)
         end
  | _, _ => false
  end.

Definition visitDependency (c : Context) (dependency : ReactiveScopeDependency)
    : Context :=
  let maybeDep := maybeDependency c dependency in
  let c := promoteEscape c maybeDep in
  if isDependency c maybeDep
  then set_dependencies
         (scanDependencies (ctx_dependencies c) (ctx_dependencies c) maybeDep) c
  else c.

Definition visitOperand (c : Context) (p : Place) : Context :=
  let dep := mkDep (next_obj c) p None in
  visitDependency (set_next_obj (S (next_obj c)) c) dep.

Definition visitProperty (c : Context) (object : Place) (property : string)
    : Context :=
  let dep := nextDependency c object property in
  visitDependency (set_next_obj (S (next_obj c)) c) dep.

Definition visitReassignment (c : Context) (lv : LValue) : Context :=
  match lvalue_kind lv with
  | InstructionKind_Reassign =>
      let ident := identifier (lvalue_place lv) in
      match currentScope c, ident_scope ident,
            ctx_declarations c !! ident_id ident with
      | Some cs, Some _, Some declaration =>
          if decide (decl_scope declaration ≠ ident_scope ident)
          then set_heap (heap_update cs (scope_reassignments_add ident) (heap c)) c
          else c
      | _, _, _ => c
      end
  | _ => c
  end.

(** ** The walk *)

Section Walk.
(** The operand visitors of [HIR/visitors] and [ReactiveScopes/visitors]
    and the reactivity analysis are other modules of the compiler; the
    walk is parametric in them. *)
Variable eachInstructionValueOperand : ReactiveValue -> list Place.
Variable eachReactiveValueOperand : ReactiveValue -> list Place.
Variable inferReactiveIdentifiers : ReactiveFunction -> gset Identifier.

Definition visitInstructionValue (c : Context) (value : ReactiveValue)
    (lvalue : option LValue) : Context :=
  match value with
  | PropertyLoad object property =>
      match lvalue with
      | Some lv => declareProperty c (lvalue_place lv) object property
      | None => visitProperty c object property
      end
  | _ => fold_left visitOperand (eachReactiveValueOperand value) c
  end.

Definition visitInstruction (c : Context) (instr : ReactiveInstruction)
    : Context :=
  let lvalue := instr_lvalue instr in
  let c := visitInstructionValue c (instr_value instr) lvalue in
  match lvalue with
  | None => c
  | Some lv =>
      let c := visitReassignment c lv in
      let ident := identifier (lvalue_place lv) in
      let kind := if isReactive c ident then Dynamic else Const in
      declare c ident
        (mkDecl kind (range_start (ident_mutableRange ident)) (currentScope c))
  end.

Fixpoint visitReactiveValue (c : Context) (value : ReactiveValue) : Context :=
  match value with
  | LogicalExpression lhs rhs =>
      let c := visitReactiveValue c lhs in
      visitReactiveValue c rhs
  | ConditionalExpression test consequent alternate =>
      let c := visitReactiveValue c test in
      let c := visitReactiveValue c consequent in
      visitReactiveValue c alternate
  | SequenceExpression instructions value' =>
      let c := fold_left visitInstruction instructions c in
      visitInstructionValue c value' None
  | _ => fold_left visitOperand (eachInstructionValueOperand value) c
  end.

(** One turn of the loop of [visit] ([visitStatement]), the inner
    [switch] on the terminal ([visitTerminal]) and one turn of the loop
    over the cases of a [switch] terminal ([visitCase]). *)
Fixpoint visitStatement (c : Context) (item : ReactiveStatement) : Context :=
  match item with
  | ScopeItem scope instructions =>
      let '(scopeDependencies, c) :=
        enter c scope (fun c => fold_left visitStatement instructions c) in
      let c := set_heap
                 (heap_update scope (scope_set_dependencies scopeDependencies)
                    (heap c)) c in
      fold_left visitDependency scopeDependencies c
  | InstructionItem instr => visitInstruction c instr
  | TerminalItem terminal => visitTerminal c terminal
  end
with visitTerminal (c : Context) (terminal : ReactiveTerminal) : Context :=
  match terminal with
  | BreakTerminal | ContinueTerminal => c
  | ReturnTerminal value =>
      match value with
      | Some v => visitOperand c v
      | None => c
      end
  | ThrowTerminal value => visitOperand c value
  | ForTerminal init test update loop =>
      let c := visitReactiveValue c init in
      let c := visitReactiveValue c test in
      let c := visitReactiveValue c update in
      fold_left visitStatement loop c
  | WhileTerminal test loop =>
      let c := visitReactiveValue c test in
      fold_left visitStatement loop c
  | IfTerminal test consequent alternate =>
      let c := visitOperand c test in
      let c := fold_left visitStatement consequent c in
      match alternate with
      | Some alt => fold_left visitStatement alt c
      | None => c
      end
  | SwitchTerminal test cases =>
      let c := visitOperand c test in
      fold_left visitCase cases c
  end
with visitCase (c : Context) (case_ : SwitchCase) : Context :=
  match case_ with
  | mkCase _ (Some block) => fold_left visitStatement block c
  | mkCase _ None => c
  end.

Definition visit (c : Context) (block : ReactiveBlock) : Context :=
  fold_left visitStatement block c.

(** The context in which the walk of the body starts. *)
Definition functionContext (fn : ReactiveFunction)
    (h : ScopeRef -> ReactiveScope) : Context :=
  let context := newContext (inferReactiveIdentifiers fn) h in
  let context :=
    match fn_id fn with
    | Some i => declare context i (mkDecl Const (makeInstructionId 0) None)
    | None => context
    end in
  fold_left
    (fun context param =>
       declare context (identifier param)
         (mkDecl Dynamic (makeInstructionId 0) None))
    (params fn) context.

(** The pass: from the scope objects before it to the context, and with
    it the scope objects, after it. *)
Definition propagateScopeDependencies (fn : ReactiveFunction)
    (h : ScopeRef -> ReactiveScope) : Context :=
  visit (functionContext fn h) (body fn).
End Walk.

(** ** Operand visitors for closed runs *)

(** Modelled from the spec: [eachInstructionValueOperand] of [HIR/visitors]
    is not part of this file; a plain instruction value yields the places
    it mentions, a property load its object. *)
Definition instructionValueOperands (value : ReactiveValue) : list Place :=
  match value with
  | PropertyLoad object _ => [object]
  | OtherValue operands => operands
  | _ => []
  end.

(** Modelled from the spec: [eachReactiveValueOperand] of
    [ReactiveScopes/visitors] is not part of this file; the forms with inner
    control flow yield the operands of their parts in order, a sequence
    those of its instructions before those of its final value. *)
Fixpoint reactiveValueOperands (value : ReactiveValue) : list Place :=
  match value with
  | LogicalExpression lhs rhs =>
      reactiveValueOperands lhs ++ reactiveValueOperands rhs
  | ConditionalExpression test consequent alternate =>
      reactiveValueOperands test ++ reactiveValueOperands consequent
      ++ reactiveValueOperands alternate
  | SequenceExpression instructions value' =>
      flat_map (fun i => match i with
                         | mkInstruction _ _ v => reactiveValueOperands v
                         end) instructions
      ++ reactiveValueOperands value'
  | _ => instructionValueOperands value
  end.

(** ** What the claims say, in the spec's words *)

(** The qualification test of the spec (4.4, step 3) for a resolved
    candidate. *)
Definition Qualifies (c : Context) (candidate : ReactiveScopeDependency)
    : Prop :=
  ∃ C decl,
    currentScope c = Some C
    ∧ ctx_declarations c !! ident_id (identifier (place candidate)) = Some decl
    ∧ decl_kind decl = Dynamic
    ∧ decl_id decl < range_start (range (heap c C))
    ∧ (decl_scope decl = None
       ∨ ∃ S, decl_scope decl = Some S ∧ S ∉ ctx_scopes c).

(** The escape condition of the spec (4.4, step 2): the root was declared
    inside scope [S] and [S] is no longer open. *)
Definition EscapesFrom (c : Context) (candidate : ReactiveScopeDependency)
    (S : ScopeRef) : Prop :=
  ∃ decl,
    ctx_declarations c !! ident_id (identifier (place candidate)) = Some decl
    ∧ decl_scope decl = Some S
    ∧ S ∉ ctx_scopes c.

(** The root identifier id of a dependency. *)
Definition rootId (d : ReactiveScopeDependency) : IdentifierId :=
  ident_id (identifier (place d)).

(** An entry of the working set covers a path-qualified candidate when it
    has the same root id and either stands for the whole value or has a
    path that leads the candidate's path. *)
Definition covers (operandPath : list string)
    (maybeDep dep : ReactiveScopeDependency) : bool :=
  bool_decide (rootId dep = rootId maybeDep)
  && match path dep with
     | None => true
     | Some depPath =>
         bool_decide (commonPathIndex operandPath depPath = length depPath)
     end.


(** ** The two halves of a scope item

    [enterScope] is the context in which the body of a scope item runs;
    [leaveScope] is what follows the body: the rest of [enter], the
    assignment of the collected set to the scope and its propagation to
    the enclosing context. *)
Definition enterScope (c : Context) (scope : ScopeRef) : Context :=
  set_scopes (ctx_scopes c ++ [scope]) (set_dependencies [] c).

Definition leaveScope (before : Context) (scope : ScopeRef)
    (after : Context) : Context :=
  let scopeDependencies := ctx_dependencies after in
  let c := set_scopes (removelast (ctx_scopes after)) after in
  let c := set_dependencies (ctx_dependencies before) c in
  let c := set_heap
             (heap_update scope (scope_set_dependencies scopeDependencies)
                (heap c)) c in
  fold_left visitDependency scopeDependencies c.

(** The output step of [visitInstruction]. *)
Definition declareOutput (c : Context) (lv : LValue) : Context :=
  let c := visitReassignment c lv in
  let ident := identifier (lvalue_place lv) in
  declare c ident
    (mkDecl (if isReactive c ident then Dynamic else Const)
       (range_start (ident_mutableRange ident)) (currentScope c)).

Scheme ReactiveStatement_mut := Induction for ReactiveStatement Sort Prop
  with ReactiveTerminal_mut := Induction for ReactiveTerminal Sort Prop
  with SwitchCase_mut := Induction for SwitchCase Sort Prop.

(** The condition of the spec (4.6) under which the output of an
    instruction is recorded as a reassignment of the current scope [C]. *)
Definition Reassigns (c : Context) (lv : LValue) (C : ScopeRef) : Prop :=
  lvalue_kind lv = InstructionKind_Reassign
  ∧ currentScope c = Some C
  ∧ ident_scope (identifier (lvalue_place lv)) ≠ None
  ∧ ∃ declaration,
      ctx_declarations c !! ident_id (identifier (lvalue_place lv))
      = Some declaration
      ∧ decl_scope declaration ≠ ident_scope (identifier (lvalue_place lv)).

(** ** Relations and invariants of the walk *)


(** The stack and the declaration table are the same and no scope has a
    changed [reassignments] set. *)
Definition KeepsReassignments (c c' : Context) : Prop :=
  ctx_scopes c' = ctx_scopes c
  ∧ ctx_declarations c' = ctx_declarations c
  ∧ ∀ r, reassignments (heap c' r) = reassignments (heap c r).

(** An identifier id that may root a dependency: the id of a parameter or
    of an identifier the reactivity analysis marks reactive. *)
Definition MayVary (reactive : gset Identifier) (paramIds : list IdentifierId)
    (i : IdentifierId) : Prop :=
  i ∈ paramIds ∨ ∃ X, X ∈ reactive ∧ ident_id X = i.

Definition RootsMayVary (reactive : gset Identifier)
    (paramIds : list IdentifierId) (c : Context) : Prop :=
  ctx_reactiveIdentifiers c = reactive
  ∧ (∀ i decl, ctx_declarations c !! i = Some decl →
       decl_kind decl = Dynamic → MayVary reactive paramIds i)
  ∧ (∀ d, d ∈ ctx_dependencies c → MayVary reactive paramIds (rootId d))
  ∧ (∀ r d, d ∈ dependencies (heap c r) →
       MayVary reactive paramIds (rootId d)).

(** A block item that is a property load with an output binding. *)
Definition LoadWithOutput (item : ReactiveStatement) : Prop :=
  ∃ i lv object property,
    item = InstructionItem
             (mkInstruction i (Some lv) (PropertyLoad object property)).

(** The ids of the parameters of a function. *)
Definition paramIds (fn : ReactiveFunction) : list IdentifierId :=
  map (λ p, ident_id (identifier p)) (params fn).

(** The two checks of the qualification test that look at the kind and the
    defining instruction of the declaration. *)
Definition PassesDynamicAndBefore (c : Context)
    (candidate : ReactiveScopeDependency) : Prop :=
  ∃ C decl,
    currentScope c = Some C
    ∧ ctx_declarations c !! rootId candidate = Some decl
    ∧ decl_kind decl = Dynamic
    ∧ decl_id decl < range_start (range (heap c C)).

(** ** Further relations and invariants of the walk *)

(** The stack is the same, and outside every scope the working set is the
    same. *)
Definition KeepsTopLevel (c c' : Context) : Prop :=
  ctx_scopes c' = ctx_scopes c
  ∧ (ctx_scopes c = [] → ctx_dependencies c' = ctx_dependencies c).

(** No scope has a changed range and the reactive identifiers are the
    same. *)
Definition KeepsRanges (c c' : Context) : Prop :=
  ctx_reactiveIdentifiers c' = ctx_reactiveIdentifiers c
  ∧ ∀ r, range (heap c' r) = range (heap c r).

(** Nothing is taken out: the declaration and alias tables keep their
    keys, and the keys of [declarations] and the members of
    [reassignments] of every scope are still there, in their places. *)
Definition OnlyGrows (c c' : Context) : Prop :=
  (∀ i, is_Some (ctx_declarations c !! i) →
        is_Some (ctx_declarations c' !! i))
  ∧ (∀ k, is_Some (ctx_properties c !! k) →
          is_Some (ctx_properties c' !! k))
  ∧ ∀ r, Map_keys (declarations (heap c r))
         `prefix_of` Map_keys (declarations (heap c' r))
         ∧ reassignments (heap c r) `prefix_of` reassignments (heap c' r).

(** Every root of a dependency, in the working set or in a scope, and
    every key of the [declarations] of a scope has a declaration
    record. *)
Definition RootsDeclared (c : Context) : Prop :=
  (∀ d, d ∈ ctx_dependencies c → is_Some (ctx_declarations c !! rootId d))
  ∧ (∀ r d, d ∈ dependencies (heap c r) →
            is_Some (ctx_declarations c !! rootId d))
  ∧ (∀ r k, k ∈ Map_keys (declarations (heap c r)) →
            is_Some (ctx_declarations c !! k)).

(** Every recorded alias has a path, and the path is not empty. *)
Definition AliasesHavePaths (c : Context) : Prop :=
  ∀ k d, ctx_properties c !! k = Some d → ∃ p, path d = Some p ∧ p ≠ [].

(** An entry covers a candidate: it has the same root id and stands for
    the whole value, or both have paths and the entry's path leads the
    candidate's. *)
Definition Covers (entry candidate : ReactiveScopeDependency) : Prop :=
  rootId entry = rootId candidate
  ∧ (path entry = None
     ∨ ∃ q p, path entry = Some q ∧ path candidate = Some p
              ∧ q `prefix_of` p).

(** A working set covers a candidate when one of its entries does. *)
Definition Covered (deps : list ReactiveScopeDependency)
    (candidate : ReactiveScopeDependency) : Prop :=
  ∃ entry, entry ∈ deps ∧ Covers entry candidate.

(** ** Chains of property loads *)

(** The instructions [t1 = object.p1; t2 = t1.p2; ...], one for each step
    (instruction id, output, property), each loading from the output of
    the one before. *)
Fixpoint loadChain (object : Place)
    (steps : list (InstructionId * LValue * string)) : ReactiveBlock :=
  match steps with
  | [] => []
  | (i, lv, property) :: rest =>
      InstructionItem (mkInstruction i (Some lv) (PropertyLoad object property))
      :: loadChain (lvalue_place lv) rest
  end.

(** The place the chain ends in: the output of its last step. *)
Fixpoint lastPlace (object : Place)
    (steps : list (InstructionId * LValue * string)) : Place :=
  match steps with
  | [] => object
  | (_, lv, _) :: rest => lastPlace (lvalue_place lv) rest
  end.

(** The root and the path that [declareProperty] and [visitProperty] find
    for an object: those of its alias, or the object itself and no path. *)
Definition aliasRoot (c : Context) (object : Place) : Place :=
  match ctx_properties c !! identifier object with
  | Some objectDependency => place objectDependency
  | None => object
  end.

Definition aliasPath (c : Context) (object : Place) : list string :=
  match ctx_properties c !! identifier object with
  | Some objectDependency => default [] (path objectDependency)
  | None => []
  end.

(** ** The scopes of a block *)

(** The scopes of the scope items of a block, at any depth. *)
Fixpoint scopesOfStatement (item : ReactiveStatement) : list ScopeRef :=
  match item with
  | ScopeItem scope instructions =>
      scope :: flat_map scopesOfStatement instructions
  | InstructionItem _ => []
  | TerminalItem terminal => scopesOfTerminal terminal
  end
with scopesOfTerminal (terminal : ReactiveTerminal) : list ScopeRef :=
  match terminal with
  | BreakTerminal | ContinueTerminal | ReturnTerminal _ | ThrowTerminal _ => []
  | ForTerminal _ _ _ loop => flat_map scopesOfStatement loop
  | WhileTerminal _ loop => flat_map scopesOfStatement loop
  | IfTerminal _ consequent alternate =>
      flat_map scopesOfStatement consequent
      ++ match alternate with
         | Some alt => flat_map scopesOfStatement alt
         | None => []
         end
  | SwitchTerminal _ cases => flat_map scopesOfCase cases
  end
with scopesOfCase (case_ : SwitchCase) : list ScopeRef :=
  match case_ with
  | mkCase _ (Some block) => flat_map scopesOfStatement block
  | mkCase _ None => []
  end.

Definition scopesOf (block : ReactiveBlock) : list ScopeRef :=
  flat_map scopesOfStatement block.

(** No scope has a changed [dependencies] set. *)
Definition KeepsDependencies (c c' : Context) : Prop :=
  ∀ r, dependencies (heap c' r) = dependencies (heap c r).

(** Outside every scope, with no declaration made inside a scope. *)
Definition AtTopLevel (c : Context) : Prop :=
  ctx_scopes c = []
  ∧ ∀ i decl, ctx_declarations c !! i = Some decl → decl_scope decl = None.

(** From the top level to the top level, with every scope object as it
    was. *)
Definition KeepsHeap (c c' : Context) : Prop :=
  AtTopLevel c → AtTopLevel c' ∧ heap c' = heap c.

(** The stack, the declaration table and the reactive identifiers are the
    same. *)
Definition KeepsTables (c c' : Context) : Prop :=
  ctx_scopes c' = ctx_scopes c
  ∧ ctx_declarations c' = ctx_declarations c
  ∧ ctx_reactiveIdentifiers c' = ctx_reactiveIdentifiers c.

(** ** Nested scopes *)

(** [scope s1 { scope s2 { ... { body } } }]: the body inside the scopes,
    the first one outermost. *)
Fixpoint nestScopes (scopes : list ScopeRef) (body : ReactiveBlock)
    : ReactiveBlock :=
  match scopes with
  | [] => body
  | scope :: rest => [ScopeItem scope (nestScopes rest body)]
  end.

(** The working set has an entry for the whole value of an identifier. *)
Definition HasWhole (deps : list ReactiveScopeDependency)
    (i : IdentifierId) : Prop :=
  ∃ entry, entry ∈ deps ∧ rootId entry = i ∧ path entry = None.

(** ** Closed inputs *)

Open Scope string_scope.

(** The pass with the operand visitors above. *)
Definition run (oracle : ReactiveFunction -> gset Identifier)
    (fn : ReactiveFunction) (h : ScopeRef -> ReactiveScope) : Context :=
  propagateScopeDependencies instructionValueOperands reactiveValueOperands
    oracle fn h.

Definition noneReactive : ReactiveFunction -> gset Identifier := λ _, ∅.

(** Scope objects as the upstream passes leave them: a range and empty
    containers. *)
Definition ex_heap (start : InstructionId) : ScopeRef -> ReactiveScope :=
  λ _, mkScope (mkRange start 9) [] [] [].

Definition ex_p : Identifier := mkIdentifier 10 1 (Some "p") (mkRange 0 0) None.
Definition ex_f : Identifier := mkIdentifier 11 2 (Some "f") (mkRange 0 0) None.
Definition ex_k : Identifier := mkIdentifier 12 3 (Some "k") (mkRange 1 2) None.
Definition ex_t1 : Identifier := mkIdentifier 13 4 None (mkRange 2 3) (Some 1).
Definition ex_t2 : Identifier := mkIdentifier 14 5 None (mkRange 3 4) (Some 1).

Definition ex_pPlace : Place := mkPlace ex_p 0.
Definition ex_fPlace : Place := mkPlace ex_f 0.
Definition ex_kPlace : Place := mkPlace ex_k 0.

(** [function (p) { scope 1 { return p } }] *)
Definition ex_useParam : ReactiveFunction :=
  mkFunction None [ex_pPlace]
    [ScopeItem 1 [TerminalItem (ReturnTerminal (Some ex_pPlace))]].

(** [function (p) { p = ...; scope 1 { return p } }] *)
Definition ex_reassignParam : ReactiveFunction :=
  mkFunction None [ex_pPlace]
    [InstructionItem
       (mkInstruction 1 (Some (mkLValue ex_pPlace InstructionKind_Reassign))
          (OtherValue []));
     ScopeItem 1 [TerminalItem (ReturnTerminal (Some ex_pPlace))]].

(** [function f() { f = ...; scope 1 { return f } }] *)
Definition ex_reassignSelf : ReactiveFunction :=
  mkFunction (Some ex_f) []
    [InstructionItem
       (mkInstruction 1 (Some (mkLValue ex_fPlace InstructionKind_Reassign))
          (OtherValue []));
     ScopeItem 1 [TerminalItem (ReturnTerminal (Some ex_fPlace))]].

(** [function (p) { const k = ...; scope 1 { return k; return p } }] *)
Definition ex_useConst : ReactiveFunction :=
  mkFunction None [ex_pPlace]
    [InstructionItem
       (mkInstruction 1 (Some (mkLValue ex_kPlace InstructionKind_Const))
          (OtherValue []));
     ScopeItem 1 [TerminalItem (ReturnTerminal (Some ex_kPlace));
                  TerminalItem (ReturnTerminal (Some ex_pPlace))]].

(** A context inside scope 1, which starts at instruction 1, with [p]
    declared as a parameter is. *)
Definition ex_open : Context :=
  mkContext {[1 := mkDecl Dynamic 0 None]} [] ∅ ∅ [1] (ex_heap 1) 0.

(** The context in which the walk of a function of one parameter [p] and
    an empty body starts. *)
Definition ex_start : Context :=
  functionContext noneReactive (mkFunction None [ex_pPlace] []) (ex_heap 1).

(** A context at the top level, after scope 1 has closed, in which [k] was
    declared inside scope 1. *)
Definition ex_closed : Context :=
  mkContext {[3 := mkDecl Const 1 (Some 1)]} [] ∅ ∅ [] (ex_heap 1) 0.

(** A context inside scope 2 in which [k] was declared by scope 1 and
    carries scope 3 as its own. *)
Definition ex_k' : Identifier :=
  mkIdentifier 12 3 (Some "k") (mkRange 1 2) (Some 3).
Definition ex_inner : Context :=
  mkContext {[3 := mkDecl Const 1 (Some 1)]} [] ∅ ∅ [1; 2] (ex_heap 1) 0.

(** The instructions [t1 = o.x; t2 = t1.y; use(t2)]. *)
Definition ex_chainOn (o : Place) : ReactiveBlock :=
  [InstructionItem
     (mkInstruction 3
        (Some (mkLValue (mkPlace ex_t1 1) InstructionKind_Const))
        (PropertyLoad o "x"));
   InstructionItem
     (mkInstruction 4
        (Some (mkLValue (mkPlace ex_t2 3) InstructionKind_Const))
        (PropertyLoad (mkPlace ex_t1 2) "y"));
   InstructionItem (mkInstruction 5 None (OtherValue [mkPlace ex_t2 4]))].

(** The block [scope 1 { t1 = p.x; t2 = t1.y; use(t2) }]. *)
Definition ex_chain : ReactiveBlock := [ScopeItem 1 (ex_chainOn ex_pPlace)].

(** [function () { scope 1 { v = ...; scope 2 { t1 = v.x; t2 = t1.y;
    use(t2) } } }], with scope 1 starting at instruction 1 and scope 2 at
    instruction 3. *)
Definition ex_v : Identifier :=
  mkIdentifier 15 6 (Some "v") (mkRange 1 2) (Some 1).
Definition ex_vPlace : Place := mkPlace ex_v 0.

Definition ex_nested : ReactiveFunction :=
  mkFunction None []
    [ScopeItem 1
       [InstructionItem
          (mkInstruction 1 (Some (mkLValue ex_vPlace InstructionKind_Const))
             (OtherValue []));
        ScopeItem 2 (ex_chainOn ex_vPlace)]].

Definition ex_nested_heap : ScopeRef -> ReactiveScope :=
  λ r, mkScope (mkRange (if decide (r = 2) then 3 else 1) 9) [] [] [].

(** [function (p) { o = p.a; scope 1 { t1 = o.x; t2 = t1.y; use(t2) } }] *)
Definition ex_o : Identifier :=
  mkIdentifier 16 7 (Some "o") (mkRange 1 2) None.
Definition ex_oPlace : Place := mkPlace ex_o 0.

Definition ex_loaded : ReactiveFunction :=
  mkFunction None [ex_pPlace]
    [InstructionItem
       (mkInstruction 1 (Some (mkLValue ex_oPlace InstructionKind_Const))
          (PropertyLoad ex_pPlace "a"));
     ScopeItem 1 (ex_chainOn ex_oPlace)].

(** A context inside scope 1 in which the anonymous [t1] and the named
    [p] both have a recorded alias. *)
Definition ex_aliased : Context :=
  mkContext {[1 := mkDecl Dynamic 0 None]} [] ∅
    {[ex_t1 := mkDep 6 ex_pPlace (Some ["x"]);
      ex_p := mkDep 7 ex_kPlace (Some ["y"])]}
    [1] (ex_heap 1) 8.

(** [function () { scope 1 { k = ...; return k } }] and
    [function () { scope 1 { k = ... } return k; return k }]. *)
Definition ex_usedInside : ReactiveFunction :=
  mkFunction None []
    [ScopeItem 1
       [InstructionItem
          (mkInstruction 1 (Some (mkLValue ex_kPlace InstructionKind_Const))
             (OtherValue []));
        TerminalItem (ReturnTerminal (Some ex_kPlace))]].

Definition ex_usedAfter : ReactiveFunction :=
  mkFunction None []
    [ScopeItem 1
       [InstructionItem
          (mkInstruction 1 (Some (mkLValue ex_kPlace InstructionKind_Const))
             (OtherValue []))];
     TerminalItem (ReturnTerminal (Some ex_kPlace));
     TerminalItem (ReturnTerminal (Some ex_kPlace))].

Close Scope string_scope.

(** ** Further closed inputs *)

Open Scope string_scope.

Definition ex_t3 : Identifier := mkIdentifier 17 8 None (mkRange 5 6) (Some 1).

(** The steps of [t1 = p.x; t2 = t1.y; t3 = t2.z]. *)
Definition ex_steps : list (InstructionId * LValue * string) :=
  [(3, mkLValue (mkPlace ex_t1 1) InstructionKind_Const, "x");
   (4, mkLValue (mkPlace ex_t2 2) InstructionKind_Const, "y");
   (5, mkLValue (mkPlace ex_t3 3) InstructionKind_Const, "z")].

(** [function (p) { return p }], without any scope. *)
Definition ex_noScope : ReactiveFunction :=
  mkFunction None [ex_pPlace] [TerminalItem (ReturnTerminal (Some ex_pPlace))].

(** The scope item [scope 2 { return p }], to be walked inside scope 1. *)
Definition ex_innerItem : ReactiveStatement :=
  ScopeItem 2 [TerminalItem (ReturnTerminal (Some ex_pPlace))].

(** [function (p) { scope 1 { t1 = p.x; t2 = t1.y; use(t2) } }] *)
Definition ex_chainFn : ReactiveFunction :=
  mkFunction None [ex_pPlace] ex_chain.

(** A context inside scope 1, which starts at instruction 5, in which [k]
    is reactive. *)
Definition ex_reactive : Context :=
  mkContext {[1 := mkDecl Dynamic 0 None]} [] {[ex_k]} ∅ [1] (ex_heap 5) 0.

Close Scope string_scope.
(** * Properties *)

(** ** Field access through the setters and the escape step *)

Lemma heap_update_eq r f h : heap_update r f h r = f (h r).
Proof. unfold heap_update. by rewrite decide_True. Qed.

Lemma heap_update_ne r r' f h : r' ≠ r → heap_update r f h r' = h r'.
Proof. intros Hne. unfold heap_update. by rewrite decide_False. Qed.

Lemma heap_update_range r f h r' :
  (∀ s, range (f s) = range s) →
  range (heap_update r f h r') = range (h r').
Proof. intros Hf. unfold heap_update. case_decide; [apply Hf | done]. Qed.

Lemma heap_update_dependencies r f h r' :
  (∀ s, dependencies (f s) = dependencies s) →
  dependencies (heap_update r f h r') = dependencies (h r').
Proof. intros Hf. unfold heap_update. case_decide; [apply Hf | done]. Qed.

Lemma heap_update_declarations r f h r' :
  (∀ s, declarations (f s) = declarations s) →
  declarations (heap_update r f h r') = declarations (h r').
Proof. intros Hf. unfold heap_update. case_decide; [apply Hf | done]. Qed.

Lemma heap_update_reassignments r f h r' :
  (∀ s, reassignments (f s) = reassignments s) →
  reassignments (heap_update r f h r') = reassignments (h r').
Proof. intros Hf. unfold heap_update. case_decide; [apply Hf | done]. Qed.

Lemma isScopeActive_true c s : isScopeActive c s = true ↔ s ∈ ctx_scopes c.
Proof. unfold isScopeActive. apply bool_decide_eq_true. Qed.

Lemma isScopeActive_false c s : isScopeActive c s = false ↔ s ∉ ctx_scopes c.
Proof. unfold isScopeActive. apply bool_decide_eq_false. Qed.

(** The escape step touches nothing but the [declarations] of scope
    objects. *)
Lemma promoteEscape_context c d :
  ctx_declarations (promoteEscape c d) = ctx_declarations c
  ∧ ctx_dependencies (promoteEscape c d) = ctx_dependencies c
  ∧ ctx_reactiveIdentifiers (promoteEscape c d) = ctx_reactiveIdentifiers c
  ∧ ctx_properties (promoteEscape c d) = ctx_properties c
  ∧ ctx_scopes (promoteEscape c d) = ctx_scopes c
  ∧ next_obj (promoteEscape c d) = next_obj c.
Proof.
  unfold promoteEscape.
  destruct (ctx_declarations c !! _) as [decl|]; [|done].
  destruct (decl_scope decl) as [s|]; [|done].
  by destruct (isScopeActive c s).
Qed.

Lemma promoteEscape_heap c d r :
  range (heap (promoteEscape c d) r) = range (heap c r)
  ∧ dependencies (heap (promoteEscape c d) r) = dependencies (heap c r)
  ∧ reassignments (heap (promoteEscape c d) r) = reassignments (heap c r).
Proof.
  unfold promoteEscape.
  destruct (ctx_declarations c !! _) as [decl|]; [|done].
  destruct (decl_scope decl) as [s|]; [|done].
  destruct (isScopeActive c s); [done|]. simpl.
  unfold heap_update. by case_decide.
Qed.

Lemma isDependency_promoteEscape c d d' :
  isDependency (promoteEscape c d) d' = isDependency c d'.
Proof.
  destruct (promoteEscape_context c d) as (Hd & _ & _ & _ & Hs & _).
  unfold isDependency, currentScope, isScopeActive. rewrite Hd, Hs.
  destruct (last (ctx_scopes c)) as [cs|]; [|done].
  destruct (ctx_declarations c !! _) as [decl|]; [|done].
  by destruct (promoteEscape_heap c d cs) as (-> & _ & _).
Qed.

(** The condition of the second [if] is the qualification test. *)
Lemma isDependency_Qualifies c d : isDependency c d = true ↔ Qualifies c d.
Proof.
  unfold isDependency, Qualifies. split.
  - destruct (currentScope c) as [cs|]; [|done].
    destruct (ctx_declarations c !! _) as [decl|]; [|done].
    rewrite !andb_true_iff, !bool_decide_eq_true. intros [[Hk Hi] Hs].
    exists cs, decl. repeat split; try done.
    + by destruct (decl_kind decl).
    + destruct (decl_scope decl) as [s|]; [right|by left].
      exists s. split; [done|].
      by apply isScopeActive_false, negb_true_iff.
  - intros (cs & decl & -> & -> & Hk & Hi & Hs).
    rewrite !andb_true_iff, !bool_decide_eq_true. repeat split.
    + by rewrite Hk.
    + done.
    + destruct Hs as [-> | (s & -> & Hs)]; [done|].
      by apply negb_true_iff, isScopeActive_false.
Qed.

Lemma visitDependency_dependencies c dependency :
  ctx_dependencies (visitDependency c dependency) =
  if isDependency c (maybeDependency c dependency)
  then scanDependencies (ctx_dependencies c) (ctx_dependencies c)
         (maybeDependency c dependency)
  else ctx_dependencies c.
Proof.
  unfold visitDependency. rewrite isDependency_promoteEscape.
  destruct (promoteEscape_context c (maybeDependency c dependency))
    as (_ & Hd & _).
  destruct (isDependency c _); simpl; by rewrite Hd.
Qed.

(** C1. For every call of [visitDependency], with [candidate] the resolved
    candidate: the condition guarding the merge step holds exactly when the
    qualification test of the spec does (a current scope, a declaration
    record, kind Dynamic, defining id strictly below the start of the
    current scope's range, no owning scope or an owning scope that is not
    on the stack); when it holds the working set becomes the result of the
    merge step on the candidate, and when it fails the working set is
    unchanged. *)
Theorem C1_qualification_test (c : Context)
    (dependency : ReactiveScopeDependency) :
  let candidate := maybeDependency c dependency in
  (isDependency (promoteEscape c candidate) candidate = true
   ↔ Qualifies c candidate)
  ∧ (Qualifies c candidate →
     ctx_dependencies (visitDependency c dependency) =
     scanDependencies (ctx_dependencies c) (ctx_dependencies c) candidate)
  ∧ (¬ Qualifies c candidate →
     ctx_dependencies (visitDependency c dependency) = ctx_dependencies c).
Proof.
  intros candidate. subst candidate.
  rewrite isDependency_promoteEscape, visitDependency_dependencies.
  split; [apply isDependency_Qualifies|]. split; intros HQ.
  - apply isDependency_Qualifies in HQ. by rewrite HQ.
  - destruct (isDependency c _) eqn:E; [|done].
    by apply isDependency_Qualifies in E.
Qed.

(** ** What [visitDependency] leaves alone *)

Lemma visitDependency_context c d :
  ctx_declarations (visitDependency c d) = ctx_declarations c
  ∧ ctx_reactiveIdentifiers (visitDependency c d) = ctx_reactiveIdentifiers c
  ∧ ctx_properties (visitDependency c d) = ctx_properties c
  ∧ ctx_scopes (visitDependency c d) = ctx_scopes c
  ∧ next_obj (visitDependency c d) = next_obj c.
Proof.
  unfold visitDependency.
  destruct (promoteEscape_context c (maybeDependency c d))
    as (? & ? & ? & ? & ? & ?).
  by destruct (isDependency _ _).
Qed.

Lemma visitDependency_heap c d :
  heap (visitDependency c d) = heap (promoteEscape c (maybeDependency c d)).
Proof. unfold visitDependency. by destruct (isDependency _ _). Qed.

Lemma visitDependency_heap_fields c d r :
  range (heap (visitDependency c d) r) = range (heap c r)
  ∧ dependencies (heap (visitDependency c d) r) = dependencies (heap c r)
  ∧ reassignments (heap (visitDependency c d) r) = reassignments (heap c r).
Proof. rewrite visitDependency_heap. apply promoteEscape_heap. Qed.

Lemma isDependency_ext c c' d :
  ctx_scopes c' = ctx_scopes c →
  ctx_declarations c' = ctx_declarations c →
  (∀ r, range (heap c' r) = range (heap c r)) →
  isDependency c' d = isDependency c d.
Proof.
  intros Hs Hd Hr. unfold isDependency, currentScope, isScopeActive.
  rewrite Hs, Hd. destruct (last (ctx_scopes c)) as [cs|]; [|done].
  by rewrite Hr.
Qed.

Lemma isDependency_visitDependency c d d' :
  isDependency (visitDependency c d) d' = isDependency c d'.
Proof.
  destruct (visitDependency_context c d) as (? & _ & _ & ? & _).
  apply isDependency_ext; [done..|].
  intros r. by destruct (visitDependency_heap_fields c d r) as (? & _).
Qed.

Lemma maybeDependency_visitDependency c d d' :
  maybeDependency (visitDependency c d) d' = maybeDependency c d'.
Proof.
  destruct (visitDependency_context c d) as (_ & _ & Hp & _).
  unfold maybeDependency. by rewrite Hp.
Qed.

Lemma maybeDependency_path c d p :
  path d = Some p → maybeDependency c d = d.
Proof. intros Hp. unfold maybeDependency. by rewrite Hp. Qed.

(** ** The merge step *)

Lemma commonPathIndex_refl p : commonPathIndex p p = length p.
Proof. induction p as [|x p IH]; simpl; [done|]. by rewrite decide_True, IH. Qed.

Lemma commonPathIndex_app p q : commonPathIndex p (p ++ q) = length p.
Proof.
  induction p as [|x p IH]; simpl; [by destruct q|].
  by rewrite decide_True, IH.
Qed.

Lemma scanDependencies_path all rest d p :
  path d = Some p →
  scanDependencies all rest d =
  if existsb (covers p d) rest then all else Set_add d all.
Proof.
  intros Hp. induction rest as [|dep rest IH]; simpl; [done|].
  unfold covers at 1, rootId. rewrite Hp. case_decide as Hid.
  - rewrite bool_decide_eq_false_2 by done. simpl. apply IH.
  - rewrite bool_decide_eq_true_2 by done. simpl.
    destruct (path dep) as [depPath|]; [|done].
    case_decide as Hc.
    + by rewrite bool_decide_eq_true_2.
    + rewrite bool_decide_eq_false_2 by done. apply IH.
Qed.

Lemma covers_self d p : path d = Some p → covers p d d = true.
Proof.
  intros Hp. unfold covers. rewrite Hp, commonPathIndex_refl.
  by rewrite !bool_decide_eq_true_2.
Qed.

Lemma existsb_covers_elem p d (l : list ReactiveScopeDependency) :
  path d = Some p → d ∈ l → existsb (covers p d) l = true.
Proof.
  intros Hp Hin. apply existsb_exists. exists d.
  split; [by apply list_elem_of_In | by apply covers_self].
Qed.

(** A path-qualified candidate is either dropped or put last; nothing is
    taken out of the working set. *)
Lemma scanDependencies_path_cases all d p :
  path d = Some p →
  (existsb (covers p d) all = true ∧ scanDependencies all all d = all)
  ∨ (existsb (covers p d) all = false ∧ (d ∉ all)
     ∧ scanDependencies all all d = all ++ [d]).
Proof.
  intros Hp. rewrite (scanDependencies_path _ _ _ _ Hp).
  destruct (existsb (covers p d) all) eqn:E; [by left|right].
  assert (d ∉ all) as Hni.
  { intros Hin. by rewrite (existsb_covers_elem _ _ _ Hp Hin) in E. }
  repeat split; [done|]. unfold Set_add. by rewrite decide_False.
Qed.

Lemma scanDependencies_idempotent all d p :
  path d = Some p →
  scanDependencies (scanDependencies all all d) (scanDependencies all all d) d
  = scanDependencies all all d.
Proof.
  intros Hp.
  destruct (scanDependencies_path_cases all d p Hp)
    as [(E & ->) | (E & Hni & ->)].
  - by rewrite (scanDependencies_path _ _ _ _ Hp), E.
  - rewrite (scanDependencies_path _ _ _ _ Hp).
    rewrite existsb_covers_elem; [done..|]. set_solver.
Qed.

Lemma scanDependencies_nil d : scanDependencies [] [] d = [d].
Proof. done. Qed.

Lemma visitDependency_resolved c d :
  maybeDependency c d = d →
  Qualifies c d →
  ctx_dependencies (visitDependency c d) =
  scanDependencies (ctx_dependencies c) (ctx_dependencies c) d.
Proof.
  intros Hm HQ. rewrite visitDependency_dependencies, Hm.
  apply isDependency_Qualifies in HQ. by rewrite HQ.
Qed.

Lemma Qualifies_root c d d' :
  rootId d = rootId d' → Qualifies c d → Qualifies c d'.
Proof. unfold Qualifies, rootId. by intros ->. Qed.

Lemma Qualifies_visitDependency c d d' :
  Qualifies (visitDependency c d) d' ↔ Qualifies c d'.
Proof.
  by rewrite <- !isDependency_Qualifies, isDependency_visitDependency.
Qed.

(** C7. A path-less operand is replaced by its recorded property alias
    exactly when its identifier has no name and an alias is recorded; in
    every other case the operand is the candidate: a named identifier with
    an alias is visited as itself, so that when it qualifies in a freshly
    opened scope the entry recorded is the named binding, whole value; and
    an operand that carries a path is never resolved through the alias
    table. *)
Theorem C7_alias_resolution (c : Context)
    (dependency : ReactiveScopeDependency) :
  (∀ propDep,
     path dependency = None →
     ident_name (identifier (place dependency)) = None →
     ctx_properties c !! identifier (place dependency) = Some propDep →
     maybeDependency c dependency = propDep)
  ∧ (∀ n,
       ident_name (identifier (place dependency)) = Some n →
       maybeDependency c dependency = dependency
       ∧ (path dependency = None → Qualifies c dependency →
          ctx_dependencies c = [] →
          ctx_dependencies (visitDependency c dependency) = [dependency]))
  ∧ (ctx_properties c !! identifier (place dependency) = None →
     maybeDependency c dependency = dependency)
  ∧ (∀ p, path dependency = Some p →
       maybeDependency c dependency = dependency).
Proof.
  repeat split.
  - intros propDep Hp Hn Ha. unfold maybeDependency. by rewrite Hp, Hn, Ha.
  - unfold maybeDependency. rewrite H. by destruct (path dependency).
  - intros Hp HQ He.
    assert (maybeDependency c dependency = dependency) as Hm.
    { unfold maybeDependency. by rewrite Hp, H. }
    by rewrite (visitDependency_resolved _ _ Hm HQ), He.
  - intros Ha. unfold maybeDependency. rewrite Ha.
    destruct (path dependency); [done|]. by destruct (ident_name _).
  - intros p Hp. by apply maybeDependency_path with p.
Qed.

Lemma scanDependencies_singleton_same_path o1 o2 a p :
  scanDependencies [mkDep o1 a (Some p)] [mkDep o1 a (Some p)]
    (mkDep o2 a (Some p)) = [mkDep o1 a (Some p)].
Proof.
  rewrite (scanDependencies_path _ _ _ p) by done. simpl.
  unfold covers, rootId. simpl.
  by rewrite commonPathIndex_refl, !bool_decide_eq_true_2.
Qed.

Lemma scanDependencies_singleton_broader o1 o2 a p :
  scanDependencies [mkDep o1 a (Some p)] [mkDep o1 a (Some p)]
    (mkDep o2 a None) = [mkDep o2 a None].
Proof.
  simpl. rewrite decide_False by (intros Hne; by apply Hne).
  by rewrite decide_True.
Qed.

Lemma scanDependencies_singleton_narrower o1 o2 a p :
  scanDependencies [mkDep o1 a None] [mkDep o1 a None]
    (mkDep o2 a (Some p)) = [mkDep o1 a None].
Proof. simpl. by rewrite decide_False by (intros Hne; by apply Hne). Qed.

(** C2. The merge step is idempotent and absorbs narrower paths under
    broader ones. Offering a path-qualified dependency a second time never
    changes the working set. In a freshly opened scope in which the root
    [a] qualifies (and is not replaced by an alias): offering [a.p] twice
    leaves the single entry [a.p]; offering the whole value [a] after [a.p]
    leaves the single whole-value entry [a]; offering [a.p] after the whole
    value [a] leaves the single whole-value entry [a]. *)
Theorem C2_subsumption_idempotent (c : Context) (a : Place)
    (p : list string) (o1 o2 : nat) :
  Qualifies c (mkDep o1 a None) →
  (ident_name (identifier a) = None →
   ctx_properties c !! identifier a = None) →
  ctx_dependencies c = [] →
  (∀ c' d q, path d = Some q →
     ctx_dependencies (visitDependency (visitDependency c' d) d)
     = ctx_dependencies (visitDependency c' d))
  ∧ ctx_dependencies
      (visitDependency (visitDependency c (mkDep o1 a (Some p)))
         (mkDep o2 a (Some p)))
    = [mkDep o1 a (Some p)]
  ∧ ctx_dependencies
      (visitDependency (visitDependency c (mkDep o1 a (Some p)))
         (mkDep o2 a None))
    = [mkDep o2 a None]
  ∧ ctx_dependencies
      (visitDependency (visitDependency c (mkDep o1 a None))
         (mkDep o2 a (Some p)))
    = [mkDep o1 a None].
Proof.
  intros HQ Halias Hempty.
  assert (∀ o q, Qualifies c (mkDep o a q)) as HQa.
  { intros o q. by apply (Qualifies_root c (mkDep o1 a None)). }
  assert (∀ c0 o, ctx_properties c0 = ctx_properties c →
            maybeDependency c0 (mkDep o a None) = mkDep o a None) as Hwhole.
  { intros c0 o Hp. unfold maybeDependency. simpl. rewrite Hp.
    destruct (ident_name (identifier a)) eqn:E; [done|].
    by rewrite Halias. }
  assert (∀ o, ctx_dependencies (visitDependency c (mkDep o a (Some p)))
               = [mkDep o a (Some p)]) as Hfirst.
  { intros o. rewrite visitDependency_resolved;
      [by rewrite Hempty | by apply maybeDependency_path with p | done]. }
  split; [|split; [|split]].
  - intros c' d q Hq. rewrite !visitDependency_dependencies.
    rewrite maybeDependency_visitDependency, isDependency_visitDependency.
    rewrite (maybeDependency_path _ _ _ Hq).
    destruct (isDependency c' d); [|done].
    by apply scanDependencies_idempotent with q.
  - rewrite visitDependency_resolved.
    + rewrite Hfirst. apply scanDependencies_singleton_same_path.
    + by apply maybeDependency_path with p.
    + by apply Qualifies_visitDependency.
  - rewrite visitDependency_resolved.
    + rewrite Hfirst. apply scanDependencies_singleton_broader.
    + apply Hwhole. by destruct (visitDependency_context c
        (mkDep o1 a (Some p))) as (_ & _ & ? & _).
    + by apply Qualifies_visitDependency.
  - rewrite visitDependency_resolved.
    + rewrite visitDependency_resolved; [|by apply Hwhole|done].
      rewrite Hempty. apply scanDependencies_singleton_narrower.
    + by apply maybeDependency_path with p.
    + by apply Qualifies_visitDependency.
Qed.

(** C3. The subsumption check is one-sided. When the working set of a
    scope in which the root qualifies is the single entry [a.p.q] with [q]
    not empty, offering the shorter [a.p] keeps the longer entry and adds
    the candidate after it: both are in the set. More generally a
    path-qualified candidate never takes an entry out of the working
    set. *)
Theorem C3_subsumption_one_sided (c : Context) (a : Place)
    (p q : list string) (o1 o2 : nat) :
  q ≠ [] →
  Qualifies c (mkDep o2 a (Some p)) →
  ctx_dependencies c = [mkDep o1 a (Some (p ++ q))] →
  ctx_dependencies (visitDependency c (mkDep o2 a (Some p)))
  = [mkDep o1 a (Some (p ++ q)); mkDep o2 a (Some p)]
  ∧ (∀ c' d r x, path d = Some r → x ∈ ctx_dependencies c' →
       x ∈ ctx_dependencies (visitDependency c' d)).
Proof.
  intros Hq HQ Hdeps. split.
  - rewrite visitDependency_resolved;
      [|by apply maybeDependency_path with p|done].
    rewrite Hdeps, (scanDependencies_path _ _ _ p) by done. simpl.
    unfold covers, rootId. simpl. rewrite commonPathIndex_app.
    rewrite (bool_decide_eq_false_2 (length p = length (p ++ q))).
    + rewrite andb_false_r. simpl. unfold Set_add.
      rewrite decide_False; [done|].
      intros Hin. apply list_elem_of_singleton in Hin.
      injection Hin as _ Hp. apply Hq.
      apply (f_equal length) in Hp. rewrite length_app in Hp.
      destruct q; [done|]. simpl in Hp. lia.
    + rewrite length_app. destruct q; [done|]. simpl. lia.
  - intros c' d r x Hr Hx. rewrite visitDependency_dependencies.
    rewrite (maybeDependency_path _ _ _ Hr).
    destruct (isDependency c' d); [|done].
    destruct (scanDependencies_path_cases (ctx_dependencies c') d r Hr)
      as [(_ & ->) | (_ & _ & ->)]; [done|]. set_solver.
Qed.

(** ** Induction over the walk

    A relation between the context before and after that contains every
    step of the walk and is closed under sequencing and under the
    bracketing of a scope item holds of the whole walk. *)

Section WalkRelation.
Variable eachInstructionValueOperand : ReactiveValue -> list Place.
Variable eachReactiveValueOperand : ReactiveValue -> list Place.

Abbreviation visitInstructionValue :=
  (visitInstructionValue eachReactiveValueOperand).
Abbreviation visitInstruction := (visitInstruction eachReactiveValueOperand).
Abbreviation visitReactiveValue :=
  (visitReactiveValue eachInstructionValueOperand eachReactiveValueOperand).
Abbreviation visitStatement :=
  (visitStatement eachInstructionValueOperand eachReactiveValueOperand).
Abbreviation visitTerminal :=
  (visitTerminal eachInstructionValueOperand eachReactiveValueOperand).
Abbreviation visitCase :=
  (visitCase eachInstructionValueOperand eachReactiveValueOperand).
Abbreviation visit :=
  (visit eachInstructionValueOperand eachReactiveValueOperand).

Lemma visitStatement_scope c scope instructions :
  visitStatement c (ScopeItem scope instructions)
  = leaveScope c scope (visit (enterScope c scope) instructions).
Proof. reflexivity. Qed.

Lemma visitInstruction_output c i lv v :
  visitInstruction c (mkInstruction i (Some lv) v)
  = declareOutput (visitInstructionValue c v (Some lv)) lv.
Proof. reflexivity. Qed.

Lemma visit_app c b1 b2 : visit c (b1 ++ b2) = visit (visit c b1) b2.
Proof. apply fold_left_app. Qed.

Variable R : Context -> Context -> Prop.
Hypothesis R_refl : ∀ c, R c c.
Hypothesis R_trans : ∀ c1 c2 c3, R c1 c2 → R c2 c3 → R c1 c3.
Hypothesis R_visitOperand : ∀ c p, R c (visitOperand c p).
Hypothesis R_visitProperty : ∀ c o p, R c (visitProperty c o p).
Hypothesis R_declareProperty : ∀ c l o p, R c (declareProperty c l o p).
Hypothesis R_declareOutput : ∀ c lv, R c (declareOutput c lv).
Hypothesis R_scope : ∀ c scope c',
  R (enterScope c scope) c' → R c (leaveScope c scope c').

Lemma fold_left_rel {A} (f : Context -> A -> Context) (l : list A) :
  (∀ c x, x ∈ l → R c (f c x)) → ∀ c, R c (fold_left f l c).
Proof using R_refl R_trans.
  induction l as [|x l IH]; intros Hf c; simpl; [apply R_refl|].
  apply R_trans with (f c x); [apply Hf; left|].
  apply IH. intros c' y Hy. apply Hf. by right.
Qed.

Lemma visitInstructionValue_rel c v lv : R c (visitInstructionValue c v lv).
Proof using R_refl R_trans R_visitOperand R_visitProperty R_declareProperty.
  destruct v; simpl;
    try (apply fold_left_rel; intros; apply R_visitOperand).
  destruct lv; [apply R_declareProperty | apply R_visitProperty].
Qed.

Lemma visitInstruction_rel c i : R c (visitInstruction c i).
Proof using R_refl R_trans R_visitOperand R_visitProperty R_declareProperty
  R_declareOutput.
  destruct i as [n [lv|] v].
  - rewrite visitInstruction_output.
    eapply R_trans; [apply visitInstructionValue_rel | apply R_declareOutput].
  - apply visitInstructionValue_rel.
Qed.

Lemma visitReactiveValue_rel v : ∀ c, R c (visitReactiveValue c v).
Proof using R_refl R_trans R_visitOperand R_visitProperty R_declareProperty
  R_declareOutput.
  induction v as [l IHl r IHr | t IHt cs IHc a IHa | instrs v IHv | o p | ops];
    intros c; simpl.
  - eapply R_trans; [apply IHl | apply IHr].
  - eapply R_trans; [apply IHt|]. eapply R_trans; [apply IHc | apply IHa].
  - eapply R_trans; [|apply visitInstructionValue_rel].
    apply fold_left_rel. intros. apply visitInstruction_rel.
  - apply fold_left_rel. intros. apply R_visitOperand.
  - apply fold_left_rel. intros. apply R_visitOperand.
Qed.

Lemma list_all_rel {A} (f : Context -> A -> Context) (l : list A) :
  list_all A (λ x, ∀ c, R c (f c x)) l → ∀ c, R c (fold_left f l c).
Proof using R_refl R_trans.
  induction 1 as [|x Hx l Hl IH]; intros c; simpl; [apply R_refl|].
  eapply R_trans; [apply Hx | apply IH].
Qed.

Lemma visitStatement_rel item : ∀ c, R c (visitStatement c item).
Proof using All.
  induction item using ReactiveStatement_mut
    with (P0 := λ t, ∀ c, R c (visitTerminal c t))
         (P1 := λ k, ∀ c, R c (visitCase c k)); intros c.
  - rewrite visitStatement_scope. apply R_scope.
    by apply list_all_rel.
  - apply visitInstruction_rel.
  - apply IHitem.
  - apply R_refl.
  - apply R_refl.
  - destruct value; [apply R_visitOperand | apply R_refl].
  - apply R_visitOperand.
  - simpl. eapply R_trans; [apply visitReactiveValue_rel|].
    eapply R_trans; [apply visitReactiveValue_rel|].
    eapply R_trans; [apply visitReactiveValue_rel|].
    by apply list_all_rel.
  - simpl. eapply R_trans; [apply visitReactiveValue_rel|].
    by apply list_all_rel.
  - simpl.
    assert (R c (fold_left visitStatement consequent (visitOperand c test)))
      as Hc.
    { eapply R_trans; [apply R_visitOperand | by apply list_all_rel]. }
    match goal with H : option_all _ _ _ |- _ => destruct H end;
      [|done].
    eapply R_trans; [apply Hc | by apply list_all_rel].
  - simpl. eapply R_trans; [apply R_visitOperand|].
    by apply list_all_rel.
  - match goal with H : option_all _ _ _ |- _ => destruct H end; simpl;
      [by apply list_all_rel | apply R_refl].
Qed.

Lemma visit_rel block : ∀ c, R c (visit c block).
Proof using All.
  apply fold_left_rel. intros. apply visitStatement_rel.
Qed.
End WalkRelation.


(** ** JS containers *)

Section container_facts.
Context {A : Type} `{EqDecision A} {V : Type}.

Lemma Map_set_keys (k : A) (v : V) m :
  Map_keys (Map_set k v m)
  = if decide (k ∈ Map_keys m) then Map_keys m else Map_keys m ++ [k].
Proof.
  induction m as [|[k' v'] m IH].
  - destruct (decide (k ∈ Map_keys [])) as [Hin|Hin]; [|done].
    by apply not_elem_of_nil in Hin.
  - cbn [Map_set]. destruct (decide (k' = k)) as [->|Hk].
    + rewrite decide_True; [done|]. unfold Map_keys. set_solver.
    + unfold Map_keys in *. cbn [map fst]. rewrite IH.
      destruct (decide (k ∈ map fst m)) as [Hin|Hin].
      * rewrite decide_True; [done|set_solver].
      * rewrite decide_False; [done|set_solver].
Qed.


Lemma Map_set_elem (k : A) (v : V) m : (k, v) ∈ Map_set k v m.
Proof.
  induction m as [|[k' v'] m IH]; simpl; [set_solver|].
  case_decide; set_solver.
Qed.



Lemma Set_add_elem (x : A) s : x ∈ Set_add x s.
Proof. unfold Set_add. case_decide; set_solver. Qed.

Lemma Set_add_incl (x y : A) s : y ∈ s → y ∈ Set_add x s.
Proof. unfold Set_add. case_decide; set_solver. Qed.

Lemma Set_add_idempotent (x : A) s : Set_add x (Set_add x s) = Set_add x s.
Proof.
  unfold Set_add at 1. by rewrite decide_True by apply Set_add_elem.
Qed.

Lemma Set_add_NoDup (x : A) s : NoDup s → NoDup (Set_add x s).
Proof.
  intros Hnd. unfold Set_add. case_decide; [done|].
  apply NoDup_app. split; [done|]. split; [set_solver|]. apply NoDup_singleton.
Qed.

Lemma filter_eq_absent (x : A) s : x ∉ s → filter (λ y, y = x) s = [].
Proof.
  induction s as [|y s IH]; [done|]. intros Hni.
  rewrite filter_cons_False by set_solver. apply IH. set_solver.
Qed.

Lemma filter_eq_NoDup (x : A) s :
  NoDup s → x ∈ s → filter (λ y, y = x) s = [x].
Proof.
  induction s as [|y s IH]; intros Hnd Hin; [set_solver|].
  apply NoDup_cons in Hnd as [Hni Hnd].
  destruct (decide (y = x)) as [->|Hne].
  - rewrite filter_cons_True by done. by rewrite filter_eq_absent.
  - rewrite filter_cons_False by done. apply IH; [done|set_solver].
Qed.

Lemma Set_delete_incl (x y : A) s : y ∈ Set_delete x s → y ∈ s.
Proof.
  induction s as [|z s IH]; simpl; [done|].
  case_decide; set_solver.
Qed.
End container_facts.


(** ** Escape promotion *)

Lemma promoteEscape_escapes c d S :
  EscapesFrom c d S →
  heap (promoteEscape c d)
  = heap_update S (scope_declarations_set (rootId d) (identifier (place d)))
      (heap c).
Proof.
  intros (decl & Hd & Hs & Hni). unfold promoteEscape. rewrite Hd, Hs.
  apply isScopeActive_false in Hni. by rewrite Hni.
Qed.









Lemma visitReassignment_fields c lv :
  ctx_declarations (visitReassignment c lv) = ctx_declarations c
  ∧ ctx_dependencies (visitReassignment c lv) = ctx_dependencies c
  ∧ ctx_reactiveIdentifiers (visitReassignment c lv)
    = ctx_reactiveIdentifiers c
  ∧ ctx_properties (visitReassignment c lv) = ctx_properties c
  ∧ ctx_scopes (visitReassignment c lv) = ctx_scopes c
  ∧ next_obj (visitReassignment c lv) = next_obj c
  ∧ ∀ r, range (heap (visitReassignment c lv) r) = range (heap c r)
       ∧ dependencies (heap (visitReassignment c lv) r)
         = dependencies (heap c r)
       ∧ declarations (heap (visitReassignment c lv) r)
         = declarations (heap c r).
Proof.
  unfold visitReassignment.
  destruct (lvalue_kind lv); try done.
  destruct (currentScope c) as [cs|]; [|done].
  destruct (ident_scope _); [|done].
  destruct (ctx_declarations c !! _); [|done].
  case_decide; [|done]. simpl. repeat split; try done.
  all: unfold heap_update; by case_decide.
Qed.

Lemma declareOutput_fields c lv :
  ctx_dependencies (declareOutput c lv) = ctx_dependencies c
  ∧ ctx_reactiveIdentifiers (declareOutput c lv) = ctx_reactiveIdentifiers c
  ∧ ctx_properties (declareOutput c lv) = ctx_properties c
  ∧ ctx_scopes (declareOutput c lv) = ctx_scopes c
  ∧ next_obj (declareOutput c lv) = next_obj c
  ∧ ∀ r, range (heap (declareOutput c lv) r) = range (heap c r)
       ∧ dependencies (heap (declareOutput c lv) r) = dependencies (heap c r)
       ∧ declarations (heap (declareOutput c lv) r)
         = declarations (heap c r).
Proof.
  destruct (visitReassignment_fields c lv) as (_ & ? & ? & ? & ? & ? & Hh).
  unfold declareOutput, declare. simpl. repeat (split; [done|]). exact Hh.
Qed.

Lemma declareOutput_declarations c lv :
  ctx_declarations (declareOutput c lv)
  = <[ident_id (identifier (lvalue_place lv)) :=
        mkDecl (if isReactive c (identifier (lvalue_place lv))
                then Dynamic else Const)
          (range_start (ident_mutableRange (identifier (lvalue_place lv))))
          (currentScope c)]> (ctx_declarations c).
Proof.
  destruct (visitReassignment_fields c lv) as (Hd & _ & Hr & _ & Hs & _).
  unfold declareOutput, declare, isReactive, currentScope. simpl.
  by rewrite Hd, Hr, Hs.
Qed.


Lemma removelast_snoc {A} (l : list A) x : removelast (l ++ [x]) = l.
Proof. apply removelast_last. Qed.



Section EscapeClaim.
Variable eachInstructionValueOperand : ReactiveValue -> list Place.
Variable eachReactiveValueOperand : ReactiveValue -> list Place.

Abbreviation visit :=
  (visit eachInstructionValueOperand eachReactiveValueOperand).


End EscapeClaim.


(** ** Reassignments *)

Lemma visitReassignment_fires c lv C :
  Reassigns c lv C →
  visitReassignment c lv
  = set_heap
      (heap_update C (scope_reassignments_add (identifier (lvalue_place lv)))
         (heap c)) c.
Proof.
  intros (Hk & Hc & Hs & decl & Hd & Hne). unfold visitReassignment.
  rewrite Hk, Hc, Hd.
  destruct (ident_scope (identifier (lvalue_place lv))); [|done].
  by rewrite decide_True.
Qed.

Lemma visitReassignment_skips c lv :
  (∀ C, ¬ Reassigns c lv C) → visitReassignment c lv = c.
Proof.
  intros Hno. unfold visitReassignment.
  destruct (lvalue_kind lv) eqn:Hk; try done.
  destruct (currentScope c) as [cs|] eqn:Hc; [|done].
  destruct (ident_scope (identifier (lvalue_place lv))) as [s|] eqn:Hs;
    [|done].
  destruct (ctx_declarations c !! _) as [decl|] eqn:Hd; [|done].
  case_decide as Hne; [|done].
  destruct (Hno cs). repeat split; [done..| |].
  - by rewrite Hs.
  - exists decl. by rewrite Hs.
Qed.

Lemma Reassigns_ext c c' lv C :
  ctx_scopes c' = ctx_scopes c →
  ctx_declarations c' = ctx_declarations c →
  Reassigns c lv C → Reassigns c' lv C.
Proof. unfold Reassigns, currentScope. by intros -> ->. Qed.

Lemma KeepsReassignments_refl c : KeepsReassignments c c.
Proof. by repeat split. Qed.

Lemma KeepsReassignments_trans c1 c2 c3 :
  KeepsReassignments c1 c2 → KeepsReassignments c2 c3 →
  KeepsReassignments c1 c3.
Proof.
  intros (? & ? & H1) (? & ? & H2). repeat split; [congruence..|].
  intros r. by rewrite H2, H1.
Qed.

Lemma KeepsReassignments_visitDependency c d :
  KeepsReassignments c (visitDependency c d).
Proof.
  destruct (visitDependency_context c d) as (? & _ & _ & ? & _).
  repeat split; [done..|]. intros r.
  by destruct (visitDependency_heap_fields c d r) as (_ & _ & ?).
Qed.

Lemma visitReassignment_reassignments c c' lv r :
  KeepsReassignments c c' →
  reassignments (heap (visitReassignment c' lv) r)
  = reassignments (heap (visitReassignment c lv) r).
Proof.
  intros (Hs & Hd & Hr). unfold visitReassignment, currentScope.
  rewrite Hs, Hd. destruct (lvalue_kind lv); try done.
  destruct (last (ctx_scopes c)) as [cs|]; [|done].
  destruct (ident_scope _); [|done].
  destruct (ctx_declarations c !! _); [|done].
  case_decide; [|done]. simpl. unfold heap_update.
  case_decide; [|done]. unfold scope_reassignments_add. simpl.
  by rewrite Hr.
Qed.

Lemma visitReassignment_cases c lv r :
  reassignments (heap (visitReassignment c lv) r) = reassignments (heap c r)
  ∨ reassignments (heap (visitReassignment c lv) r)
    = Set_add (identifier (lvalue_place lv)) (reassignments (heap c r)).
Proof.
  unfold visitReassignment. destruct (lvalue_kind lv); try by left.
  destruct (currentScope c) as [cs|]; [|by left].
  destruct (ident_scope _); [|by left].
  destruct (ctx_declarations c !! _); [|by left].
  case_decide; [|by left]. simpl. unfold heap_update.
  case_decide; [by right | by left].
Qed.

Section ReassignmentClaim.
Variable eachReactiveValueOperand : ReactiveValue -> list Place.

Abbreviation visitInstructionValue :=
  (visitInstructionValue eachReactiveValueOperand).
Abbreviation visitInstruction := (visitInstruction eachReactiveValueOperand).

Lemma visitInstructionValue_KeepsReassignments c v lv :
  KeepsReassignments c (visitInstructionValue c v lv).
Proof.
  apply visitInstructionValue_rel.
  - apply KeepsReassignments_refl.
  - apply KeepsReassignments_trans.
  - intros c0 p. apply (KeepsReassignments_visitDependency (set_next_obj _ c0)).
  - intros c0 o p.
    apply (KeepsReassignments_visitDependency (set_next_obj _ c0)).
  - by repeat split.
Qed.

Lemma visitInstruction_reassignments c i lv v r :
  reassignments (heap (visitInstruction c (mkInstruction i (Some lv) v)) r)
  = reassignments (heap (visitReassignment c lv) r).
Proof.
  rewrite visitInstruction_output. unfold declareOutput, declare. simpl.
  apply visitReassignment_reassignments,
    visitInstructionValue_KeepsReassignments.
Qed.

(** C8. The identifier of an output is added to the [reassignments] of the
    current scope exactly when the output is a reassignment, there is a
    current scope, the identifier has an owning scope, a declaration record
    exists for it and the scope recorded there differs from the
    identifier's own: then nothing else changes, and otherwise nothing
    changes at all. Within the visit of an instruction the [reassignments]
    sets change only through this step on its output. The set holds the
    identifier once however often it is reassigned in the scope: after a
    second visit of the output, and after two instructions with that
    output, it is the set after the first. *)
Theorem C8_reassignment_tracking (c : Context) (lv : LValue) :
  let ident := identifier (lvalue_place lv) in
  (∀ C, Reassigns c lv C →
     visitReassignment c lv
     = set_heap (heap_update C (scope_reassignments_add ident) (heap c)) c
     ∧ reassignments (heap (visitReassignment c lv) C)
       = Set_add ident (reassignments (heap c C))
     ∧ reassignments (heap (visitReassignment (visitReassignment c lv) lv) C)
       = reassignments (heap (visitReassignment c lv) C)
     ∧ (NoDup (reassignments (heap c C)) →
        filter (λ x, x = ident)
          (reassignments (heap (visitReassignment (visitReassignment c lv) lv) C))
        = [ident]))
  ∧ ((∀ C, ¬ Reassigns c lv C) → visitReassignment c lv = c)
  ∧ (∀ i v r,
       reassignments (heap (visitInstruction c (mkInstruction i (Some lv) v)) r)
       = reassignments (heap (visitReassignment c lv) r)
       ∧ reassignments (heap (visitInstruction c (mkInstruction i None v)) r)
         = reassignments (heap c r))
  ∧ (∀ C i1 v1 i2 v2, Reassigns c lv C →
       reassignments
         (heap (visitInstruction
                  (visitInstruction c (mkInstruction i1 (Some lv) v1))
                  (mkInstruction i2 (Some lv) v2)) C)
       = Set_add ident (reassignments (heap c C))).
Proof.
  intros ident. split; [|split; [|split]].
  - intros C HR.
    assert (reassignments (heap (visitReassignment c lv) C)
            = Set_add ident (reassignments (heap c C))) as Hadd.
    { rewrite (visitReassignment_fires _ _ _ HR). simpl.
      by rewrite heap_update_eq. }
    assert (reassignments
              (heap (visitReassignment (visitReassignment c lv) lv) C)
            = reassignments (heap (visitReassignment c lv) C)) as Htwice.
    { destruct (visitReassignment_fields c lv) as (Hd & _ & _ & _ & Hs & _).
      rewrite (visitReassignment_fires (visitReassignment c lv) lv C)
        by by apply (Reassigns_ext c).
      simpl. rewrite heap_update_eq. simpl. rewrite Hadd.
      apply Set_add_idempotent. }
    split; [by apply visitReassignment_fires|].
    split; [done|]. split; [done|]. intros Hnd.
    rewrite Htwice, Hadd.
    apply filter_eq_NoDup; [by apply Set_add_NoDup | apply Set_add_elem].
  - apply visitReassignment_skips.
  - intros i v r. split; [apply visitInstruction_reassignments|].
    simpl.
    by destruct (visitInstructionValue_KeepsReassignments c v None)
      as (_ & _ & ->).
  - intros C i1 v1 i2 v2 HR.
    assert (reassignments
              (heap (visitInstruction c (mkInstruction i1 (Some lv) v1)) C)
            = Set_add ident (reassignments (heap c C))) as Hfirst.
    { rewrite visitInstruction_reassignments.
      rewrite (visitReassignment_fires _ _ _ HR). simpl.
      by rewrite heap_update_eq. }
    rewrite visitInstruction_reassignments.
    destruct (visitReassignment_cases
                (visitInstruction c (mkInstruction i1 (Some lv) v1)) lv C)
      as [-> | ->]; rewrite Hfirst; [done|].
    apply Set_add_idempotent.
Qed.
End ReassignmentClaim.


(** ** Property loads *)

Section PropertyLoadClaim.
Variable eachInstructionValueOperand : ReactiveValue -> list Place.
Variable eachReactiveValueOperand : ReactiveValue -> list Place.

Abbreviation visitInstructionValue :=
  (visitInstructionValue eachReactiveValueOperand).
Abbreviation visitInstruction := (visitInstruction eachReactiveValueOperand).
Abbreviation visit :=
  (visit eachInstructionValueOperand eachReactiveValueOperand).

Lemma visitInstruction_load c i lv object property :
  let c' := visitInstruction c
              (mkInstruction i (Some lv) (PropertyLoad object property)) in
  ctx_properties c'
  = <[identifier (lvalue_place lv) := nextDependency c object property]>
      (ctx_properties c)
  ∧ ctx_dependencies c' = ctx_dependencies c
  ∧ ctx_scopes c' = ctx_scopes c
  ∧ next_obj c' = S (next_obj c)
  ∧ ∀ r, range (heap c' r) = range (heap c r)
       ∧ dependencies (heap c' r) = dependencies (heap c r)
       ∧ declarations (heap c' r) = declarations (heap c r).
Proof.
  intros c'. subst c'. rewrite visitInstruction_output.
  change (visitInstructionValue c (PropertyLoad object property) (Some lv))
    with (declareProperty c (lvalue_place lv) object property).
  destruct (declareOutput_fields
              (declareProperty c (lvalue_place lv) object property) lv)
    as (Hdep & _ & Hprop & Hs & Hn & Hh).
  rewrite Hprop, Hdep, Hs, Hn. repeat (split; [done|]). exact Hh.
Qed.

Lemma visit_loads c block :
  Forall LoadWithOutput block →
  ctx_dependencies (visit c block) = ctx_dependencies c
  ∧ ∀ r, dependencies (heap (visit c block) r) = dependencies (heap c r)
       ∧ declarations (heap (visit c block) r) = declarations (heap c r).
Proof.
  intros Hall. revert c.
  induction Hall as [|item block (i & lv & o & p & ->) _ IH]; intros c;
    [done|].
  change (visit c (?x :: block)) with (visit (visitStatement
    eachInstructionValueOperand eachReactiveValueOperand c x) block).
  destruct (IH (visitStatement eachInstructionValueOperand
                  eachReactiveValueOperand c
                  (InstructionItem
                     (mkInstruction i (Some lv) (PropertyLoad o p)))))
    as [-> Hh].
  destruct (visitInstruction_load c i lv o p) as (_ & Hd & _ & _ & Hh').
  split; [done|]. intros r. destruct (Hh r) as [-> ->].
  by destruct (Hh' r) as (_ & ? & ?).
Qed.

(** C10. Visiting a property load that has an output binding only records
    the alias of the output (and then declares the output): the object is
    not offered as a dependency, so the working set and the [dependencies]
    and [declarations] of every scope are as before, whatever scope the
    object was declared in; a block of such loads, whose outputs are then
    never used, leaves them as before as well. Without an output binding
    the load goes through [visitProperty]: the candidate made of the object
    (or of its alias) and the property is offered to [visitDependency], and
    its root is set in the [declarations] of the closed scope it was
    declared in. *)
Theorem C10_property_load_output (c : Context) (i : InstructionId)
    (lv : LValue) (object : Place) (property : string) :
  let load := PropertyLoad object property in
  let c' := visitInstruction c (mkInstruction i (Some lv) load) in
  let candidate := nextDependency c object property in
  visitInstructionValue c load (Some lv)
  = declareProperty c (lvalue_place lv) object property
  ∧ ctx_properties c'
    = <[identifier (lvalue_place lv) := candidate]> (ctx_properties c)
  ∧ ctx_dependencies c' = ctx_dependencies c
  ∧ (∀ r, dependencies (heap c' r) = dependencies (heap c r)
          ∧ declarations (heap c' r) = declarations (heap c r))
  ∧ (∀ c0 block, Forall LoadWithOutput block →
       ctx_dependencies (visit c0 block) = ctx_dependencies c0
       ∧ ∀ r, dependencies (heap (visit c0 block) r)
              = dependencies (heap c0 r)
              ∧ declarations (heap (visit c0 block) r)
                = declarations (heap c0 r))
  ∧ visitInstructionValue c load None
    = visitDependency (set_next_obj (S (next_obj c)) c) candidate
  ∧ (∀ S, EscapesFrom c candidate S →
       declarations (heap (visitInstructionValue c load None) S)
       = Map_set (rootId candidate) (identifier (place candidate))
           (declarations (heap c S))).
Proof.
  intros load c' candidate.
  destruct (visitInstruction_load c i lv object property)
    as (Hp & Hd & _ & _ & Hh).
  split; [done|]. split; [done|]. split; [done|].
  split; [intros r; by destruct (Hh r) as (_ & ? & ?)|].
  split; [apply visit_loads|]. split; [done|].
  intros S HE. simpl. unfold visitProperty. fold candidate.
  assert (∃ q, path candidate = Some q) as [q Hq].
  { unfold candidate, nextDependency.
    destruct (ctx_properties c !! identifier object); simpl; eauto. }
  rewrite visitDependency_heap, (maybeDependency_path _ _ _ Hq).
  rewrite (promoteEscape_escapes _ _ S) by done.
  by rewrite heap_update_eq.
Qed.
End PropertyLoadClaim.


(** ** Roots of dependencies *)

Lemma scanDependencies_incl all rest d x :
  x ∈ scanDependencies all rest d → x ∈ all ∨ x = d.
Proof.
  induction rest as [|dep rest IH]; simpl.
  - unfold Set_add. case_decide; set_solver.
  - case_decide; [done|].
    destruct (path dep); [|by left].
    destruct (path d).
    + case_decide; [by left | done].
    + unfold Set_add. case_decide; intros Hx.
      * left. by apply Set_delete_incl in Hx.
      * apply elem_of_app in Hx as [Hx|Hx]; [|set_solver].
        left. by apply Set_delete_incl in Hx.
Qed.

Section RootsInvariant.
Variable reactive : gset Identifier.
Variable ids : list IdentifierId.

Abbreviation Inv := (RootsMayVary reactive ids).

Lemma Inv_visitDependency c d : Inv c → Inv (visitDependency c d).
Proof.
  intros (Hr & Hdecl & Hdeps & Hheap).
  destruct (visitDependency_context c d) as (Ed & Er & _).
  split; [congruence|]. split; [by rewrite Ed|]. split.
  - intros x. rewrite visitDependency_dependencies.
    destruct (isDependency c _) eqn:E; [|apply Hdeps].
    intros [Hx | ->]%scanDependencies_incl; [by apply Hdeps|].
    apply isDependency_Qualifies in E as (C & decl & _ & Hl & Hk & _).
    by apply (Hdecl _ decl).
  - intros r x.
    destruct (visitDependency_heap_fields c d r) as (_ & -> & _).
    apply Hheap.
Qed.

Lemma Inv_next_obj c n : Inv c → Inv (set_next_obj n c).
Proof. done. Qed.

Lemma Inv_declareProperty c l o p : Inv c → Inv (declareProperty c l o p).
Proof. done. Qed.

Lemma Inv_declareOutput c lv : Inv c → Inv (declareOutput c lv).
Proof.
  intros (Hr & Hdecl & Hdeps & Hheap).
  destruct (declareOutput_fields c lv) as (Ed & Er & _ & _ & _ & Eh).
  split; [congruence|]. split; [|split].
  - intros i decl. rewrite declareOutput_declarations.
    destruct (decide (ident_id (identifier (lvalue_place lv)) = i))
      as [<-|Hne].
    + rewrite lookup_insert_eq. intros [= <-]. simpl.
      unfold isReactive. case_bool_decide as Hin; [|done].
      intros _. right. exists (identifier (lvalue_place lv)).
      by rewrite <- Hr.
    + rewrite lookup_insert_ne by done. apply Hdecl.
  - by rewrite Ed.
  - intros r x. destruct (Eh r) as (_ & -> & _). apply Hheap.
Qed.

Lemma Inv_fold_visitDependency ds c :
  Inv c → Inv (fold_left visitDependency ds c).
Proof.
  revert c. induction ds as [|d ds IH]; intros c Hc; simpl; [done|].
  by apply IH, Inv_visitDependency.
Qed.

Lemma Inv_scope c scope c' :
  (Inv (enterScope c scope) → Inv c') → Inv c → Inv (leaveScope c scope c').
Proof.
  intros Hbody (Hr & Hdecl & Hdeps & Hheap).
  destruct Hbody as (Hr' & Hdecl' & Hdeps' & Hheap').
  { split; [done|]. split; [done|]. split; [|done]. simpl. set_solver. }
  apply Inv_fold_visitDependency.
  split; [done|]. split; [done|]. split; [done|]. simpl.
  intros r x. unfold heap_update. case_decide; [apply Hdeps' | apply Hheap'].
Qed.
End RootsInvariant.


(** ** The context at the start of the walk *)

Lemma declare_params ps c :
  let c' := fold_left
              (λ context param,
                 declare context (identifier param)
                   (mkDecl Dynamic (makeInstructionId 0) None)) ps c in
  ctx_dependencies c' = ctx_dependencies c
  ∧ ctx_reactiveIdentifiers c' = ctx_reactiveIdentifiers c
  ∧ ctx_scopes c' = ctx_scopes c
  ∧ heap c' = heap c
  ∧ (∀ p, p ∈ ps →
       ctx_declarations c' !! ident_id (identifier p)
       = Some (mkDecl Dynamic 0 None))
  ∧ (∀ i, i ∉ map (λ p, ident_id (identifier p)) ps →
       ctx_declarations c' !! i = ctx_declarations c !! i).
Proof.
  unfold makeInstructionId.
  revert c. induction ps as [|q ps IH]; intros c; simpl.
  - repeat split; try done. intros p Hp. by apply not_elem_of_nil in Hp.
  - destruct (IH (declare c (identifier q) (mkDecl Dynamic 0 None)))
      as (-> & -> & -> & -> & Hin & Hout).
    repeat split; try done.
    + intros p Hp.
      destruct (decide (p ∈ ps)) as [Hps|Hps]; [by apply Hin|].
      apply elem_of_cons in Hp as [->|Hp]; [|done].
      destruct (decide (ident_id (identifier q)
                        ∈ map (λ p, ident_id (identifier p)) ps))
        as [Hi|Hi].
      * apply list_elem_of_fmap in Hi as (p' & Hid & Hp').
        rewrite Hid. by apply Hin.
      * rewrite (Hout _ Hi). simpl. apply lookup_insert_eq.
    + intros i Hi. apply not_elem_of_cons in Hi as [Hne Hi].
      rewrite (Hout _ Hi). simpl. by apply lookup_insert_ne.
Qed.

Section PassClaims.
Variable eachInstructionValueOperand : ReactiveValue -> list Place.
Variable eachReactiveValueOperand : ReactiveValue -> list Place.
Variable inferReactiveIdentifiers : ReactiveFunction -> gset Identifier.

Abbreviation visit :=
  (visit eachInstructionValueOperand eachReactiveValueOperand).
Abbreviation propagateScopeDependencies :=
  (propagateScopeDependencies eachInstructionValueOperand
     eachReactiveValueOperand inferReactiveIdentifiers).

Lemma visit_RootsMayVary reactive ids block c :
  RootsMayVary reactive ids c → RootsMayVary reactive ids (visit c block).
Proof.
  revert c.
  apply (visit_rel eachInstructionValueOperand eachReactiveValueOperand
           (λ c c', RootsMayVary reactive ids c → RootsMayVary reactive ids c')).
  - done.
  - intros c1 c2 c3 H12 H23 H1. by apply H23, H12.
  - intros c p Hc. by apply (Inv_visitDependency _ _ (set_next_obj _ c)).
  - intros c o p Hc. by apply (Inv_visitDependency _ _ (set_next_obj _ c)).
  - intros c l o p. apply Inv_declareProperty.
  - intros c lv. apply Inv_declareOutput.
  - intros c scope c'. apply Inv_scope.
Qed.

Lemma functionContext_RootsMayVary fn h :
  (∀ r, dependencies (h r) = []) →
  RootsMayVary (inferReactiveIdentifiers fn) (paramIds fn)
    (functionContext inferReactiveIdentifiers fn h).
Proof.
  intros Hempty. unfold functionContext.
  set (c0 := match fn_id fn with
             | Some i => declare _ i _
             | None => _
             end).
  destruct (declare_params (params fn) c0) as (Ed & Er & _ & Eh & Hin & Hout).
  split; [|split; [|split]].
  - rewrite Er. unfold c0. by destruct (fn_id fn).
  - intros i decl Hl Hk.
    destruct (decide (i ∈ paramIds fn)) as [Hi|Hi]; [by left|].
    rewrite (Hout _ Hi) in Hl. unfold c0 in Hl.
    destruct (fn_id fn) as [f|]; simpl in Hl.
    + destruct (decide (ident_id f = i)) as [<-|Hne].
      * rewrite lookup_insert_eq in Hl. by injection Hl as <-.
      * by rewrite lookup_insert_ne in Hl.
    + by rewrite lookup_empty in Hl.
  - rewrite Ed. unfold c0. destruct (fn_id fn); simpl; set_solver.
  - rewrite Eh. unfold c0. intros r x.
    destruct (fn_id fn); simpl; rewrite Hempty; set_solver.
Qed.

(** C5, amended. When every scope enters the pass with an empty
    [dependencies] set, an identifier id that is not the id of a parameter
    and not the id of an identifier the reactivity analysis marks reactive
    is never the root of an entry of any scope's [dependencies] after the
    pass. *)
Theorem C5_const_exclusion_amended (fn : ReactiveFunction)
    (h : ScopeRef -> ReactiveScope) (X : Identifier) :
  (∀ r, dependencies (h r) = []) →
  (∀ p, p ∈ params fn → ident_id (identifier p) ≠ ident_id X) →
  (∀ Y, Y ∈ inferReactiveIdentifiers fn → ident_id Y ≠ ident_id X) →
  ∀ r d, d ∈ dependencies (heap (propagateScopeDependencies fn h) r) →
         rootId d ≠ ident_id X.
Proof.
  intros Hempty Hparam Hreact r d Hd.
  destruct (visit_RootsMayVary _ _ (body fn) _
              (functionContext_RootsMayVary fn h Hempty))
    as (_ & _ & _ & Hheap).
  destruct (Hheap r d Hd) as [Hin | (Y & HY & Hid)].
  - apply list_elem_of_fmap in Hin as (p & -> & Hp). by apply Hparam.
  - rewrite <- Hid. by apply Hreact.
Qed.
End PassClaims.


(** ** A chain of property loads *)

Lemma fold_visitDependency_heap_dependencies ds c r :
  dependencies (heap (fold_left visitDependency ds c) r)
  = dependencies (heap c r).
Proof.
  revert c. induction ds as [|d ds IH]; intros c; simpl; [done|].
  rewrite IH. by destruct (visitDependency_heap_fields c d r) as (_ & ? & _).
Qed.

Lemma leaveScope_dependencies c scope c' :
  dependencies (heap (leaveScope c scope c') scope) = ctx_dependencies c'.
Proof.
  unfold leaveScope. rewrite fold_visitDependency_heap_dependencies. simpl.
  by rewrite heap_update_eq.
Qed.

Lemma declareOutput_declarations_ne c lv i :
  i ≠ ident_id (identifier (lvalue_place lv)) →
  ctx_declarations (declareOutput c lv) !! i = ctx_declarations c !! i.
Proof.
  intros Hne. rewrite declareOutput_declarations.
  by rewrite lookup_insert_ne.
Qed.

Section ChainClaim.
Variable eachInstructionValueOperand : ReactiveValue -> list Place.
Variable eachReactiveValueOperand : ReactiveValue -> list Place.

Abbreviation visitInstructionValue :=
  (visitInstructionValue eachReactiveValueOperand).
Abbreviation visitInstruction := (visitInstruction eachReactiveValueOperand).
Abbreviation visit :=
  (visit eachInstructionValueOperand eachReactiveValueOperand).

Lemma visitInstruction_load_declarations c i lv object property j :
  j ≠ ident_id (identifier (lvalue_place lv)) →
  ctx_declarations
    (visitInstruction c
       (mkInstruction i (Some lv) (PropertyLoad object property))) !! j
  = ctx_declarations c !! j.
Proof.
  intros Hne. rewrite visitInstruction_output.
  by rewrite declareOutput_declarations_ne.
Qed.

Lemma visitInstructionValue_operands c v lv :
  (∀ o p, v ≠ PropertyLoad o p) →
  visitInstructionValue c v lv
  = fold_left visitOperand (eachReactiveValueOperand v) c.
Proof. intros Hv. destruct v; try done. by destruct (Hv object property). Qed.

Lemma visitInstruction_dependencies c i lv v :
  ctx_dependencies (visitInstruction c (mkInstruction i lv v))
  = ctx_dependencies (visitInstructionValue c v lv).
Proof.
  destruct lv as [lv|]; [|done]. rewrite visitInstruction_output.
  by destruct (declareOutput_fields (visitInstructionValue c v (Some lv)) lv)
    as (-> & _).
Qed.

(** C6, amended. Inside a scope item for [S], the instructions
    [t1 = PropertyLoad(obj, x)], [t2 = PropertyLoad(t1, y)] and then an
    instruction whose only operand is [t2], where [obj] has a Dynamic
    declaration made before the start of [S], has no recorded property
    alias and has no owning scope or one that is closed and is not [S],
    and [t1] and [t2] are anonymous temporaries with other ids than [obj]:
    the pass leaves exactly one entry in [S.dependencies], rooted at [obj]
    with path [x, y], and none rooted at [t1] or [t2]. *)
Theorem C6_property_chain_amended (c : Context) (S : ScopeRef)
    (obj t1 t1' t2 t2' : Place) (x y : string) (k1 k2 : InstructionKind)
    (i1 i2 i3 : InstructionId) (lv3 : option LValue) (use : ReactiveValue)
    (decl : Decl) :
  identifier t1' = identifier t1 →
  identifier t2' = identifier t2 →
  ident_name (identifier t1) = None →
  ident_name (identifier t2) = None →
  ident_id (identifier t1) ≠ ident_id (identifier obj) →
  ident_id (identifier t2) ≠ ident_id (identifier obj) →
  ctx_properties c !! identifier obj = None →
  ctx_declarations c !! ident_id (identifier obj) = Some decl →
  decl_kind decl = Dynamic →
  decl_id decl < range_start (range (heap c S)) →
  (decl_scope decl = None
   ∨ ∃ T, decl_scope decl = Some T ∧ (T ∉ ctx_scopes c) ∧ T ≠ S) →
  (∀ o p, use ≠ PropertyLoad o p) →
  eachReactiveValueOperand use = [t2'] →
  let block :=
    [ScopeItem S
       [InstructionItem
          (mkInstruction i1 (Some (mkLValue t1 k1)) (PropertyLoad obj x));
        InstructionItem
          (mkInstruction i2 (Some (mkLValue t2 k2)) (PropertyLoad t1' y));
        InstructionItem (mkInstruction i3 lv3 use)]] in
  dependencies (heap (visit c block) S)
  = [mkDep (Datatypes.S (next_obj c)) obj (Some [x; y])]
  ∧ ∀ d, d ∈ dependencies (heap (visit c block) S) →
         rootId d = ident_id (identifier obj)
         ∧ rootId d ≠ ident_id (identifier t1)
         ∧ rootId d ≠ ident_id (identifier t2).
Proof.
  intros Ht1 Ht2 Hn1 Hn2 Hid1 Hid2 Halias Hdecl Hkind Hbefore Hscope
    Huse Hops block.
  assert (dependencies (heap (visit c block) S)
          = [mkDep (Datatypes.S (next_obj c)) obj (Some [x; y])]) as Hdeps.
  { subst block.
    change (visit c [ScopeItem S ?b])
      with (leaveScope c S (visit (enterScope c S) b)).
    rewrite leaveScope_dependencies.
    set (I1 := mkInstruction i1 (Some (mkLValue t1 k1)) (PropertyLoad obj x)).
    set (I2 := mkInstruction i2 (Some (mkLValue t2 k2)) (PropertyLoad t1' y)).
    change (visit (enterScope c S)
              [InstructionItem I1; InstructionItem I2;
               InstructionItem (mkInstruction i3 lv3 use)])
      with (visitInstruction
              (visitInstruction (visitInstruction (enterScope c S) I1) I2)
              (mkInstruction i3 lv3 use)).
    pose proof (visitInstruction_load eachReactiveValueOperand
                  (enterScope c S) i1 (mkLValue t1 k1) obj x)
      as (Hp1 & Hd1 & Hs1 & Hn1' & Hh1).
    pose proof (visitInstruction_load_declarations (enterScope c S) i1
                  (mkLValue t1 k1) obj x (ident_id (identifier obj)))
      as Hl1.
    fold I1 in Hp1, Hd1, Hs1, Hn1', Hh1, Hl1.
    remember (visitInstruction (enterScope c S) I1) as c1 eqn:Ec1.
    clear Ec1.
    pose proof (visitInstruction_load eachReactiveValueOperand
                  c1 i2 (mkLValue t2 k2) t1' y)
      as (Hp2 & Hd2 & Hs2 & Hn2' & Hh2).
    pose proof (visitInstruction_load_declarations c1 i2
                  (mkLValue t2 k2) t1' y (ident_id (identifier obj)))
      as Hl2.
    fold I2 in Hp2, Hd2, Hs2, Hn2', Hh2, Hl2.
    remember (visitInstruction c1 I2) as c2 eqn:Ec2.
    clear Ec2.
    assert (nextDependency (enterScope c S) obj x
            = mkDep (next_obj c) obj (Some [x])) as Hnd1.
    { unfold nextDependency. simpl. by rewrite Halias. }
    assert (nextDependency c1 t1' y
            = mkDep (Datatypes.S (next_obj c)) obj (Some [x; y])) as Hnd2.
    { unfold nextDependency. rewrite Hp1. simpl.
      rewrite Ht1, lookup_insert_eq, Hnd1. simpl. by rewrite Hn1'. }
    rewrite Hnd2 in Hp2. simpl in Hp2.
    rewrite visitInstruction_dependencies.
    rewrite visitInstructionValue_operands, Hops by done. simpl.
    unfold visitOperand.
    set (alias := mkDep (Datatypes.S (next_obj c)) obj (Some [x; y])) in *.
    assert (maybeDependency (set_next_obj (Datatypes.S (next_obj c2)) c2)
              (mkDep (next_obj c2) t2' None) = alias) as Hm.
    { unfold maybeDependency. simpl. rewrite Ht2, Hn2, Hp2.
      by rewrite lookup_insert_eq. }
    rewrite visitDependency_dependencies, Hm.
    assert (Qualifies (set_next_obj (Datatypes.S (next_obj c2)) c2) alias)
      as HQ.
    { exists S, decl. simpl. split; [|split; [|split; [|split]]].
      - unfold currentScope. simpl. rewrite Hs2, Hs1. simpl. apply last_snoc.
      - rewrite Hl2, Hl1 by (simpl; congruence). done.
      - done.
      - destruct (Hh2 S) as (-> & _). by destruct (Hh1 S) as (-> & _).
      - destruct Hscope as [?|(T & ? & HT & HTS)]; [by left|right].
        exists T. split; [done|]. rewrite Hs2, Hs1. simpl. set_solver. }
    apply isDependency_Qualifies in HQ. rewrite HQ.
    simpl. by rewrite Hd2, Hd1. }
  split; [done|]. intros d. rewrite Hdeps. intros ->%list_elem_of_singleton.
  unfold rootId. simpl. repeat split; congruence.
Qed.
End ChainClaim.


(** ** Parameters and the function's own identifier *)

Section ParameterClaim.
Variable inferReactiveIdentifiers : ReactiveFunction -> gset Identifier.


Lemma functionContext_declarations fn h :
  (∀ p, p ∈ params fn →
     ctx_declarations (functionContext inferReactiveIdentifiers fn h) !! ident_id (identifier p)
     = Some (mkDecl Dynamic 0 None))
  ∧ (∀ i, i ∉ paramIds fn →
       ctx_declarations (functionContext inferReactiveIdentifiers fn h) !! i
       = match fn_id fn with
         | Some f =>
             ({[ident_id f := mkDecl Const 0 None]} : gmap IdentifierId Decl)
             !! i
         | None => None
         end).
Proof.
  unfold functionContext.
  set (c0 := match fn_id fn with
             | Some i => declare _ i _
             | None => _
             end).
  destruct (declare_params (params fn) c0) as (_ & _ & _ & _ & Hin & Hout).
  split; [exact Hin|]. intros i Hi. rewrite (Hout _ Hi). unfold c0.
  destruct (fn_id fn) as [f|]; [|done]. simpl.
  by rewrite insert_empty.
Qed.

(** C9, amended. Before the walk begins every parameter is declared with
    kind Dynamic, defining instruction id 0 and no owning scope, whatever
    the reactivity analysis says; so a candidate rooted at a parameter
    whose record still stands passes the Dynamic check, and passes the
    declared-before check (and with them the whole qualification test) in
    every current scope whose range starts after id 0. The function's own
    identifier, when present, is declared Const at id 0 unless a parameter
    carries the same id, and a candidate whose root has a Const record
    never changes a working set. *)
Theorem C9_parameters_amended (fn : ReactiveFunction)
    (h : ScopeRef -> ReactiveScope) :
  (∀ p, p ∈ params fn →
     ctx_declarations (functionContext inferReactiveIdentifiers fn h) !! ident_id (identifier p)
     = Some (mkDecl Dynamic (makeInstructionId 0) None))
  ∧ (∀ oracle,
       ctx_declarations (functionContext inferReactiveIdentifiers fn h)
       = ctx_declarations (functionContext oracle fn h))
  ∧ (∀ c d C,
       ctx_declarations c !! rootId d
       = Some (mkDecl Dynamic (makeInstructionId 0) None) →
       currentScope c = Some C →
       0 < range_start (range (heap c C)) →
       PassesDynamicAndBefore c d ∧ Qualifies c d)
  ∧ (∀ f, fn_id fn = Some f → ident_id f ∉ paramIds fn →
       ctx_declarations (functionContext inferReactiveIdentifiers fn h) !! ident_id f
       = Some (mkDecl Const (makeInstructionId 0) None))
  ∧ (∀ c d decl,
       ctx_declarations c !! rootId (maybeDependency c d) = Some decl →
       decl_kind decl = Const →
       ctx_dependencies (visitDependency c d) = ctx_dependencies c).
Proof.
  destruct (functionContext_declarations fn h) as [Hin Hout].
  split; [exact Hin|]. split; [|split; [|split]].
  - intros oracle. unfold functionContext.
    set (step := λ (context : Context) (param : Place), declare context _ _).
    assert (∀ ps c c', ctx_declarations c = ctx_declarations c' →
              ctx_declarations (fold_left step ps c)
              = ctx_declarations (fold_left step ps c')) as Hfold.
    { induction ps as [|q ps IH]; intros c c' Hc; simpl; [done|].
      apply IH. unfold step, declare. simpl. by rewrite Hc. }
    apply Hfold. by destruct (fn_id fn).
  - intros c d C Hl HC Hpos.
    split; exists C, (mkDecl Dynamic (makeInstructionId 0) None);
      repeat split; try done. by left.
  - intros f Hf Hni. rewrite (Hout _ Hni), Hf. apply lookup_singleton_eq.
  - intros c d decl Hl Hk. rewrite visitDependency_dependencies.
    destruct (isDependency c _) eqn:E; [|done].
    apply isDependency_Qualifies in E as (C & decl' & _ & Hl' & Hk' & _).
    unfold rootId in Hl. rewrite Hl in Hl'. injection Hl' as <-.
    by rewrite Hk in Hk'.
Qed.
End ParameterClaim.

(** * Further properties of the walk *)

(** ** The stack and the working set outside scopes *)

Lemma KeepsTopLevel_visitDependency c d :
  KeepsTopLevel c (visitDependency c d).
Proof.
  destruct (visitDependency_context c d) as (_ & _ & _ & Hs & _).
  split; [done|]. intros Hnil. rewrite visitDependency_dependencies.
  destruct (isDependency c _) eqn:E; [|done].
  apply isDependency_Qualifies in E as (C & _ & HC & _).
  unfold currentScope in HC. by rewrite Hnil in HC.
Qed.

Lemma KeepsTopLevel_trans c1 c2 c3 :
  KeepsTopLevel c1 c2 → KeepsTopLevel c2 c3 → KeepsTopLevel c1 c3.
Proof.
  intros [Hs1 Hd1] [Hs2 Hd2]. split; [congruence|].
  intros Hnil. rewrite Hd2, Hd1; [done..|]. by rewrite Hs1.
Qed.

Lemma KeepsTopLevel_fold ds c :
  KeepsTopLevel c (fold_left visitDependency ds c).
Proof.
  revert c. induction ds as [|d ds IH]; intros c; simpl; [by split|].
  eapply KeepsTopLevel_trans; [apply KeepsTopLevel_visitDependency | apply IH].
Qed.

Section StackClaims.
Variable eachInstructionValueOperand : ReactiveValue -> list Place.
Variable eachReactiveValueOperand : ReactiveValue -> list Place.
Variable inferReactiveIdentifiers : ReactiveFunction -> gset Identifier.

Abbreviation visit :=
  (visit eachInstructionValueOperand eachReactiveValueOperand).
Abbreviation pass :=
  (propagateScopeDependencies eachInstructionValueOperand
     eachReactiveValueOperand inferReactiveIdentifiers).

Lemma visit_KeepsTopLevel block c : KeepsTopLevel c (visit c block).
Proof.
  apply visit_rel.
  - by split.
  - apply KeepsTopLevel_trans.
  - intros c0 p. apply (KeepsTopLevel_visitDependency (set_next_obj _ c0)).
  - intros c0 o p. apply (KeepsTopLevel_visitDependency (set_next_obj _ c0)).
  - by split.
  - intros c0 lv.
    destruct (declareOutput_fields c0 lv) as (Hd & _ & _ & Hs & _).
    by split.
  - intros c0 scope c' [Hs Hd]. unfold leaveScope.
    eapply KeepsTopLevel_trans; [|apply KeepsTopLevel_fold].
    split; simpl; [|done]. rewrite Hs. simpl. apply removelast_snoc.
Qed.

(** X1. The walk of a block leaves the scope stack as it found it, and a
    walk that starts outside every scope leaves the working set as it
    found it: dependencies are collected inside scopes only. The pass ends
    with an empty stack and an empty working set. *)
Theorem X1_stack_balanced (block : ReactiveBlock) (c : Context)
    (fn : ReactiveFunction) (h : ScopeRef -> ReactiveScope) :
  ctx_scopes (visit c block) = ctx_scopes c
  ∧ (ctx_scopes c = [] →
     ctx_dependencies (visit c block) = ctx_dependencies c)
  ∧ ctx_scopes (pass fn h) = []
  ∧ ctx_dependencies (pass fn h) = [].
Proof.
  destruct (visit_KeepsTopLevel block c) as [Hs Hd].
  split; [done|]. split; [done|].
  destruct (visit_KeepsTopLevel (body fn)
              (functionContext inferReactiveIdentifiers fn h)) as [Hs' Hd'].
  unfold propagateScopeDependencies.
  destruct (declare_params (params fn)
              (match fn_id fn with
               | Some i => declare (newContext (inferReactiveIdentifiers fn) h)
                             i (mkDecl Const (makeInstructionId 0) None)
               | None => newContext (inferReactiveIdentifiers fn) h
               end)) as (Ed & _ & Es & _).
  assert (ctx_scopes (functionContext inferReactiveIdentifiers fn h) = [])
    as Hnil.
  { unfold functionContext. rewrite Es. by destruct (fn_id fn). }
  assert (ctx_dependencies (functionContext inferReactiveIdentifiers fn h)
          = []) as Hdnil.
  { unfold functionContext. rewrite Ed. by destruct (fn_id fn). }
  split.
  - by rewrite Hs'.
  - by rewrite Hd'.
Qed.
End StackClaims.

(** ** What the walk leaves alone and what it only adds to *)

Lemma functionContext_fields oracle fn h :
  ctx_dependencies (functionContext oracle fn h) = []
  ∧ ctx_reactiveIdentifiers (functionContext oracle fn h) = oracle fn
  ∧ ctx_scopes (functionContext oracle fn h) = []
  ∧ heap (functionContext oracle fn h) = h.
Proof.
  unfold functionContext.
  destruct (declare_params (params fn)
              (match fn_id fn with
               | Some i => declare (newContext (oracle fn) h)
                             i (mkDecl Const (makeInstructionId 0) None)
               | None => newContext (oracle fn) h
               end)) as (-> & -> & -> & -> & _).
  by destruct (fn_id fn).
Qed.

Lemma KeepsRanges_visitDependency c d : KeepsRanges c (visitDependency c d).
Proof.
  destruct (visitDependency_context c d) as (_ & Hr & _).
  split; [done|]. intros r.
  by destruct (visitDependency_heap_fields c d r) as (? & _).
Qed.

Lemma KeepsRanges_trans c1 c2 c3 :
  KeepsRanges c1 c2 → KeepsRanges c2 c3 → KeepsRanges c1 c3.
Proof.
  intros [Hr1 Hh1] [Hr2 Hh2]. split; [congruence|].
  intros r. by rewrite Hh2, Hh1.
Qed.

Lemma KeepsRanges_fold ds c : KeepsRanges c (fold_left visitDependency ds c).
Proof.
  revert c. induction ds as [|d ds IH]; intros c; simpl; [by split|].
  eapply KeepsRanges_trans; [apply KeepsRanges_visitDependency | apply IH].
Qed.

Lemma Map_set_keys_prefix {A V} `{EqDecision A} (k : A) (v : V) m :
  Map_keys m `prefix_of` Map_keys (Map_set k v m).
Proof.
  rewrite Map_set_keys. case_decide; [done|]. by apply prefix_app_r.
Qed.

Lemma Set_add_prefix {A} `{EqDecision A} (x : A) s : s `prefix_of` Set_add x s.
Proof. unfold Set_add. case_decide; [done|]. by apply prefix_app_r. Qed.

Lemma OnlyGrows_refl c : OnlyGrows c c.
Proof. by repeat split. Qed.

Lemma OnlyGrows_trans c1 c2 c3 :
  OnlyGrows c1 c2 → OnlyGrows c2 c3 → OnlyGrows c1 c3.
Proof.
  intros (Hd1 & Hp1 & Hh1) (Hd2 & Hp2 & Hh2). split; [|split].
  - intros i Hi. by apply Hd2, Hd1.
  - intros k Hk. by apply Hp2, Hp1.
  - intros r. destruct (Hh1 r) as [? ?], (Hh2 r) as [? ?].
    split; by etrans.
Qed.

Lemma OnlyGrows_visitDependency c d : OnlyGrows c (visitDependency c d).
Proof.
  destruct (visitDependency_context c d) as (Hd & _ & Hp & _).
  split; [by rewrite Hd|]. split; [by rewrite Hp|]. intros r.
  destruct (visitDependency_heap_fields c d r) as (_ & _ & ->).
  split; [|done]. rewrite visitDependency_heap. unfold promoteEscape.
  destruct (ctx_declarations c !! _) as [decl|]; [|done].
  destruct (decl_scope decl) as [s|]; [|done].
  destruct (isScopeActive c s); [done|]. simpl. unfold heap_update.
  case_decide; [|done]. simpl. apply Map_set_keys_prefix.
Qed.

Lemma OnlyGrows_fold ds c : OnlyGrows c (fold_left visitDependency ds c).
Proof.
  revert c. induction ds as [|d ds IH]; intros c; simpl;
    [apply OnlyGrows_refl|].
  eapply OnlyGrows_trans; [apply OnlyGrows_visitDependency | apply IH].
Qed.

Lemma OnlyGrows_visitReassignment c lv : OnlyGrows c (visitReassignment c lv).
Proof.
  destruct (visitReassignment_fields c lv) as (Hd & _ & _ & Hp & _ & _ & Hh).
  split; [by rewrite Hd|]. split; [by rewrite Hp|]. intros r.
  destruct (Hh r) as (_ & _ & ->). split; [done|].
  destruct (visitReassignment_cases c lv r) as [-> | ->];
    [done | apply Set_add_prefix].
Qed.

Lemma OnlyGrows_declareProperty c l o p :
  OnlyGrows c (declareProperty c l o p).
Proof.
  split; [done|]. split; [|done]. intros k Hk.
  unfold declareProperty. simpl.
  destruct (decide (identifier l = k)) as [<-|Hne].
  - by rewrite lookup_insert_eq.
  - by rewrite lookup_insert_ne.
Qed.

Lemma OnlyGrows_declareOutput c lv : OnlyGrows c (declareOutput c lv).
Proof.
  eapply OnlyGrows_trans; [apply OnlyGrows_visitReassignment|].
  unfold declareOutput, declare.
  split; [|split; [intros k Hk; exact Hk | intros r; split; reflexivity]].
  intros i Hi. simpl.
  destruct (decide (ident_id (identifier (lvalue_place lv)) = i))
    as [<-|Hne].
  - by rewrite lookup_insert_eq.
  - by rewrite lookup_insert_ne.
Qed.

Lemma OnlyGrows_scope c scope c' :
  OnlyGrows (enterScope c scope) c' → OnlyGrows c (leaveScope c scope c').
Proof.
  intros (Hd & Hp & Hh). unfold leaveScope.
  eapply OnlyGrows_trans; [|apply OnlyGrows_fold].
  split; [done|]. split; [done|]. simpl. intros r.
  rewrite heap_update_declarations, heap_update_reassignments by done.
  apply Hh.
Qed.

Section FrameClaims.
Variable eachInstructionValueOperand : ReactiveValue -> list Place.
Variable eachReactiveValueOperand : ReactiveValue -> list Place.
Variable inferReactiveIdentifiers : ReactiveFunction -> gset Identifier.

Abbreviation visit :=
  (visit eachInstructionValueOperand eachReactiveValueOperand).
Abbreviation pass :=
  (propagateScopeDependencies eachInstructionValueOperand
     eachReactiveValueOperand inferReactiveIdentifiers).

Lemma visit_KeepsRanges block c : KeepsRanges c (visit c block).
Proof.
  apply visit_rel.
  - by split.
  - apply KeepsRanges_trans.
  - intros c0 p. apply (KeepsRanges_visitDependency (set_next_obj _ c0)).
  - intros c0 o p. apply (KeepsRanges_visitDependency (set_next_obj _ c0)).
  - by split.
  - intros c0 lv.
    destruct (declareOutput_fields c0 lv) as (_ & Hr & _ & _ & _ & Hh).
    split; [done|]. intros r. by destruct (Hh r) as (? & _).
  - intros c0 scope c' [Hr Hh]. unfold leaveScope.
    eapply KeepsRanges_trans; [|apply KeepsRanges_fold].
    split; simpl; [done|]. intros r.
    by rewrite heap_update_range.
Qed.

(** X2. The pass never changes the range of a scope: after it every scope
    object has the range it came with. *)
Theorem X2_ranges_kept (fn : ReactiveFunction)
    (h : ScopeRef -> ReactiveScope) (r : ScopeRef) :
  range (heap (pass fn h) r) = range (h r).
Proof.
  destruct (visit_KeepsRanges (body fn)
              (functionContext inferReactiveIdentifiers fn h)) as [_ Hh].
  unfold propagateScopeDependencies. rewrite Hh.
  by destruct (functionContext_fields inferReactiveIdentifiers fn h)
    as (_ & _ & _ & ->).
Qed.

Lemma visit_OnlyGrows block c : OnlyGrows c (visit c block).
Proof.
  apply visit_rel.
  - apply OnlyGrows_refl.
  - apply OnlyGrows_trans.
  - intros c0 p. apply (OnlyGrows_visitDependency (set_next_obj _ c0)).
  - intros c0 o p. apply (OnlyGrows_visitDependency (set_next_obj _ c0)).
  - apply OnlyGrows_declareProperty.
  - apply OnlyGrows_declareOutput.
  - apply OnlyGrows_scope.
Qed.

(** X3. The walk only adds. An identifier id with a declaration record
    keeps one and an identifier with an alias keeps one; in every scope
    the keys of [declarations] and the members of [reassignments] that
    were there before the walk are there after it, in the same places:
    no escape and no reassignment is ever retracted. *)
Theorem X3_only_grows (block : ReactiveBlock) (c : Context) :
  (∀ i, is_Some (ctx_declarations c !! i) →
        is_Some (ctx_declarations (visit c block) !! i))
  ∧ (∀ k, is_Some (ctx_properties c !! k) →
          is_Some (ctx_properties (visit c block) !! k))
  ∧ ∀ r, Map_keys (declarations (heap c r))
         `prefix_of` Map_keys (declarations (heap (visit c block) r))
         ∧ reassignments (heap c r)
           `prefix_of` reassignments (heap (visit c block) r).
Proof. apply visit_OnlyGrows. Qed.
End FrameClaims.

(** ** Roots and escapes are declared *)

Lemma RootsDeclared_visitDependency c d :
  RootsDeclared c → RootsDeclared (visitDependency c d).
Proof.
  intros (Hdeps & Hheap & Hkeys).
  destruct (visitDependency_context c d) as (Ed & _).
  split; [|split].
  - intros x. rewrite Ed, visitDependency_dependencies.
    destruct (isDependency c _) eqn:E; [|apply Hdeps].
    intros [Hx | ->]%scanDependencies_incl; [by apply Hdeps|].
    apply isDependency_Qualifies in E as (C & decl & _ & Hl & _).
    unfold rootId. by rewrite Hl.
  - intros r x. rewrite Ed.
    destruct (visitDependency_heap_fields c d r) as (_ & -> & _).
    apply Hheap.
  - intros r k. rewrite Ed, visitDependency_heap. unfold promoteEscape.
    destruct (ctx_declarations c !! _) as [decl|] eqn:Hl; [|apply Hkeys].
    destruct (decl_scope decl) as [s|]; [|apply Hkeys].
    destruct (isScopeActive c s); [apply Hkeys|]. simpl.
    unfold heap_update. case_decide; [|apply Hkeys]. simpl.
    rewrite Map_set_keys. case_decide; [apply Hkeys|].
    intros [Hk | ->%list_elem_of_singleton]%elem_of_app;
      [by apply (Hkeys r)|].
    by rewrite Hl.
Qed.

Lemma RootsDeclared_fold ds c :
  RootsDeclared c → RootsDeclared (fold_left visitDependency ds c).
Proof.
  revert c. induction ds as [|d ds IH]; intros c Hc; simpl; [done|].
  by apply IH, RootsDeclared_visitDependency.
Qed.

Lemma RootsDeclared_grows c c' :
  (∀ i, is_Some (ctx_declarations c !! i) →
        is_Some (ctx_declarations c' !! i)) →
  ctx_dependencies c' = ctx_dependencies c →
  (∀ r, dependencies (heap c' r) = dependencies (heap c r)
        ∧ declarations (heap c' r) = declarations (heap c r)) →
  RootsDeclared c → RootsDeclared c'.
Proof.
  intros Hgrow Ed Eh (Hdeps & Hheap & Hkeys). split; [|split].
  - intros x Hx. rewrite Ed in Hx. by apply Hgrow, Hdeps.
  - intros r x Hx. destruct (Eh r) as (Er & _). rewrite Er in Hx.
    apply Hgrow. by apply (Hheap r).
  - intros r k Hk. destruct (Eh r) as (_ & Er). rewrite Er in Hk.
    apply Hgrow. by apply (Hkeys r).
Qed.

Lemma RootsDeclared_declareOutput c lv :
  RootsDeclared c → RootsDeclared (declareOutput c lv).
Proof.
  destruct (declareOutput_fields c lv) as (Ed & _ & _ & _ & _ & Eh).
  apply RootsDeclared_grows; [|done|].
  - intros i Hi. rewrite declareOutput_declarations.
    destruct (decide (ident_id (identifier (lvalue_place lv)) = i))
      as [<-|Hne].
    + by rewrite lookup_insert_eq.
    + by rewrite lookup_insert_ne.
  - intros r. by destruct (Eh r) as (_ & ? & ?).
Qed.

Lemma AliasesHavePaths_declareProperty c l o p :
  AliasesHavePaths c → AliasesHavePaths (declareProperty c l o p).
Proof.
  intros Hc k d. unfold declareProperty. simpl.
  destruct (decide (identifier l = k)) as [<-|Hne].
  - rewrite lookup_insert_eq. intros [= <-]. unfold nextDependency.
    destruct (ctx_properties c !! identifier o) as [od|]; simpl.
    + eexists. split; [done|]. by destruct (default [] (path od)).
    + by eexists.
  - rewrite lookup_insert_ne by done. apply Hc.
Qed.

Section DeclaredClaims.
Variable eachInstructionValueOperand : ReactiveValue -> list Place.
Variable eachReactiveValueOperand : ReactiveValue -> list Place.
Variable inferReactiveIdentifiers : ReactiveFunction -> gset Identifier.

Abbreviation visit :=
  (visit eachInstructionValueOperand eachReactiveValueOperand).
Abbreviation pass :=
  (propagateScopeDependencies eachInstructionValueOperand
     eachReactiveValueOperand inferReactiveIdentifiers).

Lemma visit_RootsDeclared block c :
  RootsDeclared c → RootsDeclared (visit c block).
Proof.
  assert (OnlyGrows c (visit c block)
          ∧ (RootsDeclared c → RootsDeclared (visit c block))) as [_ H];
    [|exact H].
  revert c.
  apply (visit_rel eachInstructionValueOperand eachReactiveValueOperand
           (λ c c', OnlyGrows c c'
                    ∧ (RootsDeclared c → RootsDeclared c'))).
  - intros c. split; [apply OnlyGrows_refl | done].
  - intros c1 c2 c3 [G12 H12] [G23 H23].
    split; [by apply OnlyGrows_trans with c2|]. intros H1. by apply H23, H12.
  - intros c p.
    split; [apply (OnlyGrows_visitDependency (set_next_obj _ c))|].
    intros Hc. by apply (RootsDeclared_visitDependency (set_next_obj _ c)).
  - intros c o p.
    split; [apply (OnlyGrows_visitDependency (set_next_obj _ c))|].
    intros Hc. by apply (RootsDeclared_visitDependency (set_next_obj _ c)).
  - intros c l o p. split; [apply OnlyGrows_declareProperty | done].
  - intros c lv.
    split; [apply OnlyGrows_declareOutput | apply RootsDeclared_declareOutput].
  - intros c scope c' [Hgrow Hbody].
    split; [by apply OnlyGrows_scope|].
    intros (Hdeps & Hheap & Hkeys).
    destruct Hbody as (Hdeps' & Hheap' & Hkeys').
    { split; [|done]. simpl. intros d Hd. by apply not_elem_of_nil in Hd. }
    destruct Hgrow as (Hgrow & _).
    apply RootsDeclared_fold. split; [|split]; simpl.
    + intros d Hd. by apply Hgrow, Hdeps.
    + intros r d. unfold heap_update.
      case_decide; [apply Hdeps' | apply Hheap'].
    + intros r k. rewrite heap_update_declarations by done. apply Hkeys'.
Qed.

(** X4. When every scope enters the pass with empty [dependencies] and
    [declarations], then after the pass the root of every entry of every
    scope's [dependencies] and every key of every scope's [declarations]
    has a record in the declaration table: an identifier that is never
    declared (a free variable) is neither a dependency nor an escape. *)
Theorem X4_roots_declared (fn : ReactiveFunction)
    (h : ScopeRef -> ReactiveScope) :
  (∀ r, dependencies (h r) = [] ∧ declarations (h r) = []) →
  ∀ r,
    (∀ d, d ∈ dependencies (heap (pass fn h) r) →
          is_Some (ctx_declarations (pass fn h) !! rootId d))
    ∧ (∀ k, k ∈ Map_keys (declarations (heap (pass fn h) r)) →
            is_Some (ctx_declarations (pass fn h) !! k)).
Proof.
  intros Hempty r.
  destruct (functionContext_fields inferReactiveIdentifiers fn h)
    as (Ed & _ & _ & Eh).
  destruct (visit_RootsDeclared (body fn)
              (functionContext inferReactiveIdentifiers fn h))
    as (_ & Hheap & Hkeys).
  { split; [|split].
    - rewrite Ed. intros d Hd. by apply not_elem_of_nil in Hd.
    - intros r' d. rewrite Eh. destruct (Hempty r') as [-> _].
      intros Hd. by apply not_elem_of_nil in Hd.
    - intros r' k. rewrite Eh. destruct (Hempty r') as [_ ->].
      intros Hk. by apply not_elem_of_nil in Hk. }
  split; [apply Hheap | apply Hkeys].
Qed.

Lemma visit_AliasesHavePaths block c :
  AliasesHavePaths c → AliasesHavePaths (visit c block).
Proof.
  revert c.
  apply (visit_rel eachInstructionValueOperand eachReactiveValueOperand
           (λ c c', AliasesHavePaths c → AliasesHavePaths c')).
  - done.
  - intros c1 c2 c3 H12 H23 H1. by apply H23, H12.
  - intros c p Hc k d. unfold visitOperand.
    destruct (visitDependency_context (set_next_obj (S (next_obj c)) c)
                (mkDep (next_obj c) p None)) as (_ & _ & -> & _).
    apply Hc.
  - intros c o p Hc k d. unfold visitProperty.
    destruct (visitDependency_context (set_next_obj (S (next_obj c)) c)
                (nextDependency c o p)) as (_ & _ & -> & _).
    apply Hc.
  - intros c l o p. apply AliasesHavePaths_declareProperty.
  - intros c lv Hc k d.
    destruct (declareOutput_fields c lv) as (_ & _ & -> & _). apply Hc.
  - intros c scope c' Hbody Hc k d. unfold leaveScope.
    assert (∀ ds c0, ctx_properties (fold_left visitDependency ds c0)
                     = ctx_properties c0) as Hfold.
    { induction ds as [|x ds IH]; intros c0; simpl; [done|]. rewrite IH.
      by destruct (visitDependency_context c0 x) as (_ & _ & ? & _). }
    rewrite Hfold. simpl. by apply Hbody.
Qed.

(** X5. Every alias the pass records has a path, and the path is not
    empty: the alias table of the final context holds path-qualified
    dependencies only, so an operand resolved through it is never a
    whole-value candidate. *)
Theorem X5_aliases_have_paths (fn : ReactiveFunction)
    (h : ScopeRef -> ReactiveScope) (k : Identifier)
    (d : ReactiveScopeDependency) :
  ctx_properties (pass fn h) !! k = Some d →
  ∃ p, path d = Some p ∧ p ≠ [].
Proof.
  apply (visit_AliasesHavePaths (body fn)
           (functionContext inferReactiveIdentifiers fn h)).
  intros k' d'. unfold functionContext.
  set (c0 := match fn_id fn with Some _ => _ | None => _ end).
  assert (∀ ps c, ctx_properties
                    (fold_left
                       (λ context param,
                          declare context (identifier param)
                            (mkDecl Dynamic (makeInstructionId 0) None))
                       ps c) = ctx_properties c) as Hfold.
  { induction ps as [|q ps IH]; intros c; simpl; [done|]. by rewrite IH. }
  rewrite Hfold. unfold c0. by destruct (fn_id fn).
Qed.
End DeclaredClaims.

(** ** The common leading part of two paths *)

Lemma commonPathIndex_le p q :
  commonPathIndex p q ≤ length p ∧ commonPathIndex p q ≤ length q.
Proof.
  revert q. induction p as [|x p IH]; intros [|y q]; simpl; try lia.
  case_decide; [|lia]. destruct (IH q). lia.
Qed.

Lemma commonPathIndex_take p q :
  take (commonPathIndex p q) p = take (commonPathIndex p q) q.
Proof.
  revert q. induction p as [|x p IH]; intros [|y q]; simpl; try done.
  case_decide as Hxy; [|done]. subst y. simpl. by rewrite IH.
Qed.

Lemma commonPathIndex_differs p q x y :
  p !! commonPathIndex p q = Some x →
  q !! commonPathIndex p q = Some y →
  x ≠ y.
Proof.
  revert q. induction p as [|a p IH]; intros [|b q]; simpl; try done.
  case_decide as Hab; simpl.
  - apply IH.
  - intros [= <-] [= <-]. done.
Qed.

Lemma commonPathIndex_prefix p q :
  commonPathIndex p q = length q ↔ q `prefix_of` p.
Proof.
  split.
  - intros Hn. exists (drop (length q) p).
    rewrite <- (take_drop (length q) p) at 1. f_equal.
    rewrite <- Hn, commonPathIndex_take, Hn. apply firstn_all.
  - intros [k ->]. revert k. induction q as [|y q IH]; intros k; simpl.
    + by destruct k.
    + by rewrite decide_True, IH.
Qed.

(** X6. The loop that compares two paths returns the length of their
    common leading part: up to that index the paths agree, at that index
    they differ when both go on, and the index is the length of the second
    path exactly when the second path leads the first. *)
Theorem X6_commonPathIndex (operandPath depPath : list string) :
  let n := commonPathIndex operandPath depPath in
  n ≤ length operandPath
  ∧ n ≤ length depPath
  ∧ take n operandPath = take n depPath
  ∧ (∀ x y, operandPath !! n = Some x → depPath !! n = Some y → x ≠ y)
  ∧ (n = length depPath ↔ depPath `prefix_of` operandPath).
Proof.
  intros n. subst n. destruct (commonPathIndex_le operandPath depPath).
  split; [done|]. split; [done|]. split; [apply commonPathIndex_take|].
  split; [apply commonPathIndex_differs | apply commonPathIndex_prefix].
Qed.

(** ** The merge step, case by case *)

Lemma covers_Covers p d e :
  path d = Some p → covers p d e = true ↔ Covers e d.
Proof.
  intros Hp. unfold covers, Covers.
  rewrite andb_true_iff, bool_decide_eq_true. split.
  - intros [Hid Hc]. split; [done|].
    destruct (path e) as [q|]; [right | by left].
    exists q, p. repeat split; try done.
    apply commonPathIndex_prefix. by apply bool_decide_eq_true in Hc.
  - intros [Hid [-> | (q & p' & -> & Hp' & Hpre)]]; [done|].
    split; [done|]. rewrite Hp in Hp'. injection Hp' as <-.
    apply bool_decide_eq_true. by apply commonPathIndex_prefix.
Qed.

Lemma existsb_covers_Covered p d deps :
  path d = Some p → existsb (covers p d) deps = true ↔ Covered deps d.
Proof.
  intros Hp. rewrite existsb_exists. unfold Covered. split.
  - intros (e & Hin & Hc). exists e.
    split; [by apply list_elem_of_In | by apply (covers_Covers p)].
  - intros (e & Hin & Hc). exists e.
    split; [by apply list_elem_of_In | by apply (covers_Covers p)].
Qed.

(** X7. A path-qualified candidate that qualifies is dropped, the working
    set staying as it is, exactly when some entry covers it (same root id
    and whole value, or a path that leads the candidate's path);
    otherwise it is put last and every entry stays. In particular once the
    whole value of a root is in the set no path under that root is added
    to it. *)
Theorem X7_merge_path_candidate (c : Context) (d : ReactiveScopeDependency)
    (p : list string) :
  path d = Some p →
  Qualifies c d →
  (Covered (ctx_dependencies c) d →
   ctx_dependencies (visitDependency c d) = ctx_dependencies c)
  ∧ (¬ Covered (ctx_dependencies c) d →
     ctx_dependencies (visitDependency c d) = ctx_dependencies c ++ [d]
     ∧ d ∉ ctx_dependencies c).
Proof.
  intros Hp HQ.
  rewrite (visitDependency_resolved c d (maybeDependency_path c d p Hp) HQ).
  destruct (scanDependencies_path_cases (ctx_dependencies c) d p Hp)
    as [(E & ->) | (E & Hni & ->)].
  - split; [done|]. intros Hno. destruct Hno.
    by apply (existsb_covers_Covered p).
  - split; [|done]. intros Hc.
    apply (existsb_covers_Covered p) in Hc; [|done]. by rewrite E in Hc.
Qed.

Lemma scanDependencies_skip all l rest d :
  (∀ x, x ∈ l → rootId x ≠ rootId d) →
  scanDependencies all (l ++ rest) d = scanDependencies all rest d.
Proof.
  induction l as [|x l IH]; intros Hl; simpl; [done|].
  rewrite decide_True by (apply Hl; left). apply IH.
  intros y Hy. apply Hl. by right.
Qed.

Lemma Set_delete_middle {A} `{EqDecision A} (x : A) l1 l2 :
  x ∉ l1 → Set_delete x (l1 ++ x :: l2) = l1 ++ l2.
Proof.
  induction l1 as [|y l1 IH]; intros Hni; simpl.
  - by rewrite decide_True.
  - rewrite decide_False by set_solver. f_equal. apply IH. set_solver.
Qed.

(** X8. A whole-value candidate that qualifies and is not replaced by an
    alias: when no entry has its root id it is put last; when the first
    entry with its root id stands for the whole value the working set
    stays as it is; when that first entry has a path, that entry (and no
    other) is taken out and the candidate is put last. *)
Theorem X8_merge_whole_candidate (c : Context) (d : ReactiveScopeDependency) :
  path d = None →
  maybeDependency c d = d →
  Qualifies c d →
  ((∀ x, x ∈ ctx_dependencies c → rootId x ≠ rootId d) →
   ctx_dependencies (visitDependency c d) = ctx_dependencies c ++ [d])
  ∧ (∀ l1 e l2,
       ctx_dependencies c = l1 ++ e :: l2 →
       (∀ x, x ∈ l1 → rootId x ≠ rootId d) →
       rootId e = rootId d →
       (path e = None →
        ctx_dependencies (visitDependency c d) = ctx_dependencies c)
       ∧ (path e ≠ None →
          ctx_dependencies (visitDependency c d) = Set_add d (l1 ++ l2))).
Proof.
  intros Hp Hm HQ. rewrite (visitDependency_resolved c d Hm HQ). split.
  - intros Hno.
    rewrite <- (app_nil_r (ctx_dependencies c)) at 2.
    rewrite scanDependencies_skip by done. simpl. unfold Set_add.
    rewrite decide_False; [done|]. intros Hin. by apply (Hno d).
  - intros l1 e l2 Hdeps Hl1 He.
    assert (scanDependencies (ctx_dependencies c) (ctx_dependencies c) d
            = match path e with
              | None => ctx_dependencies c
              | Some _ => Set_add d (Set_delete e (ctx_dependencies c))
              end) as ->.
    { rewrite Hdeps at 2. rewrite scanDependencies_skip by done. simpl.
      rewrite decide_False by (intros Hne; by apply Hne).
      destruct (path e); [|done]. by rewrite Hp. }
    destruct (path e) as [q|] eqn:Hq.
    + split; [done|]. intros _. rewrite Hdeps.
      rewrite Set_delete_middle; [done|].
      intros Hin. by apply (Hl1 e).
    + split; [done|]. by intros [].
Qed.

(** ** Coverage and upward propagation *)

Lemma Covers_refl d : Covers d d.
Proof.
  split; [done|]. destruct (path d) as [p|]; [right | by left].
  by exists p, p.
Qed.

Lemma Set_delete_other {A} `{EqDecision A} (x y : A) s :
  y ∈ s → y ≠ x → y ∈ Set_delete x s.
Proof.
  induction s as [|z s IH]; simpl; [done|]. intros Hy Hne.
  case_decide as Hz.
  - subst z. apply elem_of_cons in Hy as [->|Hy]; done.
  - apply elem_of_cons in Hy as [->|Hy]; [left | right; by apply IH].
Qed.

Lemma scanDependencies_Covered all rest d :
  rest ⊆ all → Covered (scanDependencies all rest d) d.
Proof.
  induction rest as [|dep rest IH]; intros Hsub; simpl.
  - exists d. split; [apply Set_add_elem | apply Covers_refl].
  - assert (dep ∈ all) as Hdep by (apply Hsub; left).
    assert (rest ⊆ all) as Hrest by (intros x Hx; apply Hsub; by right).
    case_decide as Hid; [by apply IH|].
    destruct (path dep) as [depPath|] eqn:Hdp.
    + destruct (path d) as [operandPath|] eqn:Hop.
      * case_decide as Hc; [|by apply IH].
        exists dep. split; [done|]. split; [done|]. right.
        exists depPath, operandPath. repeat split; try done.
        by apply commonPathIndex_prefix.
      * exists d. split; [apply Set_add_elem | apply Covers_refl].
    + exists dep. split; [done|]. split; [done | by left].
Qed.

Lemma scanDependencies_keeps_Covered all rest d x :
  Covered all x → Covered (scanDependencies all rest d) x.
Proof.
  intros (e & He & Hc). induction rest as [|dep rest IH]; simpl.
  - exists e. split; [by apply Set_add_incl | done].
  - case_decide as Hid; [done|].
    destruct (path dep) as [depPath|] eqn:Hdp; [|by exists e].
    destruct (path d) as [operandPath|] eqn:Hop.
    + case_decide; [by exists e | done].
    + destruct (decide (e = dep)) as [->|Hne].
      * exists d. split; [apply Set_add_elem|].
        destruct Hc as [Hroot _]. unfold Covers, rootId in *.
        split; [congruence | by left].
      * exists e. split; [|done].
        by apply Set_add_incl, Set_delete_other.
Qed.

Lemma visitDependency_Covered c d :
  Qualifies c (maybeDependency c d) →
  Covered (ctx_dependencies (visitDependency c d)) (maybeDependency c d).
Proof.
  intros HQ. rewrite visitDependency_dependencies.
  apply isDependency_Qualifies in HQ. rewrite HQ.
  by apply scanDependencies_Covered.
Qed.

Lemma visitDependency_keeps_Covered c d x :
  Covered (ctx_dependencies c) x →
  Covered (ctx_dependencies (visitDependency c d)) x.
Proof.
  intros Hx. rewrite visitDependency_dependencies.
  destruct (isDependency c _); [|done].
  by apply scanDependencies_keeps_Covered.
Qed.

(** X9. After a candidate that qualifies has been offered, the working
    set covers it: some entry has its root id and stands for the whole
    value or for a leading part of its path. And whatever is offered
    afterwards, a candidate that is covered stays covered. *)
Theorem X9_coverage (c : Context) (d x : ReactiveScopeDependency) :
  let candidate := maybeDependency c d in
  (Qualifies c candidate →
   Covered (ctx_dependencies (visitDependency c d)) candidate)
  ∧ (Covered (ctx_dependencies c) x →
     Covered (ctx_dependencies (visitDependency c d)) x).
Proof.
  split; [apply visitDependency_Covered | apply visitDependency_keeps_Covered].
Qed.

Lemma fold_visitDependency_context ds c :
  ctx_declarations (fold_left visitDependency ds c) = ctx_declarations c
  ∧ ctx_properties (fold_left visitDependency ds c) = ctx_properties c
  ∧ ctx_scopes (fold_left visitDependency ds c) = ctx_scopes c
  ∧ ∀ r, range (heap (fold_left visitDependency ds c) r) = range (heap c r).
Proof.
  revert c. induction ds as [|d ds IH]; intros c; simpl; [done|].
  destruct (IH (visitDependency c d)) as (-> & -> & -> & Hr).
  destruct (visitDependency_context c d) as (-> & _ & -> & -> & _).
  repeat split. intros r. rewrite Hr.
  by destruct (visitDependency_heap_fields c d r) as (? & _).
Qed.

Lemma Qualifies_ext c c' d :
  ctx_scopes c' = ctx_scopes c →
  ctx_declarations c' = ctx_declarations c →
  (∀ r, range (heap c' r) = range (heap c r)) →
  Qualifies c' d ↔ Qualifies c d.
Proof.
  intros Hs Hd Hr.
  by rewrite <- !isDependency_Qualifies, (isDependency_ext c c').
Qed.

Lemma Qualifies_fold ds c d :
  Qualifies (fold_left visitDependency ds c) d ↔ Qualifies c d.
Proof.
  destruct (fold_visitDependency_context ds c) as (? & _ & ? & ?).
  by apply Qualifies_ext.
Qed.

Lemma maybeDependency_fold ds c d :
  maybeDependency (fold_left visitDependency ds c) d = maybeDependency c d.
Proof.
  destruct (fold_visitDependency_context ds c) as (_ & Hp & _).
  unfold maybeDependency. by rewrite Hp.
Qed.

Lemma fold_visitDependency_keeps_Covered ds c x :
  Covered (ctx_dependencies c) x →
  Covered (ctx_dependencies (fold_left visitDependency ds c)) x.
Proof.
  revert c. induction ds as [|d ds IH]; intros c Hx; simpl; [done|].
  apply IH. by apply visitDependency_keeps_Covered.
Qed.

Lemma fold_visitDependency_Covered ds c d :
  d ∈ ds →
  Qualifies c (maybeDependency c d) →
  Covered (ctx_dependencies (fold_left visitDependency ds c))
    (maybeDependency c d).
Proof.
  revert c. induction ds as [|y ds IH]; intros c Hin HQ; simpl.
  - by apply not_elem_of_nil in Hin.
  - destruct (decide (d = y)) as [->|Hne].
    + apply fold_visitDependency_keeps_Covered.
      by apply visitDependency_Covered.
    + apply elem_of_cons in Hin as [->|Hin]; [done|].
      rewrite <- (maybeDependency_visitDependency c y d).
      apply IH; [done|].
      rewrite maybeDependency_visitDependency.
      by apply Qualifies_visitDependency.
Qed.

Lemma fold_visitDependency_adds ds c x :
  x ∈ ctx_dependencies (fold_left visitDependency ds c) →
  x ∈ ctx_dependencies c
  ∨ ∃ d, d ∈ ds ∧ x = maybeDependency c d ∧ Qualifies c x.
Proof.
  revert c. induction ds as [|y ds IH]; intros c Hx; simpl in Hx;
    [by left|].
  apply IH in Hx as [Hx | (d & Hd & -> & HQ)].
  - rewrite visitDependency_dependencies in Hx.
    destruct (isDependency c _) eqn:E; [|by left].
    apply scanDependencies_incl in Hx as [Hx | ->]; [by left|].
    right. exists y. split; [left|]. split; [done|].
    by apply isDependency_Qualifies.
  - right. exists d. split; [by right|].
    rewrite maybeDependency_visitDependency in *.
    split; [done|]. by apply Qualifies_visitDependency in HQ.
Qed.

Section PropagationClaims.
Variable eachInstructionValueOperand : ReactiveValue -> list Place.
Variable eachReactiveValueOperand : ReactiveValue -> list Place.

Abbreviation visitStatement :=
  (visitStatement eachInstructionValueOperand eachReactiveValueOperand).
Abbreviation visit :=
  (visit eachInstructionValueOperand eachReactiveValueOperand).

(** X10. Upward propagation reaches the enclosing working set. After a
    scope item, the scope's [dependencies] are the working set its body
    collected, and every entry of it whose resolved candidate qualifies in
    the enclosing context is covered by the enclosing working set. *)
Theorem X10_propagation_covers (c : Context) (S : ScopeRef)
    (instructions : ReactiveBlock) (d : ReactiveScopeDependency) :
  let c' := visitStatement c (ScopeItem S instructions) in
  dependencies (heap c' S)
  = ctx_dependencies (visit (enterScope c S) instructions)
  ∧ (d ∈ dependencies (heap c' S) →
     Qualifies c' (maybeDependency c' d) →
     Covered (ctx_dependencies c') (maybeDependency c' d)).
Proof.
  intros c'. subst c'. rewrite visitStatement_scope.
  rewrite leaveScope_dependencies. split; [done|]. unfold leaveScope.
  intros Hd. rewrite maybeDependency_fold, Qualifies_fold.
  by apply fold_visitDependency_Covered.
Qed.

(** X11. Upward propagation adds nothing of its own. After a scope item
    every entry of the enclosing working set was there before the item or
    is the resolved candidate of an entry of the scope's [dependencies],
    and then it qualifies in the enclosing context. *)
Theorem X11_propagation_adds_only (c : Context) (S : ScopeRef)
    (instructions : ReactiveBlock) (x : ReactiveScopeDependency) :
  let c' := visitStatement c (ScopeItem S instructions) in
  x ∈ ctx_dependencies c' →
  x ∈ ctx_dependencies c
  ∨ ∃ d, d ∈ dependencies (heap c' S)
         ∧ x = maybeDependency c' d ∧ Qualifies c' x.
Proof.
  intros c'. subst c'. rewrite visitStatement_scope.
  rewrite leaveScope_dependencies. unfold leaveScope. intros Hx.
  apply fold_visitDependency_adds in Hx as [Hx | (d & Hd & -> & HQ)];
    [by left|].
  right. exists d. rewrite maybeDependency_fold, Qualifies_fold. by repeat split.
Qed.
End PropagationClaims.

(** ** Chains of property loads of any length *)

Lemma nextDependency_alias c o p :
  nextDependency c o p
  = mkDep (next_obj c) (aliasRoot c o) (Some (aliasPath c o ++ [p])).
Proof.
  unfold nextDependency, aliasRoot, aliasPath.
  by destruct (ctx_properties c !! identifier o).
Qed.

Lemma lastPlace_cons o i lv p rest :
  lastPlace o ((i, lv, p) :: rest) = lastPlace (lvalue_place lv) rest.
Proof.
  reflexivity.
Qed.

Section LongChainClaim.
Variable eachInstructionValueOperand : ReactiveValue -> list Place.
Variable eachReactiveValueOperand : ReactiveValue -> list Place.

Abbreviation visitInstruction := (visitInstruction eachReactiveValueOperand).
Abbreviation visit :=
  (visit eachInstructionValueOperand eachReactiveValueOperand).

Lemma loadChain_loads o steps : Forall LoadWithOutput (loadChain o steps).
Proof.
  revert o. induction steps as [|[[i lv] p] rest IH]; intros o; simpl;
    [done|].
  apply Forall_cons. split; [|apply IH]. by exists i, lv, o, p.
Qed.

Lemma loadChain_alias steps c o :
  steps ≠ [] →
  ctx_properties (visit c (loadChain o steps)) !! identifier (lastPlace o steps)
  = Some (mkDep (next_obj c + length steps - 1) (aliasRoot c o)
            (Some (aliasPath c o ++ map (λ s, s.2) steps))).
Proof.
  revert c o. induction steps as [|[[i lv] p] rest IH]; intros c o Hne;
    [done|].
  rewrite lastPlace_cons. cbn [loadChain].
  change (visit c (?x :: ?b))
    with (visit (visitInstruction c
                   (mkInstruction i (Some lv) (PropertyLoad o p))) b).
  destruct (visitInstruction_load eachReactiveValueOperand c i lv o p)
    as (Hp & _ & _ & Hn & _).
  remember (visitInstruction c (mkInstruction i (Some lv) (PropertyLoad o p)))
    as c1 eqn:Ec1. clear Ec1.
  rewrite nextDependency_alias in Hp.
  destruct rest as [|s rest].
  - simpl. rewrite Hp, lookup_insert_eq. do 2 f_equal. lia.
  - rewrite IH by done.
    assert (aliasRoot c1 (lvalue_place lv) = aliasRoot c o) as ->.
    { unfold aliasRoot at 1. by rewrite Hp, lookup_insert_eq. }
    assert (aliasPath c1 (lvalue_place lv) = aliasPath c o ++ [p]) as ->.
    { unfold aliasPath at 1. by rewrite Hp, lookup_insert_eq. }
    rewrite Hn. simpl. rewrite <- app_assoc. do 2 f_equal. lia.
Qed.

Lemma loadChain_declarations steps c o j :
  (∀ s, s ∈ steps → ident_id (identifier (lvalue_place s.1.2)) ≠ j) →
  ctx_declarations (visit c (loadChain o steps)) !! j
  = ctx_declarations c !! j.
Proof.
  revert c o. induction steps as [|[[i lv] p] rest IH]; intros c o Hj;
    [done|].
  cbn [loadChain].
  change (visit c (?x :: ?b))
    with (visit (visitInstruction c
                   (mkInstruction i (Some lv) (PropertyLoad o p))) b).
  rewrite IH by (intros s Hs; apply Hj; by right).
  apply visitInstruction_load_declarations.
  intros ->. by apply (Hj (i, lv, p)); [left|].
Qed.
(** X12. A chain of property loads of any length is compressed into one
    dependency. Inside a scope item for [S], after the loads
    [t1 = obj.p1; t2 = t1.p2; ...; tn = t(n-1).pn] an instruction whose
    only operand is the anonymous [tn] leaves exactly one entry in
    [S.dependencies]: the root [obj] with the path [p1, ..., pn]; here
    [obj] has no alias, a Dynamic declaration made before the start of
    [S] and no owning scope that is open or is [S], and no output of the
    chain has the id of [obj]. *)
Theorem X12_long_chain (c : Context) (S : ScopeRef) (obj t' : Place)
    (steps : list (InstructionId * LValue * string)) (i3 : InstructionId)
    (lv3 : option LValue) (use : ReactiveValue) (decl : Decl) :
  steps ≠ [] →
  identifier t' = identifier (lastPlace obj steps) →
  ident_name (identifier t') = None →
  (∀ s, s ∈ steps →
        ident_id (identifier (lvalue_place s.1.2))
        ≠ ident_id (identifier obj)) →
  ctx_properties c !! identifier obj = None →
  ctx_declarations c !! ident_id (identifier obj) = Some decl →
  decl_kind decl = Dynamic →
  decl_id decl < range_start (range (heap c S)) →
  (decl_scope decl = None
   ∨ ∃ T, decl_scope decl = Some T ∧ (T ∉ ctx_scopes c) ∧ T ≠ S) →
  (∀ o p, use ≠ PropertyLoad o p) →
  eachReactiveValueOperand use = [t'] →
  dependencies
    (heap (visit c
             [ScopeItem S
                (loadChain obj steps
                 ++ [InstructionItem (mkInstruction i3 lv3 use)])]) S)
  = [mkDep (next_obj c + length steps - 1) obj
       (Some (map (λ s, s.2) steps))].
Proof.
  intros Hne Ht Hname Hids Halias Hdecl Hkind Hbefore Hscope Huse Hops.
  change (visit c [ScopeItem S ?b])
    with (leaveScope c S (visit (enterScope c S) b)).
  rewrite leaveScope_dependencies, visit_app.
  pose proof (loadChain_alias steps (enterScope c S) obj Hne) as Hp.
  pose proof (loadChain_declarations steps (enterScope c S) obj
                (ident_id (identifier obj)) Hids) as Hl.
  destruct (visit_loads eachInstructionValueOperand eachReactiveValueOperand
              (enterScope c S) (loadChain obj steps) (loadChain_loads obj steps))
    as [Hd _].
  destruct (visit_KeepsTopLevel eachInstructionValueOperand
              eachReactiveValueOperand (loadChain obj steps) (enterScope c S))
    as [Hs _].
  destruct (visit_KeepsRanges eachInstructionValueOperand
              eachReactiveValueOperand (loadChain obj steps) (enterScope c S))
    as [_ Hr].
  remember (visit (enterScope c S) (loadChain obj steps)) as c1 eqn:Ec1.
  clear Ec1.
  assert (aliasRoot (enterScope c S) obj = obj) as Hroot.
  { unfold aliasRoot. simpl. by rewrite Halias. }
  assert (aliasPath (enterScope c S) obj = []) as Hpath.
  { unfold aliasPath. simpl. by rewrite Halias. }
  rewrite Hroot, Hpath in Hp. simpl in Hp.
  set (alias := mkDep (next_obj c + length steps - 1) obj
                  (Some (map (λ s, s.2) steps))) in *.
  change (visit c1 [InstructionItem (mkInstruction i3 lv3 use)])
    with (visitInstruction c1 (mkInstruction i3 lv3 use)).
  rewrite visitInstruction_dependencies.
  rewrite visitInstructionValue_operands, Hops by done. simpl.
  unfold visitOperand.
  assert (maybeDependency (set_next_obj (Datatypes.S (next_obj c1)) c1)
            (mkDep (next_obj c1) t' None) = alias) as Hm.
  { unfold maybeDependency. simpl. by rewrite Hname, Ht, Hp. }
  rewrite visitDependency_dependencies, Hm.
  assert (Qualifies (set_next_obj (Datatypes.S (next_obj c1)) c1) alias)
    as HQ.
  { exists S, decl. simpl. split; [|split; [|split; [|split]]].
    - unfold currentScope. simpl. rewrite Hs. simpl. apply last_snoc.
    - by rewrite Hl.
    - done.
    - by rewrite Hr.
    - destruct Hscope as [?|(T & ? & HT & HTS)]; [by left|right].
      exists T. split; [done|]. rewrite Hs. simpl.
      rewrite elem_of_app, list_elem_of_singleton. tauto. }
  apply isDependency_Qualifies in HQ. rewrite HQ. simpl. by rewrite Hd.
Qed.
End LongChainClaim.

(** ** Scopes outside the block *)

Lemma KeepsDependencies_visitDependency c d :
  KeepsDependencies c (visitDependency c d).
Proof.
  intros r. by destruct (visitDependency_heap_fields c d r) as (_ & ? & _).
Qed.

Lemma KeepsDependencies_trans c1 c2 c3 :
  KeepsDependencies c1 c2 → KeepsDependencies c2 c3 →
  KeepsDependencies c1 c3.
Proof. intros H1 H2 r. by rewrite H2, H1. Qed.

Lemma KeepsDependencies_declareOutput c lv :
  KeepsDependencies c (declareOutput c lv).
Proof.
  intros r. destruct (declareOutput_fields c lv) as (_ & _ & _ & _ & _ & Hh).
  by destruct (Hh r) as (_ & ? & _).
Qed.

Section OutsideClaims.
Variable eachInstructionValueOperand : ReactiveValue -> list Place.
Variable eachReactiveValueOperand : ReactiveValue -> list Place.
Variable inferReactiveIdentifiers : ReactiveFunction -> gset Identifier.

Abbreviation visitInstruction := (visitInstruction eachReactiveValueOperand).
Abbreviation visitReactiveValue :=
  (visitReactiveValue eachInstructionValueOperand eachReactiveValueOperand).
Abbreviation visitStatement :=
  (visitStatement eachInstructionValueOperand eachReactiveValueOperand).
Abbreviation visitTerminal :=
  (visitTerminal eachInstructionValueOperand eachReactiveValueOperand).
Abbreviation visitCase :=
  (visitCase eachInstructionValueOperand eachReactiveValueOperand).
Abbreviation visit :=
  (visit eachInstructionValueOperand eachReactiveValueOperand).
Abbreviation pass :=
  (propagateScopeDependencies eachInstructionValueOperand
     eachReactiveValueOperand inferReactiveIdentifiers).

Lemma visitInstruction_KeepsDependencies c i :
  KeepsDependencies c (visitInstruction c i).
Proof.
  apply visitInstruction_rel.
  - done.
  - apply KeepsDependencies_trans.
  - intros c0 p. apply (KeepsDependencies_visitDependency (set_next_obj _ c0)).
  - intros c0 o p.
    apply (KeepsDependencies_visitDependency (set_next_obj _ c0)).
  - done.
  - apply KeepsDependencies_declareOutput.
Qed.

Lemma visitReactiveValue_KeepsDependencies v c :
  KeepsDependencies c (visitReactiveValue c v).
Proof.
  apply visitReactiveValue_rel.
  - done.
  - apply KeepsDependencies_trans.
  - intros c0 p. apply (KeepsDependencies_visitDependency (set_next_obj _ c0)).
  - intros c0 o p.
    apply (KeepsDependencies_visitDependency (set_next_obj _ c0)).
  - done.
  - apply KeepsDependencies_declareOutput.
Qed.

Lemma visitOperand_KeepsDependencies c p :
  KeepsDependencies c (visitOperand c p).
Proof. apply (KeepsDependencies_visitDependency (set_next_obj _ c)). Qed.

Lemma list_all_outside {A} (f : Context -> A -> Context)
    (g : A -> list ScopeRef) (l : list A) r :
  list_all A
    (λ x, ∀ c, r ∉ g x →
               dependencies (heap (f c x) r) = dependencies (heap c r)) l →
  ∀ c, r ∉ flat_map g l →
       dependencies (heap (fold_left f l c) r) = dependencies (heap c r).
Proof.
  induction 1 as [|x Hx l Hl IH]; intros c Hr; simpl; [done|].
  simpl in Hr. rewrite elem_of_app in Hr.
  rewrite IH by tauto. apply Hx. tauto.
Qed.

Lemma visitStatement_outside item r :
  ∀ c, r ∉ scopesOfStatement item →
       dependencies (heap (visitStatement c item) r)
       = dependencies (heap c r).
Proof.
  induction item using ReactiveStatement_mut
    with (P0 := λ t, ∀ c, r ∉ scopesOfTerminal t →
                          dependencies (heap (visitTerminal c t) r)
                          = dependencies (heap c r))
         (P1 := λ k, ∀ c, r ∉ scopesOfCase k →
                          dependencies (heap (visitCase c k) r)
                          = dependencies (heap c r)); intros c Hr.
  - rewrite visitStatement_scope. unfold leaveScope.
    cbn [scopesOfStatement] in Hr. apply not_elem_of_cons in Hr as [Hne Hr].
    rewrite fold_visitDependency_heap_dependencies. simpl.
    rewrite heap_update_ne by done.
    change (dependencies (heap c r))
      with (dependencies (heap (enterScope c scope) r)).
    by apply (list_all_outside visitStatement scopesOfStatement).
  - apply visitInstruction_KeepsDependencies.
  - by apply IHitem.
  - done.
  - done.
  - destruct value; [apply visitOperand_KeepsDependencies | done].
  - apply visitOperand_KeepsDependencies.
  - simpl. rewrite (list_all_outside _ scopesOfStatement) by done.
    rewrite !visitReactiveValue_KeepsDependencies. done.
  - simpl. rewrite (list_all_outside _ scopesOfStatement) by done.
    apply visitReactiveValue_KeepsDependencies.
  - simpl. cbn [scopesOfTerminal] in Hr. rewrite elem_of_app in Hr.
    match goal with H : option_all _ _ _ |- _ => destruct H end.
    + rewrite (list_all_outside _ scopesOfStatement) by tauto.
      rewrite (list_all_outside _ scopesOfStatement) by tauto.
      apply visitOperand_KeepsDependencies.
    + rewrite (list_all_outside _ scopesOfStatement) by tauto.
      apply visitOperand_KeepsDependencies.
  - simpl. rewrite (list_all_outside _ scopesOfCase) by done.
    apply visitOperand_KeepsDependencies.
  - match goal with H : option_all _ _ _ |- _ => destruct H end; simpl;
      [|done].
    by rewrite (list_all_outside _ scopesOfStatement).
Qed.

Lemma visit_outside block c r :
  r ∉ scopesOf block →
  dependencies (heap (visit c block) r) = dependencies (heap c r).
Proof.
  intros Hr. apply (list_all_outside _ scopesOfStatement); [|done].
  clear Hr. induction block as [|item block IH]; constructor; [|done].
  intros c0. apply visitStatement_outside.
Qed.

(** X13. The [dependencies] of a scope are written only by the scope items
    for that scope: the walk of a block leaves the [dependencies] of every
    scope that has no scope item in the block as they were. So what
    follows a scope item in a block does not change the dependencies the
    item collected, unless it holds a scope item for the same scope; and
    the pass leaves the [dependencies] of every scope that is not in the
    body of the function as they came. *)
Theorem X13_dependencies_outside (block rest : ReactiveBlock) (c : Context)
    (fn : ReactiveFunction) (h : ScopeRef -> ReactiveScope) (r : ScopeRef) :
  (r ∉ scopesOf block →
   dependencies (heap (visit c block) r) = dependencies (heap c r))
  ∧ (r ∉ scopesOf rest →
     dependencies (heap (visit c (block ++ rest)) r)
     = dependencies (heap (visit c block) r))
  ∧ (r ∉ scopesOf (body fn) →
     dependencies (heap (pass fn h) r) = dependencies (h r)).
Proof.
  split; [apply visit_outside|]. split.
  - intros Hr. rewrite visit_app. by apply visit_outside.
  - intros Hr. unfold propagateScopeDependencies.
    rewrite visit_outside by done.
    by destruct (functionContext_fields inferReactiveIdentifiers fn h)
      as (_ & _ & _ & ->).
Qed.
End OutsideClaims.

(** ** Outside every scope *)

Lemma AtTopLevel_visitDependency c d : AtTopLevel c → visitDependency c d = c.
Proof.
  intros [Hs Hd]. unfold visitDependency.
  assert (promoteEscape c (maybeDependency c d) = c) as ->.
  { unfold promoteEscape.
    destruct (ctx_declarations c !! _) as [decl|] eqn:Hl; [|done].
    by rewrite (Hd _ _ Hl). }
  unfold isDependency, currentScope. by rewrite Hs.
Qed.

Lemma KeepsHeap_trans c1 c2 c3 :
  KeepsHeap c1 c2 → KeepsHeap c2 c3 → KeepsHeap c1 c3.
Proof.
  intros H12 H23 H1. destruct (H12 H1) as [H2 E2].
  destruct (H23 H2) as [H3 E3]. split; [done | congruence].
Qed.

Lemma KeepsHeap_visitOperand c p : KeepsHeap c (visitOperand c p).
Proof.
  intros Hc. unfold visitOperand.
  by rewrite (AtTopLevel_visitDependency (set_next_obj _ c)).
Qed.

Lemma KeepsHeap_visitProperty c o p : KeepsHeap c (visitProperty c o p).
Proof.
  intros Hc. unfold visitProperty.
  by rewrite (AtTopLevel_visitDependency (set_next_obj _ c)).
Qed.

Lemma KeepsHeap_declareOutput c lv : KeepsHeap c (declareOutput c lv).
Proof.
  intros [Hs Hd]. unfold declareOutput.
  assert (visitReassignment c lv = c) as ->.
  { unfold visitReassignment, currentScope. rewrite Hs.
    by destruct (lvalue_kind lv). }
  split; [|done]. split; [done|]. intros i decl. unfold declare. simpl.
  destruct (decide (ident_id (identifier (lvalue_place lv)) = i))
    as [<-|Hne].
  - rewrite lookup_insert_eq. intros [= <-]. simpl.
    unfold currentScope. by rewrite Hs.
  - rewrite lookup_insert_ne by done. apply Hd.
Qed.

Section TopLevelClaims.
Variable eachInstructionValueOperand : ReactiveValue -> list Place.
Variable eachReactiveValueOperand : ReactiveValue -> list Place.
Variable inferReactiveIdentifiers : ReactiveFunction -> gset Identifier.

Abbreviation visitInstruction := (visitInstruction eachReactiveValueOperand).
Abbreviation visitReactiveValue :=
  (visitReactiveValue eachInstructionValueOperand eachReactiveValueOperand).
Abbreviation visitStatement :=
  (visitStatement eachInstructionValueOperand eachReactiveValueOperand).
Abbreviation visitTerminal :=
  (visitTerminal eachInstructionValueOperand eachReactiveValueOperand).
Abbreviation visitCase :=
  (visitCase eachInstructionValueOperand eachReactiveValueOperand).
Abbreviation visit :=
  (visit eachInstructionValueOperand eachReactiveValueOperand).
Abbreviation pass :=
  (propagateScopeDependencies eachInstructionValueOperand
     eachReactiveValueOperand inferReactiveIdentifiers).

Lemma visitInstruction_KeepsHeap c i : KeepsHeap c (visitInstruction c i).
Proof.
  apply visitInstruction_rel.
  - done.
  - apply KeepsHeap_trans.
  - apply KeepsHeap_visitOperand.
  - apply KeepsHeap_visitProperty.
  - done.
  - apply KeepsHeap_declareOutput.
Qed.

Lemma visitReactiveValue_KeepsHeap v c : KeepsHeap c (visitReactiveValue c v).
Proof.
  apply visitReactiveValue_rel.
  - done.
  - apply KeepsHeap_trans.
  - apply KeepsHeap_visitOperand.
  - apply KeepsHeap_visitProperty.
  - done.
  - apply KeepsHeap_declareOutput.
Qed.

Lemma list_all_KeepsHeap {A} (f : Context -> A -> Context)
    (g : A -> list ScopeRef) (l : list A) :
  list_all A (λ x, g x = [] → ∀ c, KeepsHeap c (f c x)) l →
  flat_map g l = [] → ∀ c, KeepsHeap c (fold_left f l c).
Proof.
  induction 1 as [|x Hx l Hl IH]; intros Hnil c; simpl; [done|].
  simpl in Hnil. apply app_eq_nil in Hnil as [Hg Hnil].
  eapply KeepsHeap_trans; [by apply Hx | by apply IH].
Qed.

Lemma visitStatement_KeepsHeap item :
  scopesOfStatement item = [] → ∀ c, KeepsHeap c (visitStatement c item).
Proof.
  induction item using ReactiveStatement_mut
    with (P0 := λ t, scopesOfTerminal t = [] →
                     ∀ c, KeepsHeap c (visitTerminal c t))
         (P1 := λ k, scopesOfCase k = [] →
                     ∀ c, KeepsHeap c (visitCase c k)); intros Hnil c.
  - done.
  - apply visitInstruction_KeepsHeap.
  - by apply IHitem.
  - done.
  - done.
  - destruct value; [apply KeepsHeap_visitOperand | done].
  - apply KeepsHeap_visitOperand.
  - simpl.
    eapply KeepsHeap_trans; [|by apply (list_all_KeepsHeap _ scopesOfStatement)].
    eapply KeepsHeap_trans; [|apply visitReactiveValue_KeepsHeap].
    eapply KeepsHeap_trans; apply visitReactiveValue_KeepsHeap.
  - simpl.
    eapply KeepsHeap_trans; [|by apply (list_all_KeepsHeap _ scopesOfStatement)].
    apply visitReactiveValue_KeepsHeap.
  - simpl. cbn [scopesOfTerminal] in Hnil.
    apply app_eq_nil in Hnil as [Hc Ha].
    assert (KeepsHeap c (fold_left visitStatement consequent
                           (visitOperand c test))) as Hcons.
    { eapply KeepsHeap_trans; [apply KeepsHeap_visitOperand|].
      by apply (list_all_KeepsHeap _ scopesOfStatement). }
    match goal with H : option_all _ _ _ |- _ => destruct H end; [|done].
    eapply KeepsHeap_trans; [apply Hcons|].
    by apply (list_all_KeepsHeap _ scopesOfStatement).
  - simpl.
    eapply KeepsHeap_trans; [apply KeepsHeap_visitOperand|].
    by apply (list_all_KeepsHeap _ scopesOfCase).
  - match goal with H : option_all _ _ _ |- _ => destruct H end; simpl;
      [|done].
    by apply (list_all_KeepsHeap _ scopesOfStatement).
Qed.

Lemma visit_KeepsHeap block c :
  scopesOf block = [] → KeepsHeap c (visit c block).
Proof.
  intros Hnil. apply (list_all_KeepsHeap _ scopesOfStatement); [|done].
  clear Hnil. induction block as [|item block IH]; constructor; [|done].
  intros Hnil c0. by apply visitStatement_KeepsHeap.
Qed.

(** X14. A function whose body holds no scope item: the pass leaves every
    scope object exactly as it came, and ends outside every scope with no
    declaration owned by a scope. *)
Theorem X14_no_scope_no_change (fn : ReactiveFunction)
    (h : ScopeRef -> ReactiveScope) :
  scopesOf (body fn) = [] →
  heap (pass fn h) = h ∧ AtTopLevel (pass fn h).
Proof.
  intros Hnil. unfold propagateScopeDependencies.
  destruct (functionContext_fields inferReactiveIdentifiers fn h)
    as (_ & _ & Hs & Hh).
  destruct (visit_KeepsHeap (body fn)
              (functionContext inferReactiveIdentifiers fn h) Hnil)
    as [Htop Heq].
  - split; [done|]. intros i decl Hl.
    destruct (decide (i ∈ paramIds fn)) as [Hi|Hi].
    + apply list_elem_of_fmap in Hi as (p & -> & Hp).
      destruct (functionContext_declarations inferReactiveIdentifiers fn h)
        as [Hin _].
      rewrite (Hin p Hp) in Hl. by injection Hl as <-.
    + destruct (functionContext_declarations inferReactiveIdentifiers fn h)
        as [_ Hout].
      rewrite (Hout i Hi) in Hl. destruct (fn_id fn) as [f|]; [|done].
      destruct (decide (ident_id f = i)) as [<-|Hne].
      * rewrite lookup_singleton_eq in Hl. by injection Hl as <-.
      * by rewrite lookup_singleton_ne in Hl.
  - split; [congruence | done].
Qed.
End TopLevelClaims.

(** ** The record of an output *)

Lemma KeepsTables_visitDependency c d : KeepsTables c (visitDependency c d).
Proof.
  by destruct (visitDependency_context c d) as (? & ? & _ & ? & _).
Qed.

Lemma KeepsTables_trans c1 c2 c3 :
  KeepsTables c1 c2 → KeepsTables c2 c3 → KeepsTables c1 c3.
Proof.
  intros (? & ? & ?) (? & ? & ?). repeat split; congruence.
Qed.

Section OutputClaim.
Variable eachReactiveValueOperand : ReactiveValue -> list Place.

Abbreviation visitInstructionValue :=
  (visitInstructionValue eachReactiveValueOperand).
Abbreviation visitInstruction := (visitInstruction eachReactiveValueOperand).

Lemma visitInstructionValue_KeepsTables c v lv :
  KeepsTables c (visitInstructionValue c v lv).
Proof.
  apply visitInstructionValue_rel.
  - done.
  - apply KeepsTables_trans.
  - intros c0 p. apply (KeepsTables_visitDependency (set_next_obj _ c0)).
  - intros c0 o p. apply (KeepsTables_visitDependency (set_next_obj _ c0)).
  - done.
Qed.

Lemma visitInstruction_declarations c i lv v :
  ctx_declarations (visitInstruction c (mkInstruction i (Some lv) v))
  = <[ident_id (identifier (lvalue_place lv)) :=
        mkDecl (if isReactive c (identifier (lvalue_place lv))
                then Dynamic else Const)
          (range_start (ident_mutableRange (identifier (lvalue_place lv))))
          (currentScope c)]> (ctx_declarations c).
Proof.
  rewrite visitInstruction_output, declareOutput_declarations.
  destruct (visitInstructionValue_KeepsTables c v (Some lv))
    as (Hs & Hd & Hr).
  unfold isReactive, currentScope. by rewrite Hs, Hd, Hr.
Qed.

(** X15. After an instruction with an output, the declaration table maps
    the id of the output to a record made from the context before the
    instruction: Dynamic exactly when the identifier is among the
    reactive ones, defined at the start of its mutable range, owned by
    the innermost open scope; every other id keeps its record. So an
    output declared inside a scope does not qualify as a dependency of
    that scope, nor later of any scope while that scope is still open and
    the record stands. *)
Theorem X15_output_record (c : Context) (i : InstructionId) (lv : LValue)
    (v : ReactiveValue) :
  let ident := identifier (lvalue_place lv) in
  let c' := visitInstruction c (mkInstruction i (Some lv) v) in
  ctx_declarations c' !! ident_id ident
  = Some (mkDecl (if bool_decide (ident ∈ ctx_reactiveIdentifiers c)
                  then Dynamic else Const)
            (range_start (ident_mutableRange ident)) (currentScope c))
  ∧ (∀ j, j ≠ ident_id ident →
          ctx_declarations c' !! j = ctx_declarations c !! j)
  ∧ (∀ S c'' d,
       currentScope c = Some S →
       ctx_declarations c'' !! rootId d = ctx_declarations c' !! ident_id ident →
       S ∈ ctx_scopes c'' →
       ¬ Qualifies c'' d).
Proof.
  intros ident c'. subst c'. rewrite visitInstruction_declarations.
  fold ident. split; [by rewrite lookup_insert_eq|]. split.
  - intros j Hj. by rewrite lookup_insert_ne.
  - intros S c'' d HS Hl Hin (C & decl & _ & Hl' & _ & _ & Hscope).
    rewrite lookup_insert_eq in Hl. unfold rootId in Hl.
    rewrite Hl in Hl'. injection Hl' as <-. simpl in Hscope.
    rewrite HS in Hscope.
    destruct Hscope as [? | (T & [= <-] & Hni)]; done.
Qed.
End OutputClaim.

(** ** Candidates that change nothing *)

(** X16. A call of [visitDependency] whose resolved candidate neither
    escapes from a closed scope nor qualifies returns the context as it
    was. This is so for every candidate whose root has no record in the
    declaration table (a free variable), and then visiting the operand
    changes nothing but the next object address. *)
Theorem X16_nothing_to_do (c : Context) (d : ReactiveScopeDependency)
    (p : Place) :
  let candidate := maybeDependency c d in
  ((∀ s, ¬ EscapesFrom c candidate s) → ¬ Qualifies c candidate →
   visitDependency c d = c)
  ∧ (ctx_declarations c !! rootId candidate = None →
     visitDependency c d = c)
  ∧ (ctx_declarations c !! ident_id (identifier p) = None →
     (ident_name (identifier p) = None →
      ctx_properties c !! identifier p = None) →
     visitOperand c p = set_next_obj (S (next_obj c)) c).
Proof.
  intros candidate.
  assert ((∀ s, ¬ EscapesFrom c candidate s) → ¬ Qualifies c candidate →
          visitDependency c d = c) as Hframe.
  { intros Hesc HQ. unfold visitDependency. fold candidate.
    assert (promoteEscape c candidate = c) as ->.
    { unfold promoteEscape.
      destruct (ctx_declarations c !! _) as [decl|] eqn:Hl; [|done].
      destruct (decl_scope decl) as [s|] eqn:Hs; [|done].
      destruct (isScopeActive c s) eqn:Ha; [done|].
      destruct (Hesc s). exists decl.
      by apply isScopeActive_false in Ha. }
    destruct (isDependency c candidate) eqn:E; [|done].
    by apply isDependency_Qualifies in E. }
  assert (∀ c0 x, ctx_declarations c0 !! rootId x = None →
                  (∀ s, ¬ EscapesFrom c0 x s) ∧ ¬ Qualifies c0 x) as Hfree.
  { intros c0 x Hl. split.
    - intros s (decl & Hl' & _). unfold rootId in Hl. by rewrite Hl in Hl'.
    - intros (C & decl & _ & Hl' & _). unfold rootId in Hl.
      by rewrite Hl in Hl'. }
  split; [done|]. split.
  - intros Hl. destruct (Hfree c candidate Hl). by apply Hframe.
  - intros Hl Halias. unfold visitOperand.
    set (c0 := set_next_obj (S (next_obj c)) c).
    set (d0 := mkDep (next_obj c) p None).
    assert (maybeDependency c0 d0 = d0) as Hm.
    { unfold maybeDependency. simpl.
      destruct (ident_name (identifier p)); [done|]. by rewrite Halias. }
    unfold visitDependency. rewrite Hm.
    assert (promoteEscape c0 d0 = c0) as ->.
    { unfold promoteEscape. simpl. by rewrite Hl. }
    unfold isDependency. simpl. rewrite Hl.
    by destruct (currentScope c0).
Qed.

(** ** What a call takes out of the working set *)







(** ** Uses under nested scopes and after a scope *)

Lemma maybeDependency_named c d :
  ident_name (identifier (place d)) ≠ None
  ∨ ctx_properties c !! identifier (place d) = None →
  maybeDependency c d = d.
Proof.
  intros H. unfold maybeDependency. destruct (path d); [done|].
  destruct (ident_name (identifier (place d))) eqn:En; [done|].
  destruct H as [H|H]; [done|]. by rewrite H.
Qed.

Lemma leaveScope_declarations c scope c' :
  ctx_declarations (leaveScope c scope c') = ctx_declarations c'.
Proof.
  unfold leaveScope.
  by destruct (fold_visitDependency_context (ctx_dependencies c')
    (set_heap
       (heap_update scope (scope_set_dependencies (ctx_dependencies c'))
          (heap (set_dependencies (ctx_dependencies c)
                   (set_scopes (removelast (ctx_scopes c')) c'))))
       (set_dependencies (ctx_dependencies c)
          (set_scopes (removelast (ctx_scopes c')) c')))) as (-> & _).
Qed.

Section NestingClaims.
Variable eachInstructionValueOperand : ReactiveValue -> list Place.
Variable eachReactiveValueOperand : ReactiveValue -> list Place.

Abbreviation visit :=
  (visit eachInstructionValueOperand eachReactiveValueOperand).
Abbreviation visitStatement :=
  (visitStatement eachInstructionValueOperand eachReactiveValueOperand).
Abbreviation visitInstruction := (visitInstruction eachReactiveValueOperand).

Lemma nestScopes_walk scopes (p : Place) decl : ∀ c,
  ctx_declarations c !! ident_id (identifier p) = Some decl →
  decl_kind decl = Dynamic →
  (decl_scope decl = None
   ∨ ∃ S, decl_scope decl = Some S ∧ (S ∉ ctx_scopes c) ∧ (S ∉ scopes)) →
  (∀ s, s ∈ scopes → decl_id decl < range_start (range (heap c s))) →
  (ident_name (identifier p) ≠ None
   ∨ ctx_properties c !! identifier p = None) →
  let d := mkDep (next_obj c) p None in
  let c' := visit c (nestScopes scopes
                       [TerminalItem (ReturnTerminal (Some p))]) in
  ctx_declarations c' = ctx_declarations c
  ∧ ctx_properties c' = ctx_properties c
  ∧ ctx_scopes c' = ctx_scopes c
  ∧ (∀ r, range (heap c' r) = range (heap c r))
  ∧ ctx_dependencies c' = ctx_dependencies (visitDependency c d)
  ∧ ∀ s, s ∈ scopes → dependencies (heap c' s) = [d].
Proof.
  induction scopes as [|s rest IH]; intros c Hdecl Hkind Hscope Hstart Hname d c'.
  - subst c'. simpl.
    change (visitOperand c p)
      with (visitDependency (set_next_obj (S (next_obj c)) c) d).
    destruct (visitDependency_context (set_next_obj (S (next_obj c)) c) d)
      as (-> & _ & -> & -> & _).
    split; [done|]. split; [done|]. split; [done|]. split.
    { intros r.
      by destruct (visitDependency_heap_fields
                     (set_next_obj (S (next_obj c)) c) d r) as (-> & _). }
    split; [|intros s Hs; by apply not_elem_of_nil in Hs].
    rewrite !visitDependency_dependencies.
    by rewrite (isDependency_ext c (set_next_obj (S (next_obj c)) c)).
  - subst c'. simpl nestScopes.
    change (visit c [ScopeItem s ?b]) with (visitStatement c (ScopeItem s b)).
    rewrite visitStatement_scope.
    set (c1 := enterScope c s).
    destruct (IH c1) as (Hd1 & Hp1 & Hs1 & Hr1 & Hdeps1 & Hin1).
    { done. } { done. }
    { destruct Hscope as [?|(T & ? & HT & HTS)]; [by left|right].
      exists T. split; [done|]. subst c1. simpl.
      apply not_elem_of_cons in HTS as [? ?].
      split; [|done]. rewrite elem_of_app, list_elem_of_singleton. tauto. }
    { intros s' Hs'. apply Hstart. by right. }
    { done. }
    change (next_obj c1) with (next_obj c) in Hdeps1, Hin1. fold d in Hdeps1, Hin1.
    set (c2 := visit c1 _) in *.
    assert (Qualifies c1 d) as HQ1.
    { exists s, decl. subst c1. unfold currentScope. simpl.
      rewrite last_snoc. split; [done|]. split; [done|]. split; [done|].
      split; [apply Hstart; by left|].
      destruct Hscope as [?|(T & ? & HT & HTS)]; [by left|right].
      exists T. split; [done|].
      apply not_elem_of_cons in HTS as [? ?].
      rewrite elem_of_app, list_elem_of_singleton. tauto. }
    assert (ctx_dependencies c2 = [d]) as Hset.
    { rewrite Hdeps1, visitDependency_resolved; [done| |done].
      apply maybeDependency_named. by subst c1. }
    unfold leaveScope. rewrite Hset.
    set (c3 := set_heap _ _).
    change (fold_left visitDependency [d] c3) with (visitDependency c3 d).
    assert (ctx_declarations c3 = ctx_declarations c) as Hd3 by exact Hd1.
    assert (ctx_properties c3 = ctx_properties c) as Hp3 by exact Hp1.
    assert (ctx_scopes c3 = ctx_scopes c) as Hs3.
    { subst c3. simpl. rewrite Hs1. subst c1. simpl. apply removelast_snoc. }
    assert (∀ r, range (heap c3 r) = range (heap c r)) as Hr3.
    { intros r. subst c3. simpl. rewrite heap_update_range by done.
      apply Hr1. }
    assert (ctx_dependencies c3 = ctx_dependencies c) as Hdeps3 by done.
    assert (∀ s', s' ∈ s :: rest → dependencies (heap c3 s') = [d]) as Hin3.
    { intros s' Hs'. subst c3. simpl.
      destruct (decide (s' = s)) as [->|Hne].
      - by rewrite heap_update_eq.
      - rewrite heap_update_ne by done.
        apply Hin1. by apply elem_of_cons in Hs' as [?|?]. }
    clearbody c3.
    destruct (visitDependency_context c3 d) as (-> & _ & -> & -> & _).
    split; [done|]. split; [done|]. split; [done|]. split.
    { intros r. destruct (visitDependency_heap_fields c3 d r) as (-> & _).
      apply Hr3. }
    split.
    { rewrite !visitDependency_dependencies, Hdeps3.
      rewrite (isDependency_ext c c3) by done.
      replace (maybeDependency c3 d) with (maybeDependency c d); [done|].
      unfold maybeDependency. by rewrite Hp3. }
    intros s' Hs'.
    destruct (visitDependency_heap_fields c3 d s') as (_ & -> & _).
    by apply Hin3.
Qed.
(** X18. A value with a Dynamic record, declared before the start of
    each of a list of nested scopes and inside none of them, and read in
    the innermost one, becomes the one dependency of every one of them:
    each scope hands it on to the scope around it. The working set around
    the outermost scope ends as if the value had been read there. *)
Theorem X18_nested_scopes (c : Context) (scopes : list ScopeRef) (p : Place)
    (decl : Decl) :
  ctx_declarations c !! ident_id (identifier p) = Some decl →
  decl_kind decl = Dynamic →
  (decl_scope decl = None
   ∨ ∃ S, decl_scope decl = Some S ∧ (S ∉ ctx_scopes c) ∧ (S ∉ scopes)) →
  (∀ s, s ∈ scopes → decl_id decl < range_start (range (heap c s))) →
  (ident_name (identifier p) ≠ None
   ∨ ctx_properties c !! identifier p = None) →
  let c' := visit c (nestScopes scopes
                       [TerminalItem (ReturnTerminal (Some p))]) in
  (∀ s, s ∈ scopes →
        dependencies (heap c' s) = [mkDep (next_obj c) p None])
  ∧ ctx_dependencies c' = ctx_dependencies (visitOperand c p).
Proof.
  intros Hdecl Hkind Hscope Hstart Hname c'.
  destruct (nestScopes_walk scopes p decl c Hdecl Hkind Hscope Hstart Hname)
    as (_ & _ & _ & _ & Hdeps & Hin).
  split; [exact Hin|]. subst c'. rewrite Hdeps.
  unfold visitOperand. rewrite !visitDependency_dependencies.
  by rewrite (isDependency_ext c (set_next_obj (S (next_obj c)) c)).
Qed.

(** X19. An instruction inside a scope declares a value, and the value is
    read under its name after the scope has closed. Then the scope has the
    value among its [declarations]. If moreover the identifier is reactive
    and its mutable range starts before the scope that is current at the
    read, the working set of that scope has an entry for the whole value;
    if the identifier is not reactive, the read leaves the working set as
    it is. *)
Theorem X19_use_after_scope (c : Context) (I : ScopeRef) (i : InstructionId)
    (lv : LValue) (v : ReactiveValue) (p : Place) :
  I ∉ ctx_scopes c →
  ident_id (identifier p) = ident_id (identifier (lvalue_place lv)) →
  ident_name (identifier p) ≠ None →
  let ident := identifier (lvalue_place lv) in
  let after :=
    visit c [ScopeItem I [InstructionItem (mkInstruction i (Some lv) v)]] in
  let c' := visit after [TerminalItem (ReturnTerminal (Some p))] in
  (ident_id ident, identifier p) ∈ declarations (heap c' I)
  ∧ (∀ O, currentScope c = Some O →
          ident ∈ ctx_reactiveIdentifiers c →
          range_start (ident_mutableRange ident)
          < range_start (range (heap c O)) →
          HasWhole (ctx_dependencies c') (ident_id ident))
  ∧ (ident ∉ ctx_reactiveIdentifiers c →
     ctx_dependencies c' = ctx_dependencies after).
Proof.
  intros HI Hid Hname ident after c'.
  assert (ctx_scopes after = ctx_scopes c) as Hs.
  { apply (visit_KeepsTopLevel eachInstructionValueOperand
             eachReactiveValueOperand). }
  assert (∀ r, range (heap after r) = range (heap c r)) as Hr.
  { apply (visit_KeepsRanges eachInstructionValueOperand
             eachReactiveValueOperand). }
  assert (ctx_declarations after !! ident_id ident
          = Some (mkDecl (if isReactive c ident then Dynamic else Const)
                    (range_start (ident_mutableRange ident)) (Some I)))
    as Hdecl.
  { subst after.
    change (visit c [ScopeItem I ?b]) with (visitStatement c (ScopeItem I b)).
    rewrite visitStatement_scope, leaveScope_declarations.
    change (visit (enterScope c I)
              [InstructionItem (mkInstruction i (Some lv) v)])
      with (visitInstruction (enterScope c I) (mkInstruction i (Some lv) v)).
    rewrite visitInstruction_declarations, lookup_insert_eq.
    unfold currentScope, enterScope. simpl. by rewrite last_snoc. }
  set (d := mkDep (next_obj after) p None).
  set (a := set_next_obj (S (next_obj after)) after).
  assert (c' = visitDependency a d) as -> by reflexivity.
  assert (maybeDependency a d = d) as Hm.
  { apply maybeDependency_named. by left. }
  assert (EscapesFrom a d I) as HE.
  { eexists. simpl. rewrite Hid. split; [exact Hdecl|].
    split; [done|]. by rewrite Hs. }
  split; [|split].
  - rewrite visitDependency_heap, Hm, (promoteEscape_escapes _ _ _ HE).
    rewrite heap_update_eq. simpl. unfold rootId. simpl.
    subst ident. rewrite <- Hid. apply Map_set_elem.
  - intros O HO Hre Hlt.
    assert (Qualifies a (maybeDependency a d)) as HQ.
    { rewrite Hm. exists O. eexists. simpl. rewrite Hid.
      split; [unfold currentScope; simpl; rewrite Hs; exact HO|].
      split; [exact Hdecl|]. unfold isReactive.
      rewrite bool_decide_eq_true_2 by done. simpl.
      split; [done|]. split; [by rewrite Hr|].
      right. exists I. split; [done|]. by rewrite Hs. }
    destruct (visitDependency_Covered a d HQ) as (entry & Hin & Hroot & Hp).
    exists entry. split; [exact Hin|]. rewrite Hm in Hroot, Hp.
    split; [by rewrite Hroot; unfold rootId; simpl|].
    destruct Hp as [?|(q & p0 & _ & Hp0 & _)]; [done | discriminate Hp0].
  - intros Hnre. rewrite visitDependency_dependencies, Hm.
    replace (isDependency a d) with false; [done|].
    symmetry. apply not_true_is_false. intros HQ.
    apply isDependency_Qualifies in HQ as (C & decl & _ & Hl & Hk & _).
    simpl in Hl. rewrite Hid in Hl. fold ident in Hl. rewrite Hdecl in Hl.
    injection Hl as <-. simpl in Hk. unfold isReactive in Hk.
    by rewrite bool_decide_eq_false_2 in Hk.
Qed.
End NestingClaims.


(** ** Closed runs *)

Lemma ex_open_Qualifies o q : Qualifies ex_open (mkDep o ex_pPlace q).
Proof.
  exists 1, (mkDecl Dynamic 0 None).
  split; [reflexivity|]. split; [reflexivity|]. split; [reflexivity|].
  split; [simpl; lia | by left].
Defined.

Lemma ex_closed_EscapesFrom o q : EscapesFrom ex_closed (mkDep o ex_kPlace q) 1.
Proof.
  exists (mkDecl Const 1 (Some 1)).
  split; [reflexivity|]. split; [reflexivity|]. apply not_elem_of_nil.
Defined.

Lemma C1_witness :
  Qualifies ex_open (mkDep 0 ex_pPlace None)
  ∧ ctx_dependencies (visitDependency ex_open (mkDep 0 ex_pPlace None))
    = [mkDep 0 ex_pPlace None]
  ∧ ¬ Qualifies ex_closed (mkDep 0 ex_kPlace None)
  ∧ ctx_dependencies (visitDependency ex_closed (mkDep 0 ex_kPlace None)) = [].
Proof.
  destruct (C1_qualification_test ex_open (mkDep 0 ex_pPlace None))
    as (_ & Hyes & _).
  destruct (C1_qualification_test ex_closed (mkDep 0 ex_kPlace None))
    as (_ & _ & Hno).
  assert (¬ Qualifies ex_closed (mkDep 0 ex_kPlace None)) as HnQ.
  { intros (C & decl & HC & _). discriminate HC. }
  split; [apply ex_open_Qualifies|].
  split; [exact (Hyes (ex_open_Qualifies 0 None))|].
  split; [exact HnQ | exact (Hno HnQ)].
Defined.

Lemma C2_witness :
  Qualifies ex_open (mkDep 0 ex_pPlace None)
  ∧ ctx_dependencies ex_open = []
  ∧ ctx_dependencies
      (visitDependency
         (visitDependency ex_open (mkDep 0 ex_pPlace (Some ["b"%string])))
         (mkDep 1 ex_pPlace None))
    = [mkDep 1 ex_pPlace None].
Proof.
  split; [apply ex_open_Qualifies|]. split; [reflexivity|].
  destruct (C2_subsumption_idempotent ex_open ex_pPlace ["b"%string] 0 1)
    as (_ & _ & H & _).
  - apply ex_open_Qualifies.
  - simpl. discriminate.
  - reflexivity.
  - exact H.
Defined.

Lemma C3_witness :
  let c := set_dependencies
             [mkDep 0 ex_pPlace (Some ["b"%string; "c"%string])] ex_open in
  Qualifies c (mkDep 1 ex_pPlace (Some ["b"%string]))
  ∧ ctx_dependencies (visitDependency c (mkDep 1 ex_pPlace (Some ["b"%string])))
    = [mkDep 0 ex_pPlace (Some ["b"%string; "c"%string]);
       mkDep 1 ex_pPlace (Some ["b"%string])].
Proof.
  intros c.
  assert (Qualifies c (mkDep 1 ex_pPlace (Some ["b"%string]))) as HQ.
  { exists 1, (mkDecl Dynamic 0 None).
    split; [reflexivity|]. split; [reflexivity|]. split; [reflexivity|].
    split; [simpl; lia | by left]. }
  split; [exact HQ|].
  destruct (C3_subsumption_one_sided c ex_pPlace ["b"%string] ["c"%string]
              0 1) as [H _].
  - discriminate.
  - exact HQ.
  - reflexivity.
  - exact H.
Defined.


(** C5, as stated, fails: the reactivity analysis marks nothing reactive,
    yet the parameter [p], read inside scope 1, is recorded as a dependency
    of that scope. *)
Lemma C5_counterexample :
  (ex_p ∉ noneReactive ex_useParam)
  ∧ ex_pPlace ∈ params ex_useParam
  ∧ dependencies (heap (run noneReactive ex_useParam (ex_heap 1)) 1)
    = [mkDep 0 ex_pPlace None].
Proof.
  split; [|split].
  - unfold noneReactive. apply not_elem_of_empty.
  - apply list_elem_of_here.
  - vm_compute. reflexivity.
Qed.

Lemma C5_witness :
  (∀ r, dependencies (ex_heap 1 r) = [])
  ∧ (ex_k ∉ noneReactive ex_useConst)
  ∧ ∀ r d,
      d ∈ dependencies (heap (run noneReactive ex_useConst (ex_heap 1)) r) →
      rootId d ≠ ident_id ex_k.
Proof.
  split; [reflexivity|]. split; [apply not_elem_of_empty|].
  apply (C5_const_exclusion_amended instructionValueOperands
           reactiveValueOperands noneReactive ex_useConst (ex_heap 1) ex_k).
  - reflexivity.
  - intros p Hp. apply list_elem_of_singleton in Hp. subst p. discriminate.
  - intros Y HY. by apply not_elem_of_empty in HY.
Defined.

(** C6, as stated, fails. (1) [v] is declared Dynamic at instruction 1,
    inside scope 1 and before scope 2 starts at instruction 3; the chain
    on [v] inside scope 2, itself inside scope 1, leaves no dependency in
    scope 2. (2) [o] is declared Dynamic at instruction 1, before scope 1
    starts at instruction 2, as the output of the load [p.a]; the chain on
    [o] leaves a dependency rooted at [p], not at [o]. *)
Lemma C6_counterexample :
  (ctx_declarations (run (λ _, {[ex_v]}) ex_nested ex_nested_heap)
     !! ident_id ex_v = Some (mkDecl Dynamic 1 (Some 1))
   ∧ range_start (range (ex_nested_heap 2)) = 3
   ∧ dependencies (heap (run (λ _, {[ex_v]}) ex_nested ex_nested_heap) 2)
     = [])
  ∧ (ctx_declarations (run (λ _, {[ex_o]}) ex_loaded (ex_heap 2))
       !! ident_id ex_o = Some (mkDecl Dynamic 1 None)
     ∧ range_start (range (ex_heap 2 1)) = 2
     ∧ dependencies (heap (run (λ _, {[ex_o]}) ex_loaded (ex_heap 2)) 1)
       = [mkDep 2 ex_pPlace (Some ["a"%string; "x"%string; "y"%string])]).
Proof.
  split; (split; [vm_compute; reflexivity|]);
    (split; [reflexivity | vm_compute; reflexivity]).
Qed.

Lemma C6_witness :
  ctx_declarations ex_start !! ident_id ex_p = Some (mkDecl Dynamic 0 None)
  ∧ 0 < range_start (range (heap ex_start 1))
  ∧ dependencies
      (heap (visit instructionValueOperands reactiveValueOperands
               ex_start ex_chain) 1)
    = [mkDep 1 ex_pPlace (Some ["x"%string; "y"%string])].
Proof.
  split; [vm_compute; reflexivity|]. split; [simpl; lia|].
  destruct (C6_property_chain_amended instructionValueOperands reactiveValueOperands
              ex_start 1 ex_pPlace (mkPlace ex_t1 1) (mkPlace ex_t1 2)
              (mkPlace ex_t2 3) (mkPlace ex_t2 4) "x"%string "y"%string
              InstructionKind_Const InstructionKind_Const 3 4 5 None
              (OtherValue [mkPlace ex_t2 4]) (mkDecl Dynamic 0 None))
    as [H _].
  - reflexivity.
  - reflexivity.
  - reflexivity.
  - reflexivity.
  - simpl. discriminate.
  - simpl. discriminate.
  - vm_compute. reflexivity.
  - vm_compute. reflexivity.
  - reflexivity.
  - simpl. lia.
  - by left.
  - discriminate.
  - reflexivity.
  - exact H.
Defined.

Lemma C7_witness :
  maybeDependency ex_aliased (mkDep 8 (mkPlace ex_t1 0) None)
  = mkDep 6 ex_pPlace (Some ["x"%string])
  ∧ ctx_properties ex_aliased !! ex_p
    = Some (mkDep 7 ex_kPlace (Some ["y"%string]))
  ∧ ctx_dependencies (visitDependency ex_aliased (mkDep 8 ex_pPlace None))
    = [mkDep 8 ex_pPlace None].
Proof.
  destruct (C7_alias_resolution ex_aliased (mkDep 8 (mkPlace ex_t1 0) None))
    as (Hanon & _).
  destruct (C7_alias_resolution ex_aliased (mkDep 8 ex_pPlace None))
    as (_ & Hnamed & _).
  split; [|split].
  - apply Hanon; [reflexivity | reflexivity | vm_compute; reflexivity].
  - vm_compute. reflexivity.
  - destruct (Hnamed "p"%string) as (_ & Hdeps); [reflexivity|].
    apply Hdeps; [reflexivity | | reflexivity].
    exists 1, (mkDecl Dynamic 0 None).
    split; [reflexivity|]. split; [reflexivity|]. split; [reflexivity|].
    split; [simpl; lia | by left].
Defined.

Lemma C8_witness :
  let lv := mkLValue (mkPlace ex_k' 0) InstructionKind_Reassign in
  Reassigns ex_inner lv 2
  ∧ reassignments (heap (visitReassignment ex_inner lv) 2) = [ex_k']
  ∧ reassignments
      (heap (visitReassignment (visitReassignment ex_inner lv) lv) 2)
    = [ex_k']
  ∧ visitReassignment ex_closed lv = ex_closed.
Proof.
  intros lv.
  assert (Reassigns ex_inner lv 2) as HR.
  { split; [reflexivity|]. split; [reflexivity|]. split; [discriminate|].
    exists (mkDecl Const 1 (Some 1)). split; [reflexivity | discriminate]. }
  destruct (C8_reassignment_tracking reactiveValueOperands ex_inner lv)
    as (Hyes & _).
  destruct (C8_reassignment_tracking reactiveValueOperands ex_closed lv)
    as (_ & Hno & _).
  destruct (Hyes 2 HR) as (_ & Hadd & Htwice & _).
  split; [exact HR|]. split; [exact Hadd|].
  split; [rewrite Htwice; exact Hadd|].
  apply Hno. intros C (_ & HC & _). discriminate HC.
Defined.

(** C9, as stated, fails in each of its consequences. (1) In a scope
    whose range starts at id 0 the parameter [p] does not pass the
    declared-before check and is not recorded. (2) Once an instruction has
    reassigned [p] and the analysis marks it non-reactive, its record is
    Const: read inside scope 1, [p] does not pass the Dynamic check and is
    not recorded. (3) Once an instruction has reassigned the function's own
    identifier [f] and the analysis marks it reactive, [f], read inside
    scope 1, is recorded as a dependency of that scope. *)
Lemma C9_counterexample :
  (ex_pPlace ∈ params ex_useParam
   ∧ ¬ PassesDynamicAndBefore
         (enterScope (functionContext noneReactive ex_useParam (ex_heap 0)) 1)
         (mkDep 0 ex_pPlace None)
   ∧ dependencies (heap (run noneReactive ex_useParam (ex_heap 0)) 1) = [])
  ∧ (ex_pPlace ∈ params ex_reassignParam
     ∧ ¬ PassesDynamicAndBefore
           (enterScope
              (visit instructionValueOperands reactiveValueOperands
                 (functionContext noneReactive ex_reassignParam (ex_heap 2))
                 (take 1 (body ex_reassignParam))) 1)
           (mkDep 0 ex_pPlace None)
     ∧ dependencies (heap (run noneReactive ex_reassignParam (ex_heap 2)) 1)
       = [])
  ∧ (fn_id ex_reassignSelf = Some ex_f
     ∧ dependencies
         (heap (run (λ _, {[ex_f]}) ex_reassignSelf (ex_heap 2)) 1)
       = [mkDep 0 ex_fPlace None]).
Proof.
  split; [|split].
  - split; [apply list_elem_of_here|]. split.
    + intros (C & decl & HC & Hd & _ & Hlt).
      vm_compute in HC. injection HC as <-. simpl in Hlt. lia.
    + vm_compute. reflexivity.
  - split; [apply list_elem_of_here|]. split.
    + intros (C & decl & _ & Hd & Hk & _).
      vm_compute in Hd. injection Hd as <-. discriminate Hk.
    + vm_compute. reflexivity.
  - split; [reflexivity|]. vm_compute. reflexivity.
Qed.

Lemma C9_witness :
  ctx_declarations ex_start !! ident_id ex_p = Some (mkDecl Dynamic 0 None)
  ∧ PassesDynamicAndBefore (enterScope ex_start 1) (mkDep 0 ex_pPlace None)
  ∧ Qualifies (enterScope ex_start 1) (mkDep 0 ex_pPlace None).
Proof.
  destruct (C9_parameters_amended noneReactive
              (mkFunction None [ex_pPlace] []) (ex_heap 1))
    as (Hparam & _ & Hpass & _).
  assert (ctx_declarations ex_start !! ident_id ex_p
          = Some (mkDecl Dynamic 0 None)) as Hl.
  { apply (Hparam ex_pPlace). apply list_elem_of_here. }
  split; [exact Hl|].
  apply (Hpass (enterScope ex_start 1) (mkDep 0 ex_pPlace None) 1).
  - exact Hl.
  - reflexivity.
  - simpl. lia.
Defined.

Lemma C10_witness :
  let lv := mkLValue (mkPlace ex_t1 1) InstructionKind_Const in
  let load := PropertyLoad ex_kPlace "x"%string in
  EscapesFrom ex_closed (nextDependency ex_closed ex_kPlace "x"%string) 1
  ∧ declarations
      (heap (visitInstruction reactiveValueOperands ex_closed
               (mkInstruction 2 (Some lv) load)) 1) = []
  ∧ declarations
      (heap (visitInstructionValue reactiveValueOperands ex_closed load None) 1)
    = [(3, ex_k)].
Proof.
  intros lv load.
  destruct (C10_property_load_output instructionValueOperands
              reactiveValueOperands ex_closed 2 lv ex_kPlace "x"%string)
    as (_ & _ & _ & Hsame & _ & _ & Hescape).
  assert (EscapesFrom ex_closed (nextDependency ex_closed ex_kPlace "x"%string) 1)
    as HE by apply ex_closed_EscapesFrom.
  split; [exact HE|]. split.
  - destruct (Hsame 1) as (_ & Hdecl). exact Hdecl.
  - exact (Hescape 1 HE).
Defined.

(** ** The scenarios of the spec, run *)

(** A value declared in scope 1 and read only inside it is not among the
    declarations of the scope; read twice after the scope has closed, it
    is there once. *)
Example escape_scenarios :
  declarations (heap (run noneReactive ex_usedInside (ex_heap 1)) 1) = []
  ∧ declarations (heap (run noneReactive ex_usedAfter (ex_heap 1)) 1)
    = [(3, ex_k)].
Proof. split; vm_compute; reflexivity. Qed.

(** With the path entries [p.b] and [p.c] in the working set, the whole
    value [p] takes the place of the first only. *)
Example broader_replaces_first :
  ctx_dependencies
    (visitDependency
       (set_dependencies
          [mkDep 0 ex_pPlace (Some ["b"%string]);
           mkDep 1 ex_pPlace (Some ["c"%string])] ex_open)
       (mkDep 2 ex_pPlace None))
  = [mkDep 1 ex_pPlace (Some ["c"%string]); mkDep 2 ex_pPlace None].
Proof. vm_compute. reflexivity. Qed.

(** The chain [t1 = p.x; t2 = t1.y; use(t2)] inside scope 1, as a whole
    function of the parameter [p]. *)
Example chain_scenario :
  dependencies
    (heap (run noneReactive (mkFunction None [ex_pPlace] ex_chain) (ex_heap 1))
       1)
  = [mkDep 1 ex_pPlace (Some ["x"%string; "y"%string])].
Proof. vm_compute. reflexivity. Qed.

(** ** Closed runs of the further properties *)

Lemma X4_witness :
  (∀ r, dependencies (ex_heap 1 r) = [] ∧ declarations (ex_heap 1 r) = [])
  ∧ Map_keys (declarations (heap (run noneReactive ex_usedAfter (ex_heap 1)) 1))
    = [3]
  ∧ is_Some (ctx_declarations (run noneReactive ex_usedAfter (ex_heap 1)) !! 3).
Proof.
  split; [done|]. split; [vm_compute; reflexivity|].
  destruct (X4_roots_declared instructionValueOperands reactiveValueOperands
              noneReactive ex_usedAfter (ex_heap 1)) with (r := 1)
    as [_ Hkeys]; [done|].
  apply Hkeys. vm_compute. left.
Defined.

Lemma X5_witness :
  ctx_properties (run noneReactive ex_chainFn (ex_heap 1)) !! ex_t2
  = Some (mkDep 1 ex_pPlace (Some ["x"%string; "y"%string]))
  ∧ ∃ p, Some ["x"%string; "y"%string] = Some p ∧ p ≠ [].
Proof.
  split; [vm_compute; reflexivity|].
  assert (ctx_properties
            (propagateScopeDependencies instructionValueOperands
               reactiveValueOperands noneReactive ex_chainFn (ex_heap 1))
          !! ex_t2
          = Some (mkDep 1 ex_pPlace (Some ["x"%string; "y"%string]))) as Hl.
  { vm_compute. reflexivity. }
  exact (X5_aliases_have_paths instructionValueOperands reactiveValueOperands
           noneReactive ex_chainFn (ex_heap 1) ex_t2
           (mkDep 1 ex_pPlace (Some ["x"%string; "y"%string])) Hl).
Defined.

Lemma X7_witness :
  let c := set_dependencies [mkDep 0 ex_pPlace None] ex_open in
  let d := mkDep 1 ex_pPlace (Some ["b"%string]) in
  Qualifies c d
  ∧ Covered (ctx_dependencies c) d
  ∧ ctx_dependencies (visitDependency c d) = [mkDep 0 ex_pPlace None].
Proof.
  intros c d.
  assert (Qualifies c d) as HQ.
  { exists 1, (mkDecl Dynamic 0 None).
    split; [reflexivity|]. split; [reflexivity|]. split; [reflexivity|].
    split; [simpl; lia | by left]. }
  assert (Covered (ctx_dependencies c) d) as HC.
  { exists (mkDep 0 ex_pPlace None). split; [left|]. split; [done | by left]. }
  split; [exact HQ|]. split; [exact HC|].
  destruct (X7_merge_path_candidate c d ["b"%string]) as [H _];
    [reflexivity | exact HQ | exact (H HC)].
Defined.

Lemma X8_witness :
  let c := set_dependencies
             [mkDep 0 ex_pPlace (Some ["b"%string]);
              mkDep 1 ex_pPlace (Some ["c"%string])] ex_open in
  let d := mkDep 2 ex_pPlace None in
  Qualifies c d
  ∧ ctx_dependencies (visitDependency c d)
    = [mkDep 1 ex_pPlace (Some ["c"%string]); mkDep 2 ex_pPlace None].
Proof.
  intros c d.
  assert (Qualifies c d) as HQ.
  { exists 1, (mkDecl Dynamic 0 None).
    split; [reflexivity|]. split; [reflexivity|]. split; [reflexivity|].
    split; [simpl; lia | by left]. }
  split; [exact HQ|].
  destruct (X8_merge_whole_candidate c d) as [_ H];
    [reflexivity | reflexivity | exact HQ |].
  destruct (H [] (mkDep 0 ex_pPlace (Some ["b"%string]))
              [mkDep 1 ex_pPlace (Some ["c"%string])]) as [_ Hswap].
  - reflexivity.
  - intros x Hx. by apply not_elem_of_nil in Hx.
  - reflexivity.
  - apply Hswap. discriminate.
Defined.

Lemma X10_witness :
  let c' := visitStatement instructionValueOperands reactiveValueOperands
              ex_open ex_innerItem in
  let d := mkDep 0 ex_pPlace None in
  d ∈ dependencies (heap c' 2)
  ∧ Qualifies c' d
  ∧ Covered (ctx_dependencies c') d.
Proof.
  intros c' d.
  assert (d ∈ dependencies (heap c' 2)) as Hd by (vm_compute; left).
  assert (Qualifies c' d) as HQ.
  { exists 1, (mkDecl Dynamic 0 None).
    split; [reflexivity|]. split; [vm_compute; reflexivity|].
    split; [reflexivity|]. split; [vm_compute; lia | by left]. }
  split; [exact Hd|]. split; [exact HQ|].
  destruct (X10_propagation_covers instructionValueOperands
              reactiveValueOperands ex_open 2
              [TerminalItem (ReturnTerminal (Some ex_pPlace))] d) as [_ H].
  exact (H Hd HQ).
Defined.

Lemma X11_witness :
  let c' := visitStatement instructionValueOperands reactiveValueOperands
              ex_open ex_innerItem in
  let x := mkDep 0 ex_pPlace None in
  x ∈ ctx_dependencies c'
  ∧ (x ∈ ctx_dependencies ex_open
     ∨ ∃ d, d ∈ dependencies (heap c' 2)
            ∧ x = maybeDependency c' d ∧ Qualifies c' x).
Proof.
  intros c' x.
  assert (x ∈ ctx_dependencies c') as Hx by (vm_compute; left).
  split; [exact Hx|].
  exact (X11_propagation_adds_only instructionValueOperands
           reactiveValueOperands ex_open 2
           [TerminalItem (ReturnTerminal (Some ex_pPlace))] x Hx).
Defined.

Lemma X12_witness :
  ex_steps ≠ []
  ∧ dependencies
      (heap (visit instructionValueOperands reactiveValueOperands ex_start
               [ScopeItem 1
                  (loadChain ex_pPlace ex_steps
                   ++ [InstructionItem
                         (mkInstruction 6 None
                            (OtherValue [mkPlace ex_t3 4]))])]) 1)
    = [mkDep 2 ex_pPlace (Some ["x"%string; "y"%string; "z"%string])].
Proof.
  split; [discriminate|].
  apply (X12_long_chain instructionValueOperands reactiveValueOperands
           ex_start 1 ex_pPlace (mkPlace ex_t3 4) ex_steps 6 None
           (OtherValue [mkPlace ex_t3 4]) (mkDecl Dynamic 0 None)).
  - discriminate.
  - reflexivity.
  - reflexivity.
  - intros s Hs. repeat (apply elem_of_cons in Hs as [->|Hs]);
      [discriminate.. | by apply not_elem_of_nil in Hs].
  - vm_compute. reflexivity.
  - vm_compute. reflexivity.
  - reflexivity.
  - simpl. lia.
  - by left.
  - discriminate.
  - reflexivity.
Defined.

Lemma X14_witness :
  scopesOf (body ex_noScope) = []
  ∧ heap (run noneReactive ex_noScope (ex_heap 1)) = ex_heap 1.
Proof.
  split; [reflexivity|].
  destruct (X14_no_scope_no_change instructionValueOperands
              reactiveValueOperands noneReactive ex_noScope (ex_heap 1))
    as [H _]; [reflexivity | exact H].
Defined.

Lemma X1_witness :
  ctx_scopes ex_start = []
  ∧ ctx_dependencies
      (visit instructionValueOperands reactiveValueOperands ex_start ex_chain)
    = ctx_dependencies ex_start
  ∧ ctx_scopes
      (visit instructionValueOperands reactiveValueOperands ex_open
         [ex_innerItem])
    = [1].
Proof.
  destruct (X1_stack_balanced instructionValueOperands reactiveValueOperands
              noneReactive ex_chain ex_start ex_noScope (ex_heap 1))
    as (_ & Hdeps & _).
  destruct (X1_stack_balanced instructionValueOperands reactiveValueOperands
              noneReactive [ex_innerItem] ex_open ex_noScope (ex_heap 1))
    as (Hstack & _).
  split; [reflexivity|]. split; [exact (Hdeps eq_refl) | exact Hstack].
Defined.

Lemma X9_witness :
  let d := mkDep 0 ex_pPlace None in
  Qualifies ex_open d
  ∧ Covered (ctx_dependencies (visitDependency ex_open d)) d.
Proof.
  intros d. split; [apply ex_open_Qualifies|].
  destruct (X9_coverage ex_open d d) as [H _].
  exact (H (ex_open_Qualifies 0 None)).
Defined.

Lemma X13_witness :
  (2 ∉ scopesOf ex_chain)
  ∧ dependencies
      (heap (visit instructionValueOperands reactiveValueOperands ex_start
               ex_chain) 2)
    = dependencies (heap ex_start 2).
Proof.
  assert (2 ∉ scopesOf ex_chain) as Hni.
  { intros Hin. apply list_elem_of_singleton in Hin. discriminate Hin. }
  split; [exact Hni|].
  destruct (X13_dependencies_outside instructionValueOperands
              reactiveValueOperands noneReactive ex_chain [] ex_start
              ex_noScope (ex_heap 1) 2) as (H & _).
  exact (H Hni).
Defined.

Lemma X15_witness :
  let lv := mkLValue ex_kPlace InstructionKind_Const in
  let c' := visitInstruction reactiveValueOperands ex_open
              (mkInstruction 1 (Some lv) (OtherValue [])) in
  ctx_declarations c' !! 3 = Some (mkDecl Const 1 (Some 1))
  ∧ ¬ Qualifies c' (mkDep 0 ex_kPlace None).
Proof.
  intros lv c'.
  destruct (X15_output_record reactiveValueOperands ex_open 1 lv
              (OtherValue [])) as (Hrec & _ & Hself).
  split; [exact Hrec|].
  apply (Hself 1 c' (mkDep 0 ex_kPlace None)).
  - reflexivity.
  - reflexivity.
  - left.
Defined.

Lemma X16_witness :
  ctx_declarations ex_open !! ident_id ex_f = None
  ∧ visitOperand ex_open ex_fPlace = set_next_obj 1 ex_open.
Proof.
  destruct (X16_nothing_to_do ex_open (mkDep 0 ex_fPlace None) ex_fPlace)
    as (_ & _ & H).
  split; [reflexivity|]. apply H; [reflexivity|]. simpl. discriminate.
Defined.


Lemma X18_witness :
  dependencies
    (heap (visit instructionValueOperands reactiveValueOperands ex_start
             [ScopeItem 1
                [ScopeItem 2
                   [TerminalItem (ReturnTerminal (Some ex_pPlace))]]]) 1)
  = [mkDep 0 ex_pPlace None].
Proof.
  destruct (X18_nested_scopes instructionValueOperands reactiveValueOperands
              ex_start [1; 2] ex_pPlace (mkDecl Dynamic 0 None)) as [H _].
  - reflexivity.
  - reflexivity.
  - by left.
  - intros s _. simpl. lia.
  - left. discriminate.
  - apply (H 1). left.
Defined.

Lemma X19_witness :
  let block :=
    [ScopeItem 2
       [InstructionItem
          (mkInstruction 1 (Some (mkLValue ex_kPlace InstructionKind_Const))
             (OtherValue []))]] in
  let c' := visit instructionValueOperands reactiveValueOperands
              (visit instructionValueOperands reactiveValueOperands
                 ex_reactive block)
              [TerminalItem (ReturnTerminal (Some ex_kPlace))] in
  (3, ex_k) ∈ declarations (heap c' 2)
  ∧ HasWhole (ctx_dependencies c') 3.
Proof.
  intros block c'.
  destruct (X19_use_after_scope instructionValueOperands
              reactiveValueOperands ex_reactive 2 1
              (mkLValue ex_kPlace InstructionKind_Const) (OtherValue [])
              ex_kPlace) as (Hdecl & Hdep & _).
  - intros H. apply list_elem_of_singleton in H. discriminate H.
  - reflexivity.
  - discriminate.
  - split; [exact Hdecl|].
    apply (Hdep 1).
    + reflexivity.
    + change (ex_k ∈ ({[ex_k]} : gset Identifier)).
      by apply elem_of_singleton_2.
    + simpl. lia.
Defined.
